(** * The transactional engine of the geospatial feature store

    A shallow embedding of the engine (type [Engine]: primary map, spatial
    R-tree, sequence number, record log, checkpoint file), of the storage
    facade's handlers that build transactions, and of the parts of the Go
    runtime and of the libraries the engine calls (files, JSON records,
    [geojson.BBox.Bound], [rtree.RTree]).

    Conventions.
    - A Go pointer [*geojson.Feature] is an address together with the
      (never mutated) feature it points to; [==] on pointers compares
      addresses.  A nil pointer is [None].
    - A Go call either returns or panics: [outcome].
    - [uint64] is [N] with the wrap-around at [2^64] written out.
    - [float64] is Rocq's primitive binary64 [float]. *)

From Stdlib Require Import ZArith NArith String List PrimFloat.
From stdpp Require Import gmap strings list pretty.

Local Open Scope string_scope.
Local Open Scope list_scope.

(** ** Go values *)

Definition bytes := list Byte.byte.

(** [interface{}] as far as a feature identifier can hold one: JSON decoding
    produces nil, a string, a float64 or a bool. *)
Inductive any :=
| any_nil
| any_string (s : string)
| any_float64 (f : float)
| any_bool (b : bool).

Inductive error :=
| errorString (msg : string)
| PathError (op path : string) (cause : string).

Inductive panic :=
| nil_dereference
| type_assertion
| panic_value (msg : string).

Inductive outcome (A : Type) :=
| Returned (a : A)
| Panicked (p : panic).
Arguments Returned {A} a.
Arguments Panicked {A} p.

#[export] Instance outcome_ret : MRet outcome := fun A a => Returned a.
#[export] Instance outcome_bind : MBind outcome := fun A B k m =>
  match m with
  | Returned a => k a
  | Panicked p => Panicked p
  end.

(** A call made by a goroutine that holds a mutex: it completes, or it waits
    for ever on a [Lock] of that mutex ([sync.Mutex] is not reentrant). *)
Inductive locked_call (A : Type) :=
| Completes (o : outcome A)
| Deadlock.
Arguments Completes {A} o.
Arguments Deadlock {A}.

(** ** orb / geojson *)

Inductive orb_Geometry :=
| geometry_nil
| orb_Point (x y : float)
| orb_other (kind : string) (coordinates : list float).

Record geojson_Feature := {
  ID : any;
  Type_ : string;
  BBox : list float;
  Geometry : orb_Geometry;
  Properties : list (string * any)
}.

(** [&geojson.Feature{}] *)
Definition zero_Feature : geojson_Feature :=
  {| ID := any_nil; Type_ := EmptyString; BBox := []; Geometry := geometry_nil;
     Properties := [] |}.

Record ptr_Feature := {
  addr : positive;
  pointee : geojson_Feature
}.

Definition ptr_eqb (p q : ptr_Feature) : bool := Pos.eqb (addr p) (addr q).

Definition orb_Point2 := (float * float)%type.

Record orb_Bound := { Min : orb_Point2; Max : orb_Point2 }.

Definition zero_Bound : orb_Bound :=
  {| Min := (0%float, 0%float); Max := (0%float, 0%float) |}.

Definition BBox_Valid (bb : list float) : bool :=
  (4 <=? length bb)%nat && (length bb mod 2 =? 0)%nat.

(** [geojson.BBox.Bound]: the zero bound unless the box has an even number,
    at least four, of coordinates. *)
Definition BBox_Bound (bb : list float) : orb_Bound :=
  if BBox_Valid bb then
    let mid := (length bb / 2)%nat in
    {| Min := (nth 0 bb 0%float, nth 1 bb 0%float);
       Max := (nth mid bb 0%float, nth (S mid) bb 0%float) |}
  else zero_Bound.

(** [x.(string)] *)
Definition assert_string (x : any) : outcome string :=
  match x with
  | any_string s => Returned s
  | _ => Panicked type_assertion
  end.

(** [p.field] on a possibly nil pointer *)
Definition deref (p : option ptr_Feature) : outcome ptr_Feature :=
  match p with
  | Some f => Returned f
  | None => Panicked nil_dereference
  end.

(** ** tidwall/rtree, as far as the engine uses it

    The tree is the sequence of its items; [Insert] adds one item and never
    looks for an existing one, [Delete] removes the first item whose data is
    the given pointer and whose rectangle lies in the given one, [Scan]
    enumerates every item.  Which items the tree holds, and how many, is
    what the library does; the place of an item in the sequence is not: the
    library enumerates by position in the tree. *)

Record rtree_item := {
  item_min : orb_Point2;
  item_max : orb_Point2;
  item_data : ptr_Feature
}.

Definition RTree := list rtree_item.

Definition rect_contains (rmin rmax bmin bmax : orb_Point2) : bool :=
  negb (ltb bmin.1 rmin.1 || ltb rmax.1 bmax.1)
  && negb (ltb bmin.2 rmin.2 || ltb rmax.2 bmax.2).

Definition rtree_Insert (tr : RTree) (min max : orb_Point2)
    (data : ptr_Feature) : RTree :=
  tr ++ [{| item_min := min; item_max := max; item_data := data |}].

Definition item_matches (min max : orb_Point2) (data : ptr_Feature)
    (it : rtree_item) : bool :=
  rect_contains min max (item_min it) (item_max it)
  && ptr_eqb (item_data it) data.

Fixpoint rtree_Delete (tr : RTree) (min max : orb_Point2)
    (data : ptr_Feature) : RTree :=
  match tr with
  | [] => []
  | it :: rest =>
      if item_matches min max data it then rest
      else it :: rtree_Delete rest min max data
  end.

Definition rtree_Scan (tr : RTree) : list ptr_Feature := map item_data tr.

(** ** Transactions and their records on disk *)

Record Transaction := {
  Action : string;
  Name : string;
  LSN : N;
  Feature : option ptr_Feature
}.

(** What [json.Marshal] and [Encoder.Encode] write for a transaction: the
    same fields, the feature by value. *)
Record json_Transaction := {
  json_action : string;
  json_name : string;
  json_lsn : N;
  json_feature : option geojson_Feature
}.

(** One JSON value of a file, as [json.Decoder] meets them in turn. *)
Inductive record :=
| rec_txn (t : json_Transaction)
    (* a transaction object written by [json.Marshal] or [Encoder.Encode] *)
| rec_collection (data : bytes)
    (* a feature collection object: decodes, and sets no transaction field *)
| rec_malformed (raw : bytes).
    (* truncated or corrupt bytes: [Decode] fails *)

Definition json_record (txn : Transaction) : json_Transaction :=
  {| json_action := Action txn; json_name := Name txn; json_lsn := LSN txn;
     json_feature := pointee <$> Feature txn |}.

(** ** Files *)

Record File := {
  file_path : string;
  file_writable : bool;
  file_closed : bool
}.

(** The world outside the engine: the files by path, and the next free
    address of the allocator. *)
Record World := {
  files : gmap string (list record);
  next_addr : positive
}.

Definition with_files (w : World) (fs : gmap string (list record)) : World :=
  {| files := fs; next_addr := next_addr w |}.

Definition ErrNotExist (op path : string) : error :=
  PathError op path "no such file or directory".

Definition ErrBadFd (op path : string) : error :=
  PathError op path "bad file descriptor".

Definition ErrClosed (op path : string) : error :=
  PathError op path "file already closed".

(** [os.Open]: read only, the file must exist. *)
Definition os_Open (w : World) (path : string) : File + error :=
  match files w !! path with
  | Some _ => inl {| file_path := path; file_writable := false;
                     file_closed := false |}
  | None => inr (ErrNotExist "open" path)
  end.

(** An open read-write handle, as [os.Create] and [os.OpenFile] with
    [O_RDWR] give. *)
Definition log_handle (path : string) : File :=
  {| file_path := path; file_writable := true; file_closed := false |}.

(** [os.Create]: read-write, created or truncated. *)
Definition os_Create (w : World) (path : string) : World * File :=
  (with_files w (<[path := []]> (files w)), log_handle path).

(** [os.OpenFile(path, O_RDWR|O_CREATE|O_APPEND, 0644)] *)
Definition os_OpenFile_append (w : World) (path : string) : World * File :=
  (match files w !! path with
   | Some _ => w
   | None => with_files w (<[path := []]> (files w))
   end,
   log_handle path).

Definition file_contents (w : World) (f : File) : list record :=
  default [] (files w !! file_path f).

(** [f.Write]: appends (every writable handle of the engine is either
    freshly truncated or opened with O_APPEND). *)
Definition File_Write (w : World) (f : File) (data : list record)
    : World * option error :=
  if file_closed f then (w, Some (ErrClosed "write" (file_path f)))
  else if file_writable f then
    (with_files w (<[file_path f := file_contents w f ++ data]> (files w)),
     None)
  else (w, Some (ErrBadFd "write" (file_path f))).

(** [f.Truncate(0)] *)
Definition File_Truncate (w : World) (f : File) : World :=
  if file_closed f || negb (file_writable f) then w
  else with_files w (<[file_path f := []]> (files w)).

Definition File_Close (f : File) : File :=
  {| file_path := file_path f; file_writable := file_writable f;
     file_closed := true |}.

(** [json.Marshal] fails on a float that JSON cannot write (NaN, infinity)
    and otherwise gives the record of the transaction. *)
Definition float_finite (f : float) : bool := negb (is_nan f || is_infinity f).

Definition any_finite (x : any) : bool :=
  match x with
  | any_float64 f => float_finite f
  | _ => true
  end.

Definition Geometry_finite (g : orb_Geometry) : bool :=
  match g with
  | geometry_nil => true
  | orb_Point x y => float_finite x && float_finite y
  | orb_other _ cs => forallb float_finite cs
  end.

Definition Feature_finite (f : geojson_Feature) : bool :=
  any_finite (ID f) && forallb float_finite (BBox f)
  && Geometry_finite (Geometry f)
  && forallb (fun kv => any_finite kv.2) (Properties f).

Definition json_Marshal (txn : Transaction) : json_Transaction + error :=
  match Feature txn with
  | Some p =>
      if Feature_finite (pointee p) then inl (json_record txn)
      else inr (errorString "json: unsupported value")
  | None => inl (json_record txn)
  end.

(** ** The engine

    Of the fields of [Engine], the mutex and the context are left out: the
    engine is followed one call at a time, and the cancellation of the
    context is the event [ctx_Done] of the run loop.  The mutex is free at
    the start of every call; [saveTransaction] holds it while it calls
    [applyTransaction], and that call is [applyTransaction_holding_mu]. *)

Record Engine := {
  primary : gmap string ptr_Feature;
  spatial : RTree;
  lsn : N;
  logFile : File;
  checkpointPath : string
}.

Definition set_primary (e : Engine) (m : gmap string ptr_Feature) : Engine :=
  {| primary := m; spatial := spatial e; lsn := lsn e; logFile := logFile e;
     checkpointPath := checkpointPath e |}.

Definition set_spatial (e : Engine) (tr : RTree) : Engine :=
  {| primary := primary e; spatial := tr; lsn := lsn e; logFile := logFile e;
     checkpointPath := checkpointPath e |}.

Definition set_lsn (e : Engine) (n : N) : Engine :=
  {| primary := primary e; spatial := spatial e; lsn := n;
     logFile := logFile e; checkpointPath := checkpointPath e |}.

Definition set_logFile (e : Engine) (f : File) : Engine :=
  {| primary := primary e; spatial := spatial e; lsn := lsn e; logFile := f;
     checkpointPath := checkpointPath e |}.

Definition uint64_add (a b : N) : N := ((a + b) mod 2 ^ 64)%N.

(** [strconv.FormatUint(n, 10)] *)
Definition FormatUint (n : N) : string := pretty n.

(** The cases of [switch txn.Action]. *)
Inductive action_case :=
| case_upsert | case_delete | case_select | case_checkpoint | case_default.

Definition switch_Action (a : string) : action_case :=
  if String.eqb a "insert" || String.eqb a "replace" then case_upsert
  else if String.eqb a "delete" then case_delete
  else if String.eqb a "select" then case_select
  else if String.eqb a "checkpoint" then case_checkpoint
  else case_default.

(** [drain]: the values of the map, in the order the map enumerates them. *)
Definition drain (m : gmap string ptr_Feature) : list ptr_Feature :=
  (map_to_list m).*2.

(** What a call returns as [([]byte, error)]. *)
Definition result := (option bytes * option error)%type.

Definition no_payload : result := (None, None).

Definition not_found (id : string) : error :=
  errorString ("can't delete by id" +:+ id +:+ ": no such enrty").

Definition is_ErrNotExist (err : error) : bool :=
  match err with
  | PathError _ _ cause => String.eqb cause "no such file or directory"
  | errorString _ => false
  end.

Inductive event :=
| job (tnx : Transaction)
| ctx_Done.

(** What a handler does with a request: it answers with an error, or it
    sends a transaction on [jobs] (and then waits on [resp]). *)
Inductive handled :=
| http_Error (msg : string) (code : nat)
| submitted (txn : Transaction).

Definition StatusBadRequest : nat := 400.

Section WithCodec.

(** [FeatureCollection.MarshalJSON], on the features the collection points
    to. *)
Variable MarshalJSON : list geojson_Feature -> bytes + error.

(** The feature [UnmarshalJSON] builds from the bytes [MarshalJSON] wrote for
    a feature (the configured marshaler writes floats with six digits). *)
Variable json_reread : geojson_Feature -> geojson_Feature.

Definition Collection_MarshalJSON (col : list ptr_Feature) : result :=
  match MarshalJSON (pointee <$> col) with
  | inl data => (Some data, None)
  | inr err => (None, Some err)
  end.

Definition applyTransaction (e : Engine) (w : World) (txn : Transaction)
    : outcome (Engine * World * result) :=
  match switch_Action (Action txn) with
  | case_upsert =>
      f ← deref (Feature txn);
      id ← assert_string (ID (pointee f));
      let e1 := set_primary e (<[id := f]> (primary e)) in
      let b := BBox_Bound (BBox (pointee f)) in
      let e2 := set_spatial e1 (rtree_Insert (spatial e1) (Min b) (Max b) f) in
      Returned (e2, w, no_payload)
  | case_delete =>
      f ← deref (Feature txn);
      id ← assert_string (ID (pointee f));
      match primary e !! id with
      | Some feature =>
          let b := BBox_Bound (BBox (pointee feature)) in
          let e1 :=
            set_spatial e (rtree_Delete (spatial e) (Min b) (Max b) feature) in
          let e2 := set_primary e1 (delete id (primary e1)) in
          Returned (e2, w, no_payload)
      | None => Returned (e, w, (None, Some (not_found id)))
      end
  | case_select =>
      let col := rtree_Scan (spatial e) in
      Returned (e, w, Collection_MarshalJSON col)
  | case_checkpoint =>
      match os_Open w
              (Name txn +:+ FormatUint (lsn e) +:+ checkpointPath e) with
      | inr err => Returned (e, w, (None, Some err))
      | inl f =>
          let col := drain (primary e) in
          match MarshalJSON (pointee <$> col) with
          | inr err => Returned (e, w, (None, Some err))
          | inl data =>
              match File_Write w f [rec_collection data] with
              | (w1, Some err) => Returned (e, w1, (None, Some err))
              | (w1, None) => Returned (e, w1, no_payload)
              end
          end
      end
  | case_default => Panicked (panic_value "unknown action")
  end.

(** [decoder.Decode(&txn)] on the next value of the file; [None] is an
    error: the value is malformed, or its sequence number does not fit the
    [uint64] field.  A decoded feature is a newly allocated object. *)
Definition Decode (w : World) (r : record) : option (World * Transaction) :=
  match r with
  | rec_txn t =>
      if (2 ^ 64 <=? json_lsn t)%N then None
      else
      match json_feature t with
      | Some f =>
          Some ({| files := files w; next_addr := Pos.succ (next_addr w) |},
                {| Action := json_action t; Name := json_name t;
                   LSN := json_lsn t;
                   Feature := Some {| addr := next_addr w;
                                      pointee := json_reread f |} |})
      | None =>
          Some (w, {| Action := json_action t; Name := json_name t;
                      LSN := json_lsn t; Feature := None |})
      end
  | rec_collection _ =>
      Some (w, {| Action := EmptyString; Name := EmptyString; LSN := 0%N;
                  Feature := None |})
  | rec_malformed _ => None
  end.

(** The loop of [loadCheckpoint] and of [replayLog]: decode the next value,
    leave the loop at the first error (the end of the file is one), apply
    the transaction and ignore what it returns. *)
Fixpoint decode_loop (e : Engine) (w : World) (rs : list record)
    : outcome (Engine * World) :=
  match rs with
  | [] => Returned (e, w)
  | r :: rest =>
      match Decode w r with
      | None => Returned (e, w)
      | Some (w1, txn) =>
          '(e2, w2, _) ← applyTransaction e w1 txn;
          decode_loop e2 w2 rest
      end
  end.

Definition loadCheckpoint (e : Engine) (w : World)
    : outcome (Engine * World * option error) :=
  match os_Open w (checkpointPath e) with
  | inr err =>
      if is_ErrNotExist err then Returned (e, w, None)
      else Returned (e, w, Some err)
  | inl file =>
      '(e1, w1) ← decode_loop e w (file_contents w file);
      Returned (e1, w1, None)
  end.

(** [replayLog] reads the handle [NewEngine] has just opened, from the start
    of the file. *)
Definition replayLog (e : Engine) (w : World)
    : outcome (Engine * World * option error) :=
  '(e1, w1) ← decode_loop e w (file_contents w (logFile e));
  Returned (e1, w1, None).

Definition NewEngine (w : World) (logPath checkpointPath : string)
    : outcome (World * (Engine + error)) :=
  let '(w0, logFile) := os_OpenFile_append w logPath in
  let engine :=
    {| primary := ∅; spatial := []; lsn := 0%N; logFile := logFile;
       checkpointPath := checkpointPath |} in
  '(e1, w1, err1) ← loadCheckpoint engine w0;
  match err1 with
  | Some err => Returned (w1, inr err)
  | None =>
      '(e2, w2, err2) ← replayLog e1 w1;
      match err2 with
      | Some err => Returned (w2, inr err)
      | None => Returned (w2, inl e2)
      end
  end.

(** [applyTransaction] called by a goroutine that holds [e.mu].  The
    checkpoint case is the one that takes the mutex, once it has opened the
    file: the call then never returns.  On every other path the mutex is
    not touched and the call is the one of [applyTransaction]. *)
Definition applyTransaction_holding_mu (e : Engine) (w : World)
    (txn : Transaction) : locked_call (Engine * World * result) :=
  match switch_Action (Action txn) with
  | case_checkpoint =>
      match os_Open w
              (Name txn +:+ FormatUint (lsn e) +:+ checkpointPath e) with
      | inr _ => Completes (applyTransaction e w txn)
      | inl _ => Deadlock
      end
  | _ => Completes (applyTransaction e w txn)
  end.

(** [saveTransaction] holds [e.mu] from its first line to its return.  It
    also writes [txn.LSN] through the pointer it is given: the transaction
    is returned with the engine. *)
Definition saveTransaction (e : Engine) (w : World) (txn : Transaction)
    : locked_call (Engine * World * Transaction * option error) :=
  let e1 := set_lsn e (uint64_add (lsn e) 1) in
  let txn1 :=
    {| Action := Action txn; Name := Name txn; LSN := lsn e1;
       Feature := Feature txn |} in
  match json_Marshal txn1 with
  | inr err => Completes (Returned (e1, w, txn1, Some err))
  | inl data =>
      match File_Write w (logFile e1) [rec_txn data] with
      | (w1, Some err) => Completes (Returned (e1, w1, txn1, Some err))
      | (w1, None) =>
          match applyTransaction_holding_mu e1 w1 txn1 with
          | Deadlock => Deadlock
          | Completes applied =>
              Completes ('(e2, w2, _) ← applied;
                         Returned (e2, w2, txn1, None))
          end
      end
  end.

(** The loop of [check] over the features of the primary index. *)
Fixpoint encode_features (w : World) (file : File) (fs : list ptr_Feature)
    : World * option error :=
  match fs with
  | [] => (w, None)
  | feature :: rest =>
      let txn :=
        {| Action := "insert"; Name := EmptyString; LSN := 0%N;
           Feature := Some feature |} in
      match json_Marshal txn with
      | inr err => (w, Some err)
      | inl data =>
          match File_Write w file [rec_txn data] with
          | (w1, Some err) => (w1, Some err)
          | (w1, None) => encode_features w1 file rest
          end
      end
  end.

Definition check (e : Engine) (w : World) : World * option error :=
  let '(w1, file) := os_Create w (checkpointPath e) in
  match encode_features w1 file (drain (primary e)) with
  | (w2, Some err) => (w2, Some err)
  | (w2, None) => (File_Truncate w2 (logFile e), None)
  end.

(** One turn of the loop of [Run]: a transaction taken from [jobs] is
    applied and what [applyTransaction] returns is dropped (nothing is sent
    on [resp]); on [ctx.Done] the log file is closed. *)
Definition Run_step (e : Engine) (w : World) (ev : event)
    : outcome (Engine * World) :=
  match ev with
  | job tnx =>
      '(e1, w1, _) ← applyTransaction e w tnx;
      Returned (e1, w1)
  | ctx_Done => Returned (set_logFile e (File_Close (logFile e)), w)
  end.

Fixpoint Run (e : Engine) (w : World) (evs : list event)
    : outcome (Engine * World) :=
  match evs with
  | [] => Returned (e, w)
  | ev :: rest =>
      '(e1, w1) ← Run_step e w ev;
      Run e1 w1 rest
  end.

End WithCodec.

(** ** The storage facade: what each handler submits *)

Record Storage := {
  name : string;
  dbFile : string;
  eng : Engine
}.

(** [&geojson.Feature{...}]: a newly allocated feature. *)
Definition new_Feature (w : World) (f : geojson_Feature)
    : World * ptr_Feature :=
  ({| files := files w; next_addr := Pos.succ (next_addr w) |},
   {| addr := next_addr w; pointee := f |}).

Definition with_ID (f : geojson_Feature) (id : any) : geojson_Feature :=
  {| ID := id; Type_ := Type_ f; BBox := BBox f; Geometry := Geometry f;
     Properties := Properties f |}.

(** The body is given as [geojson.UnmarshalFeature] decodes it, [None] for
    an error. *)
Definition insertHandler (s : Storage) (w : World)
    (body : option geojson_Feature) : World * handled :=
  match body with
  | None => (w, http_Error "invalid geojson" StatusBadRequest)
  | Some f =>
      let '(w1, feature) := new_Feature w f in
      (w1, submitted {| Action := "insert"; Name := name s;
                        LSN := lsn (eng s); Feature := Some feature |})
  end.

Definition replaceHandler (s : Storage) (w : World)
    (body : option geojson_Feature) : World * handled :=
  match body with
  | None => (w, http_Error "invalid geojson" StatusBadRequest)
  | Some f =>
      let '(w1, feature) := new_Feature w f in
      (w1, submitted {| Action := "replace"; Name := name s;
                        LSN := lsn (eng s); Feature := Some feature |})
  end.

(** The body is given as the decoder fills [data.ID], [None] for an
    error. *)
Definition deleteHandler (s : Storage) (w : World) (body : option string)
    : World * handled :=
  match body with
  | None => (w, http_Error "invalid request" StatusBadRequest)
  | Some data_ID =>
      let '(w1, feature) :=
        new_Feature w (with_ID zero_Feature (any_string data_ID)) in
      (w1, submitted {| Action := "replace"; Name := name s;
                        LSN := lsn (eng s); Feature := Some feature |})
  end.

Definition selectHandler (s : Storage) (rect : string) : handled :=
  if (String.length rect <? 4)%nat then
    http_Error "need 4 values for rect" StatusBadRequest
  else
    submitted {| Action := "select"; Name := name s; LSN := lsn (eng s);
                 Feature := None |}.

Definition checkpointHandler (s : Storage) : handled :=
  submitted {| Action := "replace"; Name := name s; LSN := lsn (eng s);
               Feature := None |}.

(** ** Derived notions used by the statements *)

Definition string_ID (p : ptr_Feature) : option string :=
  match ID (pointee p) with
  | any_string s => Some s
  | _ => None
  end.

(** The identifiers of the primary index and those a full scan of the
    spatial index enumerates. *)
Definition primary_ids (e : Engine) : gset string := dom (primary e).

Definition spatial_ids (e : Engine) : gset string :=
  list_to_set (omap string_ID (rtree_Scan (spatial e))).

(** How many items a scan enumerates under one identifier. *)
Definition spatial_count (e : Engine) (id : string) : nat :=
  length (filter (fun p => string_ID p = Some id) (rtree_Scan (spatial e))).

(** The sequence number of the record fits the [uint64] field it is decoded
    into. *)
Definition fits_uint64 (t : json_Transaction) : Prop :=
  (json_lsn t < 2 ^ 64)%N.

(** A transaction [applyTransaction] does not panic on. *)
Definition applicable (txn : Transaction) : Prop :=
  match switch_Action (Action txn) with
  | case_upsert | case_delete =>
      exists f id, Feature txn = Some f /\ ID (pointee f) = any_string id
  | case_select | case_checkpoint => True
  | case_default => False
  end.

Section Sequences.

Variable MarshalJSON : list geojson_Feature -> bytes + error.
Variable json_reread : geojson_Feature -> geojson_Feature.

(** Transactions applied one after the other, what each returns dropped. *)
Fixpoint apply_seq (e : Engine) (w : World) (txns : list Transaction)
    : outcome (Engine * World) :=
  match txns with
  | [] => Returned (e, w)
  | txn :: rest =>
      '(e1, w1, _) ← applyTransaction MarshalJSON e w txn;
      apply_seq e1 w1 rest
  end.

(** The transactions a run of transaction records decodes to, without
    applying them: each decoded feature takes the next address. *)
Fixpoint decode_all (w : World) (ts : list json_Transaction)
    : World * list Transaction :=
  match ts with
  | [] => (w, [])
  | t :: rest =>
      match Decode json_reread w (rec_txn t) with
      | Some (w1, txn) =>
          let '(w2, txns) := decode_all w1 rest in (w2, txn :: txns)
      | None => (w, [])
      end
  end.

(** A transaction record whose transaction [applyTransaction] does not
    panic on once decoded. *)
Definition record_applicable (t : json_Transaction) : Prop :=
  match switch_Action (json_action t) with
  | case_upsert | case_delete =>
      exists f id,
        json_feature t = Some f /\ ID (json_reread f) = any_string id
  | case_select | case_checkpoint => True
  | case_default => False
  end.

End Sequences.

(** ** The storage facade: the database file

    [loadFromFile] and [saveToFile] read and write the primary index of the
    engine directly; [loadOnce] is the package's [sync.Once], given as the
    flag that tells whether it has run. *)

Definition set_eng (s : Storage) (e : Engine) : Storage :=
  {| name := name s; dbFile := dbFile s; eng := e |}.

(** [err.Error()] *)
Definition Error_string (err : error) : string :=
  match err with
  | errorString msg => msg
  | PathError op path cause => op +:+ " " +:+ path +:+ ": " +:+ cause
  end.

(** The features of a decoded collection are newly allocated objects; a
    JSON null among them is a nil pointer. *)
Fixpoint new_Features (w : World) (fs : list (option geojson_Feature))
    : World * list (option ptr_Feature) :=
  match fs with
  | [] => (w, [])
  | None :: rest =>
      let '(w1, ps) := new_Features w rest in (w1, None :: ps)
  | Some f :: rest =>
      let '(w1, p) := new_Feature w f in
      let '(w2, ps) := new_Features w1 rest in (w2, Some p :: ps)
  end.

(** The loop of [loadFromFile] over [col.Features]. *)
Fixpoint fill_primary (m : gmap string ptr_Feature)
    (features : list (option ptr_Feature))
    : outcome (gmap string ptr_Feature) :=
  match features with
  | [] => Returned m
  | feature :: rest =>
      f ← deref feature;
      id ← assert_string (ID (pointee f));
      fill_primary (<[id := f]> m) rest
  end.

Section WithDatabaseFile.

Variable MarshalJSON : list geojson_Feature -> bytes + error.
Variable json_reread : geojson_Feature -> geojson_Feature.

(** [geojson.UnmarshalFeatureCollection] on the contents of a file: the
    features of the collection, or an error (and then a nil collection). *)
Variable UnmarshalFeatureCollection
  : list record -> list (option geojson_Feature) + error.

Definition loadFromFile (loadOnce : bool) (s : Storage) (w : World)
    : outcome (bool * Storage * World) :=
  if loadOnce then Returned (true, s, w)
  else
    match files w !! dbFile s with
    | None => Returned (true, s, w)
    | Some data =>
        match UnmarshalFeatureCollection data with
        | inr _ => Panicked nil_dereference
        | inl col_Features =>
            let '(w1, features) := new_Features w col_Features in
            m ← fill_primary ∅ features;
            Returned (true, set_eng s (set_primary (eng s) m), w1)
        end
    end.

Definition saveToFile (s : Storage) (w : World) : World :=
  let '(w1, file) := os_Create w (dbFile s) in
  let col := drain (primary (eng s)) in
  let buf :=
    match MarshalJSON (pointee <$> col) with
    | inl data => [rec_collection data]
    | inr _ => []
    end in
  (File_Write w1 file buf).1.

Definition NewStorage (w : World) (name dbFile : string)
    : outcome (World * Storage) :=
  '(w1, r) ← NewEngine MarshalJSON json_reread w
               "engine.log" "engine.checkpoint";
  match r with
  | inl eng => Returned (w1, {| name := name; dbFile := dbFile; eng := eng |})
  | inr err => Panicked (panic_value (Error_string err))
  end.

(** [Storage.Run] loads the database file and starts the loop of the
    engine, followed here over the events the loop meets. *)
Definition Storage_Run (loadOnce : bool) (s : Storage) (w : World)
    (evs : list event) : outcome (bool * Storage * World) :=
  '(once, s1, w1) ← loadFromFile loadOnce s w;
  '(e2, w2) ← Run MarshalJSON (eng s1) w1 evs;
  Returned (once, set_eng s1 e2, w2).

Definition Storage_Stop (s : Storage) (w : World) : World := saveToFile s w.

(** Calls of [saveTransaction] one after the other, what each returns
    dropped; a call that does not return, or panics, is the last. *)
Fixpoint save_seq (e : Engine) (w : World) (txns : list Transaction)
    : locked_call (Engine * World) :=
  match txns with
  | [] => Completes (Returned (e, w))
  | txn :: rest =>
      match saveTransaction MarshalJSON e w txn with
      | Deadlock => Deadlock
      | Completes (Panicked p) => Completes (Panicked p)
      | Completes (Returned (e1, w1, _, _)) => save_seq e1 w1 rest
      end
  end.

End WithDatabaseFile.

(** ** More derived notions *)

(** The transactions among the events of the run loop. *)
Definition jobs_of (evs : list event) : list Transaction :=
  omap (fun ev => match ev with job txn => Some txn | ctx_Done => None end)
       evs.

Definition is_Done (ev : event) : bool :=
  match ev with
  | ctx_Done => true
  | job _ => false
  end.

Definition with_LSN (txn : Transaction) (n : N) : Transaction :=
  {| Action := Action txn; Name := Name txn; LSN := n;
     Feature := Feature txn |}.

(** The records that calls of [saveTransaction] on [txns], the sequence
    number being [n] before the first, append to the log. *)
Fixpoint saved_records (n : N) (txns : list Transaction)
    : list json_Transaction :=
  match txns with
  | [] => []
  | txn :: rest =>
      json_record (with_LSN txn (uint64_add n 1))
      :: saved_records (uint64_add n 1) rest
  end.

(** [json.Marshal] succeeds on the transaction. *)
Definition marshalable (txn : Transaction) : Prop :=
  match Feature txn with
  | Some f => Feature_finite (pointee f) = true
  | None => True
  end.

(** What a transaction that is applied without panic does to the primary
    index. *)
Definition primary_step (m : gmap string ptr_Feature) (txn : Transaction)
    : gmap string ptr_Feature :=
  match switch_Action (Action txn), Feature txn with
  | case_upsert, Some f =>
      match ID (pointee f) with
      | any_string id => <[id := f]> m
      | _ => m
      end
  | case_delete, Some f =>
      match ID (pointee f) with
      | any_string id => delete id m
      | _ => m
      end
  | _, _ => m
  end.

(** Every entry of the primary index is stored under the identifier of its
    own feature. *)
Definition primary_keyed (m : gmap string ptr_Feature) : Prop :=
  forall id p, m !! id = Some p -> ID (pointee p) = any_string id.

(** Pointers with the same address are the same pointer. *)
Definition ptr_consistent (ps : list ptr_Feature) : Prop :=
  forall p q, p ∈ ps -> q ∈ ps -> addr p = addr q -> p = q.

(** The transaction is one a handler of the storage can submit. *)
Definition from_handler (s : Storage) (txn : Transaction) : Prop :=
  (exists w body w1, insertHandler s w body = (w1, submitted txn))
  \/ (exists w body w1, replaceHandler s w body = (w1, submitted txn))
  \/ (exists w body w1, deleteHandler s w body = (w1, submitted txn))
  \/ (exists rect, selectHandler s rect = submitted txn)
  \/ checkpointHandler s = submitted txn.

(** Every feature of the primary index is stored under its own identifier
    and is among the items of the spatial index, and the items of the
    spatial index are pointers of [P]. *)
Definition spatial_holds_primary (P : list ptr_Feature) (e : Engine) : Prop :=
  (forall id p,
     primary e !! id = Some p ->
     ID (pointee p) = any_string id /\ p ∈ rtree_Scan (spatial e))
  /\ (forall q, q ∈ rtree_Scan (spatial e) -> q ∈ P).

(** The record holds the action and the feature of the transaction. *)
Definition record_matches (txn : Transaction) (t : json_Transaction) : Prop :=
  json_action t = Action txn /\ json_feature t = pointee <$> Feature txn.

(** The transaction [check] writes for a feature of the primary index. *)
Definition checkpoint_txn (feature : ptr_Feature) : Transaction :=
  {| Action := "insert"; Name := EmptyString; LSN := 0;
     Feature := Some feature |}.

Section WithReread.

Variable json_reread : geojson_Feature -> geojson_Feature.

(** The features of [m2] are those of [m1] as read back from their JSON,
    under the same keys. *)
Definition reread_image (m1 m2 : gmap string ptr_Feature) : Prop :=
  pointee <$> m2 = (json_reread ∘ pointee) <$> m1.

(** The identifier of the feature of the transaction, if it has one, is
    read back as it was written. *)
Definition keeps_ID (txn : Transaction) : Prop :=
  forall f, Feature txn = Some f ->
            ID (json_reread (pointee f)) = ID (pointee f).

End WithReread.

(** A feature of a decoded collection that [loadFromFile] can store: not
    nil, with a string identifier. *)
Definition loadable (f : option geojson_Feature) : Prop :=
  exists g id, f = Some g /\ ID g = any_string id.


(** The insert record [check] writes for a feature. *)
Definition checkpoint_record (f : geojson_Feature) : json_Transaction :=
  {| json_action := "insert"; json_name := EmptyString; json_lsn := 0;
     json_feature := Some f |}.

(** ** The storage with a cache and a collection

    The storage of the iteration before the engine: a map from identifier
    to feature ([geoCache]) beside the feature collection that is served
    ([geoDB]).  A handler is given the decoded body and returns the storage
    and what it has written to the response; a handler that returns without
    writing answers 200 with an empty body. *)

Module Practice1.

Record Storage := {
  name : string;
  geoCache : gmap string ptr_Feature;
  geoDB : list ptr_Feature;
  dbFile : string
}.

Record Response := {
  Code : nat;
  Body : bytes
}.

Definition StatusOK : nat := 200.
Definition StatusNotFound : nat := 404.
Definition StatusInternalServerError : nat := 500.

(** [http.Error(w, msg, code)] *)
Definition http_Error (msg : string) (code : nat) : Response :=
  {| Code := code;
     Body := list_byte_of_string (msg +:+ String (Ascii.ascii_of_nat 10) EmptyString) |}.

Definition empty_OK : Response := {| Code := StatusOK; Body := [] |}.

Definition with_index (s : Storage) (cache : gmap string ptr_Feature)
    (db : list ptr_Feature) : Storage :=
  {| name := name s; geoCache := cache; geoDB := db; dbFile := dbFile s |}.

Definition NewStorage (name dbFile : string) : Storage :=
  {| name := name; geoCache := ∅; geoDB := []; dbFile := dbFile |}.

(** [hasID]: the identifier, or the response written for an identifier of
    the wrong type. *)
Definition hasID (feature : ptr_Feature) : string + Response :=
  match ID (pointee feature) with
  | any_string id => inl id
  | _ =>
      inr {| Code := StatusInternalServerError;
             Body := list_byte_of_string "ID is wrong type, string expected" |}
  end.

(** [f.ID == id], an interface compared with a string. *)
Definition ID_is (id : string) (f : ptr_Feature) : bool :=
  match ID (pointee f) with
  | any_string s => String.eqb s id
  | _ => false
  end.

(** [slices.IndexFunc]; [None] is -1. *)
Fixpoint IndexFunc (l : list ptr_Feature) (f : ptr_Feature -> bool)
    : option nat :=
  match l with
  | [] => None
  | x :: rest => if f x then Some 0 else S <$> IndexFunc rest f
  end.

(** [Features[i] = Features[len(Features)-1]] followed by
    [Features = Features[:len(Features)-1]], for an index in range. *)
Definition swap_remove (Features : list ptr_Feature) (i : nat)
    : list ptr_Feature :=
  match last Features with
  | Some x => take (length Features - 1) (<[i := x]> Features)
  | None => Features
  end.

Definition index_out_of_range : panic :=
  panic_value "runtime error: index out of range [-1]".

Definition insertHandler (s : Storage) (w : World)
    (body : option geojson_Feature) : Storage * World * Response :=
  match body with
  | None => (s, w, http_Error "invalid geojson" StatusBadRequest)
  | Some f =>
      let '(w1, feature) := new_Feature w f in
      match hasID feature with
      | inr resp => (s, w1, resp)
      | inl id =>
          match geoCache s !! id with
          | Some _ => (s, w1, empty_OK)
          | None =>
              (with_index s (<[id := feature]> (geoCache s))
                 (geoDB s ++ [feature]),
               w1, empty_OK)
          end
      end
  end.

Definition replaceHandler (s : Storage) (w : World)
    (body : option geojson_Feature)
    : outcome (Storage * World * Response) :=
  match body with
  | None => Returned (s, w, http_Error "invalid geojson" StatusBadRequest)
  | Some f =>
      let '(w1, feature) := new_Feature w f in
      match hasID feature with
      | inr resp => Returned (s, w1, resp)
      | inl id =>
          match geoCache s !! id with
          | None =>
              Returned (s, w1, http_Error "feature not found" StatusNotFound)
          | Some _ =>
              match IndexFunc (geoDB s) (ID_is id) with
              | None => Panicked index_out_of_range
              | Some i =>
                  Returned
                    (with_index s (<[id := feature]> (geoCache s))
                       (swap_remove (geoDB s) i ++ [feature]),
                     w1, empty_OK)
              end
          end
      end
  end.

Definition deleteHandler (s : Storage) (body : option string)
    : outcome (Storage * Response) :=
  match body with
  | None => Returned (s, http_Error "invalid request" StatusBadRequest)
  | Some data_ID =>
      match IndexFunc (geoDB s) (ID_is data_ID) with
      | None => Panicked index_out_of_range
      | Some i =>
          Returned
            (with_index s (delete data_ID (geoCache s))
               (swap_remove (geoDB s) i),
             empty_OK)
      end
  end.

Section WithCollectionCodec.

Variable MarshalJSON : list geojson_Feature -> bytes + error.

Definition selectHandler (s : Storage) : Response :=
  match MarshalJSON (pointee <$> geoDB s) with
  | inl data => {| Code := StatusOK; Body := data |}
  | inr _ => empty_OK
  end.

End WithCollectionCodec.

Section WithCollectionFile.

Variable MarshalJSON : list geojson_Feature -> bytes + error.
Variable UnmarshalFeatureCollection
  : list record -> list (option geojson_Feature) + error.

(** [loadFromFile]: the decoded collection becomes [geoDB] and the cache is
    filled from it.  The loop over the features returns only when none of
    them is nil, so the collection of a storage that is returned is the list
    of the pointers themselves. *)
Definition loadFromFile (s : Storage) (w : World)
    : outcome (Storage * World) :=
  match files w !! dbFile s with
  | None => Returned (s, w)
  | Some data =>
      match UnmarshalFeatureCollection data with
      | inr _ => Panicked nil_dereference
      | inl col_Features =>
          let '(w1, features) := new_Features w col_Features in
          cache ← fill_primary ∅ features;
          Returned (with_index s cache (omap id features), w1)
      end
  end.

Definition saveToFile (s : Storage) (w : World) : World :=
  let '(w1, file) := os_Create w (dbFile s) in
  let buf :=
    match MarshalJSON (pointee <$> geoDB s) with
    | inl data => [rec_collection data]
    | inr _ => []
    end in
  (File_Write w1 file buf).1.

End WithCollectionFile.

(** The identifiers of the features of a decoded collection, in the order
    of the file. *)
Definition file_ids (col : list (option geojson_Feature)) : list string :=
  omap (fun f => match ID <$> f with
                 | Some (any_string id) => Some id
                 | _ => None
                 end) col.

(** The cache and the collection hold the same features: each feature of
    the collection is cached under its identifier, each cached feature is
    in the collection, and no feature is in the collection twice. *)
Definition in_step (s : Storage) : Prop :=
  (forall p, p ∈ geoDB s ->
             exists id, ID (pointee p) = any_string id
                        /\ geoCache s !! id = Some p)
  /\ (forall id p, geoCache s !! id = Some p ->
                   p ∈ geoDB s /\ ID (pointee p) = any_string id)
  /\ NoDup (geoDB s).

(** The identifiers of the features of the collection. *)
Definition served_ids (s : Storage) : gset string :=
  list_to_set (omap string_ID (geoDB s)).

(** The requests of the routes that [NewStorage] registers and that change
    the storage, each with its decoded body. *)
Inductive request :=
  | insert_request (body : option geojson_Feature)
  | replace_request (body : option geojson_Feature)
  | delete_request (body : option string).

Definition serve (s : Storage) (w : World) (r : request)
    : outcome (Storage * World * Response) :=
  match r with
  | insert_request body => Returned (insertHandler s w body)
  | replace_request body => replaceHandler s w body
  | delete_request body =>
      match deleteHandler s body with
      | Returned (s', resp) => Returned (s', w, resp)
      | Panicked p => Panicked p
      end
  end.

(** The requests served one after another, up to the first handler that
    panics. *)
Fixpoint serve_seq (s : Storage) (w : World) (rs : list request)
    : outcome (Storage * World) :=
  match rs with
  | [] => Returned (s, w)
  | r :: rest =>
      match serve s w r with
      | Returned (s', w', _) => serve_seq s' w' rest
      | Panicked p => Panicked p
      end
  end.

End Practice1.

(** ** The router

    [http.ServeMux] as the handlers by pattern, for patterns without
    wildcards: registering a pattern that is registered already panics, and
    the panic is given here by the pattern. *)

Module Router.

Inductive Handler :=
  | FileServer (dir : string)
  | RedirectHandler (url : string) (code : nat).

Abbreviation ServeMux := (gmap string Handler).

Definition StatusTemporaryRedirect : nat := 307.

(** [mux.Handle(pattern, handler)] *)
Definition Handle (mux : ServeMux) (pattern : string) (handler : Handler)
    : ServeMux + string :=
  match mux !! pattern with
  | Some _ => inr pattern
  | None => inl (<[pattern := handler]> mux)
  end.

Definition and_then {A : Type} (r : ServeMux + string)
    (k : ServeMux -> A + string) : A + string :=
  match r with
  | inl mux => k mux
  | inr pattern => inr pattern
  end.

(** [mux.Handle(route, http.RedirectHandler("/"+node+route, 307))] *)
Definition redirect (mux : ServeMux) (node route : string)
    : ServeMux + string :=
  Handle mux route
    (RedirectHandler ("/" +:+ node +:+ route) StatusTemporaryRedirect).

(** The body of the inner loop of [NewRouter]. *)
Definition handle_node (mux : ServeMux) (node : string) : ServeMux + string :=
  and_then (redirect mux node "/insert") (fun mux =>
  and_then (redirect mux node "/replace") (fun mux =>
  and_then (redirect mux node "/delete") (fun mux =>
  and_then (redirect mux node "/select") (fun mux =>
  redirect mux node "/checkpoint")))).

Fixpoint handle_row (mux : ServeMux) (row : list string)
    : ServeMux + string :=
  match row with
  | [] => inl mux
  | node :: rest =>
      and_then (handle_node mux node) (fun mux => handle_row mux rest)
  end.

Fixpoint handle_rows (mux : ServeMux) (nodes : list (list string))
    : ServeMux + string :=
  match nodes with
  | [] => inl mux
  | row :: rest =>
      and_then (handle_row mux row) (fun mux => handle_rows mux rest)
  end.

Record Router := {
  mux : ServeMux;
  nodes : list (list string)
}.

Definition NewRouter (mux : ServeMux) (nodes : list (list string))
    : Router + string :=
  and_then (Handle mux "/" (FileServer "../front/dist")) (fun mux =>
  and_then (handle_rows mux nodes) (fun mux =>
  inl {| mux := mux; nodes := nodes |})).

(** The patterns of the redirects. *)
Definition routes : list string :=
  ["/insert"; "/replace"; "/delete"; "/select"; "/checkpoint"].

End Router.

(** ** The filler

    [rand.Intn(2)] is given by its results, one for each call in order. *)

Module Filler.

Definition filler (Intn2 : nat -> nat) (b : bytes) (ifzero ifnot : Byte.byte)
    : bytes :=
  imap (fun i _ => if Nat.eqb (Intn2 i) 0 then ifzero else ifnot) b.

End Filler.

(** ** Sample data *)

Definition sample_MarshalJSON (fs : list geojson_Feature) : bytes + error :=
  inl (concat (map (fun f =>
                      match ID f with
                      | any_string s => list_byte_of_string s
                      | _ => []
                      end) fs)).

Definition sample_reread (f : geojson_Feature) : geojson_Feature := f.

Definition point_feature (id : string) (x y : float) : geojson_Feature :=
  {| ID := any_string id; Type_ := "Feature"; BBox := [];
     Geometry := orb_Point x y; Properties := [] |}.

Definition feature_p1 : ptr_Feature :=
  {| addr := 101; pointee := point_feature "p1" 1 2 |}.

Definition feature_p2 : ptr_Feature :=
  {| addr := 102; pointee := point_feature "p2" 3 4 |}.

Definition feature_p2' : ptr_Feature :=
  {| addr := 103; pointee := point_feature "p2" 5 6 |}.

Definition txn_of (action : string) (f : option ptr_Feature) : Transaction :=
  {| Action := action; Name := "storage"; LSN := 0; Feature := f |}.

Definition empty_engine : Engine :=
  {| primary := ∅; spatial := []; lsn := 0;
     logFile := log_handle "engine.log";
     checkpointPath := "engine.checkpoint" |}.

Definition sample_world : World :=
  {| files := {[ "engine.log" := [] ]}; next_addr := 1 |}.

Definition record_of (action : string) (f : option geojson_Feature)
    : json_Transaction :=
  {| json_action := action; json_name := "storage"; json_lsn := 0;
     json_feature := f |}.

(** Two records, then a truncated one, then one more record. *)
Definition damaged_log : list record :=
  [rec_txn (record_of "insert" (Some (point_feature "p1" 1 2)));
   rec_txn (record_of "insert" (Some (point_feature "p2" 3 4)));
   rec_malformed (list_byte_of_string "{action:ins");
   rec_txn (record_of "delete" (Some (point_feature "p1" 1 2)))].

Definition damaged_world : World :=
  {| files := {[ "engine.log" := damaged_log ]}; next_addr := 1 |}.

(** A feature that JSON cannot write. *)
Definition feature_bad : ptr_Feature :=
  {| addr := 104; pointee := point_feature "bad" nan 0 |}.

Definition item_of (p : ptr_Feature) : rtree_item :=
  {| item_min := Min (BBox_Bound (BBox (pointee p)));
     item_max := Max (BBox_Bound (BBox (pointee p)));
     item_data := p |}.

Definition engine_with (p : ptr_Feature) (id : string) : Engine :=
  {| primary := {[ id := p ]}; spatial := [item_of p]; lsn := 0;
     logFile := log_handle "engine.log";
     checkpointPath := "engine.checkpoint" |}.

Definition sample_txns : list Transaction :=
  [txn_of "insert" (Some feature_p1);
   txn_of "replace" (Some feature_p2);
   txn_of "delete" (Some feature_p1)].

Definition sample_upserts : list Transaction :=
  [txn_of "insert" (Some feature_p2);
   txn_of "replace" (Some feature_p2')].

(** Reads back the one collection that [sample_MarshalJSON] writes for
    p1. *)
Definition sample_Unmarshal (data : list record)
    : list (option geojson_Feature) + error :=
  match data with
  | [rec_collection d] =>
      if String.eqb (string_of_list_byte d) "p1"
      then inl [Some (point_feature "p1" 1 2)]
      else inr (errorString "unexpected end of JSON input")
  | _ => inr (errorString "unexpected end of JSON input")
  end.



(** Logs of one record that decodes and that [applyTransaction] panics on,
    then a truncated record. *)
Definition nil_feature_world : World :=
  {| files := {[ "engine.log" :=
                   [rec_txn (record_of "insert" None);
                    rec_malformed (list_byte_of_string "{action:ins")] ]};
     next_addr := 1 |}.

Definition unknown_action_world : World :=
  {| files := {[ "engine.log" :=
                   [rec_txn (record_of "truncate" None);
                    rec_malformed (list_byte_of_string "{action:ins")] ]};
     next_addr := 1 |}.

Definition numeric_id_world : World :=
  {| files := {[ "engine.log" :=
                   [rec_txn (record_of "insert"
                               (Some (with_ID (point_feature "p1" 1 2)
                                        (any_float64 7))));
                    rec_malformed (list_byte_of_string "{action:ins")] ]};
     next_addr := 1 |}.

(** A log whose second record carries the sequence number 2^64. *)
Definition oversized_record : json_Transaction :=
  {| json_action := "delete"; json_name := "storage";
     json_lsn := 18446744073709551616;
     json_feature := Some (point_feature "p1" 1 2) |}.

Definition oversized_world : World :=
  {| files := {[ "engine.log" :=
                   [rec_txn (record_of "insert" (Some (point_feature "p1" 1 2)));
                    rec_txn oversized_record;
                    rec_txn (record_of "insert"
                               (Some (point_feature "p2" 3 4)))] ]};
     next_addr := 1 |}.

(** No file at all: the state before the first start. *)
Definition fresh_world : World := {| files := ∅; next_addr := 1 |}.

(** A log and the database file [sample_MarshalJSON] writes for p1. *)
Definition db_world : World :=
  {| files := {[ "engine.log" := [];
                "geo.db.json" := [rec_collection (list_byte_of_string "p1")] ]};
     next_addr := 1 |}.

Definition sample_storage (e : Engine) : Storage :=
  {| name := "storage"; dbFile := "geo.db.json"; eng := e |}.

(** A storage of the earlier iteration that holds two features. *)
Definition cached_requests : list Practice1.request :=
  [Practice1.insert_request (Some (point_feature "p1" 1 2));
   Practice1.insert_request (Some (point_feature "p2" 3 4))].

Definition cached_storage : Practice1.Storage :=
  match Practice1.serve_seq (Practice1.NewStorage "storage" "geo.db.json")
          fresh_world cached_requests with
  | Returned (s, _) => s
  | Panicked _ => Practice1.NewStorage "storage" "geo.db.json"
  end.

(** A storage of the earlier iteration that holds p1 alone. *)
Definition cached_p1_storage : Practice1.Storage :=
  (Practice1.insertHandler (Practice1.NewStorage "storage" "geo.db.json")
     fresh_world (Some (point_feature "p1" 1 2))).1.1.

(** * Properties *)

Section Properties.

Variable MarshalJSON : list geojson_Feature -> bytes + error.
Variable json_reread : geojson_Feature -> geojson_Feature.

Local Abbreviation applyTransaction := (applyTransaction MarshalJSON).
Local Abbreviation Run_step := (Run_step MarshalJSON).
Local Abbreviation Run := (Run MarshalJSON).
Local Abbreviation apply_seq := (apply_seq MarshalJSON).
Local Abbreviation Decode := (Decode json_reread).
Local Abbreviation decode_loop := (decode_loop MarshalJSON json_reread).
Local Abbreviation decode_all := (decode_all json_reread).
Local Abbreviation NewEngine := (NewEngine MarshalJSON json_reread).
Local Abbreviation saveTransaction := (saveTransaction MarshalJSON).

(** What [applyTransaction] never touches: the files, the allocator, the
    sequence number, the log handle, the checkpoint path. *)
Definition frame (e : Engine) (w : World) (e' : Engine) (w' : World) : Prop :=
  w' = w /\ lsn e' = lsn e /\ logFile e' = logFile e
  /\ checkpointPath e' = checkpointPath e.

(** Checkpointing engine [e1], then starting a new engine on the same log
    and checkpoint files, gives an engine that holds exactly [A] as read
    back from the checkpoint, under [id] in both indices, and whose select
    returns as payload the bytes the marshaler gives for the one-feature
    collection of [A] (its error, if it gives one). *)
Definition restart_selects_only (e1 : Engine) (w1 : World) (lp cp : string)
    (A : ptr_Feature) (id : string) : Prop :=
  exists w2 w3 e3,
    check e1 w1 = (w2, None)
    /\ NewEngine w2 lp cp = Returned (w3, inl e3)
    /\ pointee <$> rtree_Scan (spatial e3) = [json_reread (pointee A)]
    /\ primary_ids e3 = {[id]}
    /\ spatial_ids e3 = {[id]}
    /\ forall nm n ft,
         applyTransaction e3 w3
           {| Action := "select"; Name := nm; LSN := n; Feature := ft |}
         = Returned (e3, w3,
                     match MarshalJSON [pointee A] with
                     | inl data => (Some data, None)
                     | inr err => (None, Some err)
                     end).

Lemma frame_refl e w : frame e w e w.
Proof. by repeat split. Qed.

Lemma frame_trans e w e1 w1 e2 w2 :
  frame e w e1 w1 -> frame e1 w1 e2 w2 -> frame e w e2 w2.
Proof.
  intros (-> & Hl & Hf & Hc) (-> & Hl' & Hf' & Hc').
  repeat split; congruence.
Qed.

Lemma applyTransaction_frame e w txn :
  match applyTransaction e w txn with
  | Returned (e', w', _) => frame e w e' w'
  | Panicked _ => True
  end.
Proof.
  unfold applyTransaction.
  destruct (switch_Action (Action txn)); simpl.
  - destruct (Feature txn) as [f|]; simpl; [|done].
    destruct (ID (pointee f)); simpl; by repeat split.
  - destruct (Feature txn) as [f|]; simpl; [|done].
    destruct (ID (pointee f)) as [|id| |]; simpl; try done.
    destruct (primary e !! id); by repeat split.
  - apply frame_refl.
  - unfold os_Open.
    destruct (files w !! _); [|apply frame_refl].
    destruct (MarshalJSON _); apply frame_refl.
  - done.
Qed.

Lemma applyTransaction_returned_frame e w txn e' w' r :
  applyTransaction e w txn = Returned (e', w', r) -> frame e w e' w'.
Proof.
  intros H. pose proof (applyTransaction_frame e w txn) as F.
  by rewrite H in F.
Qed.

Lemma applicable_returns e w txn :
  applicable txn ->
  exists e' r, applyTransaction e w txn = Returned (e', w, r).
Proof.
  unfold applicable. intros Ha.
  destruct (applyTransaction e w txn) as [[[e' w'] r]|p] eqn:E.
  - apply applyTransaction_returned_frame in E as F.
    destruct F as [-> _]. eauto.
  - exfalso. revert E. unfold applyTransaction.
    destruct (switch_Action (Action txn)); simpl.
    + destruct Ha as (f & id & -> & Hid). simpl. by rewrite Hid.
    + destruct Ha as (f & id & -> & Hid). simpl. rewrite Hid. simpl.
      by destruct (primary e !! id).
    + done.
    + destruct (os_Open w _); [|done].
      destruct (MarshalJSON _); [|done].
      by destruct (File_Write _ _ _) as [? []].
    + done.
Qed.

Lemma apply_seq_frame e w txns :
  match apply_seq e w txns with
  | Returned (e', w') => frame e w e' w'
  | Panicked _ => True
  end.
Proof.
  revert e w. induction txns as [|txn rest IH]; intros e w; simpl.
  - apply frame_refl.
  - pose proof (applyTransaction_frame e w txn) as F.
    destruct (applyTransaction e w txn) as [[[e1 w1] r]|p]; simpl; [|done].
    specialize (IH e1 w1).
    destruct (apply_seq e1 w1 rest) as [[e2 w2]|]; [|done].
    eapply frame_trans; eauto.
Qed.

Lemma apply_seq_returns e w txns :
  Forall applicable txns -> exists e', apply_seq e w txns = Returned (e', w).
Proof.
  intros H. revert e. induction H as [|txn rest Ha _ IH]; intros e; simpl.
  - eauto.
  - destruct (applicable_returns e w txn Ha) as (e1 & r & ->). simpl. apply IH.
Qed.

(** The loop of [Run] over submitted transactions is [apply_seq]. *)
Lemma Run_jobs e w txns : Run e w (job <$> txns) = apply_seq e w txns.
Proof.
  revert e w. induction txns as [|txn rest IH]; intros e w; simpl; [done|].
  destruct (applyTransaction e w txn) as [[[e1 w1] r]|p]; simpl; [|done].
  apply IH.
Qed.

(** What the insert/replace case does, whichever of the two actions it is
    and whether or not the identifier is already in the primary index. *)
Lemma applyTransaction_upsert e w txn f id :
  Action txn = "insert" \/ Action txn = "replace" ->
  Feature txn = Some f ->
  ID (pointee f) = any_string id ->
  let b := BBox_Bound (BBox (pointee f)) in
  applyTransaction e w txn
  = Returned
      ({| primary := <[id := f]> (primary e);
          spatial := spatial e ++ [{| item_min := Min b; item_max := Max b;
                                      item_data := f |}];
          lsn := lsn e; logFile := logFile e;
          checkpointPath := checkpointPath e |},
       w, no_payload).
Proof.
  intros Ha Hf Hid b. unfold applyTransaction.
  assert (switch_Action (Action txn) = case_upsert) as ->
    by (destruct Ha as [-> | ->]; reflexivity).
  rewrite Hf. simpl. rewrite Hid. reflexivity.
Qed.

(** What the delete case does with an identifier the primary index holds. *)
Lemma applyTransaction_delete_present e w txn f id feature :
  Action txn = "delete" ->
  Feature txn = Some f ->
  ID (pointee f) = any_string id ->
  primary e !! id = Some feature ->
  let b := BBox_Bound (BBox (pointee feature)) in
  applyTransaction e w txn
  = Returned
      ({| primary := delete id (primary e);
          spatial := rtree_Delete (spatial e) (Min b) (Max b) feature;
          lsn := lsn e; logFile := logFile e;
          checkpointPath := checkpointPath e |},
       w, no_payload).
Proof.
  intros Ha Hf Hid Hp b. unfold applyTransaction.
  rewrite Ha, Hf. simpl. rewrite Hid. simpl. by rewrite Hp.
Qed.

(** A first start, with neither file on disk, creates the log and gives the
    empty engine. *)
Lemma NewEngine_first_start w lp cp :
  lp <> cp ->
  files w !! lp = None ->
  files w !! cp = None ->
  NewEngine w lp cp
  = Returned
      (with_files w (<[lp := []]> (files w)),
       inl {| primary := ∅; spatial := []; lsn := 0;
              logFile := log_handle lp; checkpointPath := cp |}).
Proof.
  intros Hne Hl Hc. unfold NewEngine, os_OpenFile_append. rewrite Hl.
  unfold loadCheckpoint, os_Open. simpl.
  rewrite lookup_insert_ne, Hc by done. simpl.
  unfold replayLog, file_contents. simpl. by rewrite lookup_insert_eq.
Qed.

(** X29: [applyTransaction] on a delete whose identifier the primary index
    does not hold returns the not-found error and no payload, and the engine
    (primary index, spatial index, sequence number) and the files (the
    record log among them) are as before; the run loop, which applies the
    transaction, leaves them so too. *)
Theorem delete_absent_fails_unchanged
    (e : Engine) (w : World) (txn : Transaction) (f : ptr_Feature)
    (id : string) :
  Action txn = "delete" ->
  Feature txn = Some f ->
  ID (pointee f) = any_string id ->
  primary e !! id = None ->
  applyTransaction e w txn = Returned (e, w, (None, Some (not_found id)))
  /\ Run_step e w (job txn) = Returned (e, w).
Proof.
  intros Ha Hf Hid Habs.
  assert (applyTransaction e w txn
          = Returned (e, w, (None, Some (not_found id)))) as E.
  { unfold applyTransaction. rewrite Ha, Hf. simpl. rewrite Hid. simpl.
    by rewrite Habs. }
  split; [done|]. unfold Run_step. by rewrite E.
Qed.

(** C7: a select returns as payload the bytes the marshaler gives for the
    features of the items of the spatial index, taken in the order of the
    enumeration (and the marshaler's error, without payload, when it gives
    one); it changes neither the engine nor any file, so nothing is appended
    to the record log. *)
Theorem C7_select_payload_and_frame
    (e : Engine) (w : World) (nm : string) (n : N)
    (ft : option ptr_Feature) :
  let txn := {| Action := "select"; Name := nm; LSN := n; Feature := ft |} in
  applyTransaction e w txn
  = Returned (e, w,
              match MarshalJSON (pointee <$> map item_data (spatial e)) with
              | inl data => (Some data, None)
              | inr err => (None, Some err)
              end)
  /\ Run_step e w (job txn) = Returned (e, w).
Proof.
  intros txn.
  assert (applyTransaction e w txn
          = Returned (e, w,
                      match MarshalJSON
                              (pointee <$> map item_data (spatial e)) with
                      | inl data => (Some data, None)
                      | inr err => (None, Some err)
                      end)) as E.
  { unfold applyTransaction. cbn [switch_Action Action txn].
    unfold Collection_MarshalJSON, rtree_Scan. reflexivity. }
  split; [exact E|]. unfold Run_step. by rewrite E.
Qed.

(** C8: the checkpoint handler submits a transaction whose action is
    "replace" and whose feature is nil; the switch of [applyTransaction]
    takes the insert/replace case on it, not the checkpoint case, where it
    panics on the nil feature. *)
Theorem C8_checkpointHandler_submits_replace (s : Storage) :
  exists txn,
    checkpointHandler s = submitted txn
    /\ Action txn = "replace"
    /\ Feature txn = None
    /\ Action txn <> "checkpoint"
    /\ switch_Action (Action txn) = case_upsert
    /\ forall e w, applyTransaction e w txn = Panicked nil_dereference.
Proof. eexists. repeat split; done. Qed.

(** C9: an HTTP delete for [id] submits a "replace" transaction (not a
    "delete") whose feature has the identifier and nothing else; applying
    it stores that feature under [id] in the primary index and adds it to
    the spatial index, whose earlier items all stay: [id] is in both
    indices afterwards. *)
Theorem C9_deleteHandler_upserts_stub
    (s : Storage) (w : World) (id : string) (e : Engine) (w0 : World) :
  exists w1 txn p e',
    deleteHandler s w (Some id) = (w1, submitted txn)
    /\ Action txn = "replace" /\ Action txn <> "delete"
    /\ Feature txn = Some p
    /\ pointee p = {| ID := any_string id; Type_ := EmptyString; BBox := [];
                      Geometry := geometry_nil; Properties := [] |}
    /\ applyTransaction e w0 txn = Returned (e', w0, no_payload)
    /\ primary e' !! id = Some p
    /\ spatial e'
       = spatial e ++ [{| item_min := Min zero_Bound;
                          item_max := Max zero_Bound; item_data := p |}]
    /\ id ∈ primary_ids e' /\ id ∈ spatial_ids e'.
Proof.
  do 4 eexists. split; [reflexivity|]. simpl.
  repeat split; try done.
  - apply lookup_insert_eq.
  - unfold primary_ids. simpl. apply elem_of_dom.
    rewrite lookup_insert_eq. eauto.
  - unfold spatial_ids, rtree_Scan, rtree_Insert. simpl.
    rewrite map_app, omap_app. simpl. set_solver.
Qed.

(** C10: the run loop applies a submitted transaction with
    [applyTransaction] and nothing else; whatever is submitted, the files
    (the record log among them), the sequence number and the log handle are
    afterwards what they were, and the loop does get through every sequence
    of transactions [applyTransaction] does not panic on. *)
Theorem C10_Run_never_logs (e : Engine) (w : World) (txns : list Transaction) :
  (forall txn, Run_step e w (job txn)
               = ('(e1, w1, _) ← applyTransaction e w txn; Returned (e1, w1)))
  /\ match Run e w (job <$> txns) with
     | Returned (e', w') =>
         w' = w /\ lsn e' = lsn e /\ logFile e' = logFile e
     | Panicked _ => True
     end
  /\ (Forall applicable txns ->
      exists e', Run e w (job <$> txns) = Returned (e', w)
                 /\ lsn e' = lsn e).
Proof.
  split; [done|]. rewrite Run_jobs.
  pose proof (apply_seq_frame e w txns) as F. split.
  - destruct (apply_seq e w txns) as [[e' w']|]; [|done].
    destruct F as (? & ? & ? & ?). done.
  - intros Ha. destruct (apply_seq_returns e w txns Ha) as [e' E].
    rewrite E in F |- *. destruct F as (_ & ? & _). eauto.
Qed.

Local Abbreviation record_applicable := (record_applicable json_reread).

(** [applyTransaction] reads the world only through its files. *)
Lemma applyTransaction_files e w w2 txn :
  files w2 = files w ->
  applyTransaction e w2 txn
  = match applyTransaction e w txn with
    | Returned (e', _, r) => Returned (e', w2, r)
    | Panicked p => Panicked p
    end.
Proof.
  intros Hf. unfold applyTransaction.
  destruct (switch_Action (Action txn)); simpl; try done.
  - destruct (Feature txn) as [f|]; simpl; [|done].
    by destruct (ID (pointee f)).
  - destruct (Feature txn) as [f|]; simpl; [|done].
    destruct (ID (pointee f)) as [|id| |]; simpl; try done.
    by destruct (primary e !! id).
  - unfold os_Open. rewrite Hf.
    destruct (files w !! _); [|done].
    by destruct (MarshalJSON _).
Qed.

Lemma Decode_fits w t :
  fits_uint64 t ->
  Decode w (rec_txn t)
  = match json_feature t with
    | Some f =>
        Some ({| files := files w; next_addr := Pos.succ (next_addr w) |},
              {| Action := json_action t; Name := json_name t;
                 LSN := json_lsn t;
                 Feature := Some {| addr := next_addr w;
                                    pointee := json_reread f |} |})
    | None =>
        Some (w, {| Action := json_action t; Name := json_name t;
                    LSN := json_lsn t; Feature := None |})
    end.
Proof.
  unfold fits_uint64. intros Hfit. cbn [Decode].
  destruct (2 ^ 64 <=? json_lsn t)%N eqn:E; [|done].
  apply N.leb_le in E. lia.
Qed.

Lemma decode_all_files w ts : files (decode_all w ts).1 = files w.
Proof.
  revert w. induction ts as [|t rest IH]; intros w; simpl; [done|].
  destruct (2 ^ 64 <=? json_lsn t)%N; [done|].
  destruct (json_feature t) as [f|].
  - specialize (IH {| files := files w; next_addr := Pos.succ (next_addr w) |}).
    destruct (decode_all _ rest) as [w2 txns]. by simpl in *.
  - specialize (IH w). destruct (decode_all w rest) as [w2 txns]. by simpl in *.
Qed.

Lemma decode_all_length w ts :
  Forall fits_uint64 ts -> length (decode_all w ts).2 = length ts.
Proof.
  intros H. revert w. induction H as [|t rest Ht _ IH]; intros w; [done|].
  cbn [decode_all]. rewrite (Decode_fits w t Ht).
  destruct (json_feature t) as [f|].
  - specialize (IH {| files := files w; next_addr := Pos.succ (next_addr w) |}).
    destruct (decode_all _ rest) as [w2 txns]. simpl in *. by rewrite IH.
  - specialize (IH w). destruct (decode_all w rest) as [w2 txns].
    simpl in *. by rewrite IH.
Qed.

Lemma decode_all_applicable w ts :
  Forall record_applicable ts -> Forall applicable (decode_all w ts).2.
Proof.
  intros H. revert w. induction H as [|t rest Ht _ IH]; intros w; simpl.
  - constructor.
  - unfold record_applicable in Ht.
    destruct (2 ^ 64 <=? json_lsn t)%N; [constructor|].
    destruct (json_feature t) as [f|] eqn:Ef.
    + specialize
        (IH {| files := files w; next_addr := Pos.succ (next_addr w) |}).
      destruct (decode_all _ rest) as [w2 txns]. simpl in *.
      constructor; [|done]. unfold applicable. simpl.
      destruct (switch_Action (json_action t)); try done.
      * destruct Ht as (f' & id & [= <-] & Hid). eauto.
      * destruct Ht as (f' & id & [= <-] & Hid). eauto.
    + specialize (IH w). destruct (decode_all w rest) as [w2 txns].
      simpl in *. constructor; [|done]. unfold applicable. simpl.
      destruct (switch_Action (json_action t)); try done.
      * by destruct Ht as (f' & id & [=] & _).
      * by destruct Ht as (f' & id & [=] & _).
Qed.

(** The decode loop over [N] transaction records, whatever follows them
    being nothing or starting with a malformed record, applies the [N]
    decoded transactions in order. *)
Lemma decode_loop_apply_seq ts tail e w :
  Forall fits_uint64 ts ->
  match tail with [] => True | r :: _ => Decode w r = None end ->
  decode_loop e w ((rec_txn <$> ts) ++ tail)
  = apply_seq e (decode_all w ts).1 (decode_all w ts).2.
Proof.
  intros Hfit Htail. revert e w Htail.
  induction Hfit as [|t rest Ht _ IH]; intros e w Htail.
  - simpl. destruct tail as [|r tail]; [done|]. simpl. by rewrite Htail.
  - cbn [fmap list_fmap app decode_loop decode_all].
    destruct (Decode w (rec_txn t)) as [[w1 txn]|] eqn:Ed.
    2:{ rewrite (Decode_fits w t Ht) in Ed. by destruct (json_feature t). }
    assert (files w1 = files w /\
            match tail with [] => True | r :: _ => Decode w1 r = None end)
      as [Hw1 Htail1].
    { rewrite (Decode_fits w t Ht) in Ed.
      destruct (json_feature t); injection Ed as <- <-;
        (split; [done|]); destruct tail as [|[t'| |] ?]; simpl in *;
        try done; (destruct (2 ^ 64 <=? json_lsn t')%N; [done|]);
        by destruct (json_feature t'). }
    pose proof (decode_all_files w1 rest) as Hfiles.
    specialize (IH) with (w := w1).
    destruct (decode_all w1 rest) as [w2 txns] eqn:Eda. simpl in *.
    rewrite (applyTransaction_files e w1 w2 txn Hfiles).
    pose proof (applyTransaction_frame e w1 txn) as F.
    destruct (applyTransaction e w1 txn) as [[[e1 w1'] r]|p]; simpl; [|done].
    destruct F as (-> & _). by apply IH.
Qed.

Lemma applyTransaction_returned_applicable e w txn r :
  applyTransaction e w txn = Returned r -> applicable txn.
Proof.
  unfold applyTransaction, applicable.
  destruct (switch_Action (Action txn)); simpl; try done.
  - destruct (Feature txn) as [f|]; simpl; [|done].
    destruct (ID (pointee f)) as [|id| |] eqn:Ei; simpl; try done. eauto.
  - destruct (Feature txn) as [f|]; simpl; [|done].
    destruct (ID (pointee f)) as [|id| |] eqn:Ei; simpl; try done. eauto.
Qed.

Lemma apply_seq_returned_applicable txns : forall e w r,
  apply_seq e w txns = Returned r -> Forall applicable txns.
Proof.
  induction txns as [|txn rest IH]; intros e w r; simpl; [constructor|].
  destruct (applyTransaction e w txn) as [[[e1 w1] r1]|p] eqn:E; simpl;
    [|done].
  intros Hrest. constructor.
  - by eapply applyTransaction_returned_applicable.
  - by eapply IH.
Qed.

Lemma decode_all_applicable_inv ts : forall w,
  Forall fits_uint64 ts ->
  Forall applicable (decode_all w ts).2 -> Forall record_applicable ts.
Proof.
  induction ts as [|t rest IH]; intros w Hfit; [constructor|].
  apply Forall_cons in Hfit as [Ht Hfit].
  cbn [decode_all]. rewrite (Decode_fits w t Ht).
  destruct (json_feature t) as [f|] eqn:Ef.
  - specialize
      (IH {| files := files w; next_addr := Pos.succ (next_addr w) |} Hfit).
    destruct (decode_all _ rest) as [w2 txns]. simpl in *.
    intros [Ha Hrest]%Forall_cons. constructor; [|by apply IH].
    unfold applicable in Ha. unfold record_applicable. simpl in Ha.
    destruct (switch_Action (json_action t)); try done.
    + destruct Ha as (f' & id & [= <-] & Hid). rewrite Ef. eauto.
    + destruct Ha as (f' & id & [= <-] & Hid). rewrite Ef. eauto.
  - specialize (IH w Hfit). destruct (decode_all w rest) as [w2 txns].
    simpl in *. intros [Ha Hrest]%Forall_cons. constructor; [|by apply IH].
    unfold applicable in Ha. unfold record_applicable. simpl in Ha.
    destruct (switch_Action (json_action t)); try done.
    + by destruct Ha as (f' & id & [=] & _).
    + by destruct Ha as (f' & id & [=] & _).
Qed.

(** C6, as amended: on a record log that holds [N] transaction records that
    decode, then a malformed record, then anything, the replay applies the
    [N] decoded transactions, in the order of the file, and nothing after
    them.  It returns (no panic, no error) when [applyTransaction] accepts
    each of the [N]: a known action and, for an insert, a replace or a
    delete, a feature with a string identifier.  When one of the [N] is not
    such a record, the replay panics. *)
Theorem C6_replay_stops_at_first_malformed
    (e : Engine) (w : World) (ts : list json_Transaction) (raw : bytes)
    (rest : list record) :
  file_contents w (logFile e) = (rec_txn <$> ts) ++ rec_malformed raw :: rest ->
  Forall fits_uint64 ts ->
  length (decode_all w ts).2 = length ts
  /\ replayLog MarshalJSON json_reread e w
     = ('(e', w') ← apply_seq e (decode_all w ts).1 (decode_all w ts).2;
        Returned (e', w', None))
  /\ (Forall record_applicable ts ->
      exists e',
        apply_seq e (decode_all w ts).1 (decode_all w ts).2
        = Returned (e', (decode_all w ts).1)
        /\ replayLog MarshalJSON json_reread e w
           = Returned (e', (decode_all w ts).1, None))
  /\ (~ Forall record_applicable ts ->
      exists p, replayLog MarshalJSON json_reread e w = Panicked p).
Proof.
  intros Hfile Hfit.
  assert (replayLog MarshalJSON json_reread e w
     = ('(e', w') ← apply_seq e (decode_all w ts).1 (decode_all w ts).2;
        Returned (e', w', None))) as Hreplay.
  { unfold replayLog. rewrite Hfile.
    by rewrite (decode_loop_apply_seq ts (rec_malformed raw :: rest)). }
  split; [by apply decode_all_length|]. split; [done|]. split.
  - intros Hts.
    destruct (apply_seq_returns e (decode_all w ts).1 (decode_all w ts).2)
      as [e' E]; [by apply decode_all_applicable|].
    exists e'. split; [done|]. by rewrite Hreplay, E.
  - intros Hn. rewrite Hreplay.
    destruct (apply_seq e (decode_all w ts).1 (decode_all w ts).2)
      as [r|p] eqn:E; [|by exists p].
    exfalso. apply Hn. apply (decode_all_applicable_inv ts w Hfit).
    by eapply apply_seq_returned_applicable.
Qed.

(** X30: a transaction record whose sequence number does not fit [uint64]
    ends the replay as a malformed record does: the records before it are
    applied, in the order of the file, the record itself and everything
    after it are dropped, and the replay returns without an error. *)
Theorem oversized_lsn_ends_replay
    (e : Engine) (w : World) (ts : list json_Transaction)
    (t : json_Transaction) (rest : list record) :
  file_contents w (logFile e) = (rec_txn <$> ts) ++ rec_txn t :: rest ->
  Forall fits_uint64 ts ->
  Forall record_applicable ts ->
  (2 ^ 64 <= json_lsn t)%N ->
  exists e',
    apply_seq e (decode_all w ts).1 (decode_all w ts).2
    = Returned (e', (decode_all w ts).1)
    /\ length (decode_all w ts).2 = length ts
    /\ replayLog MarshalJSON json_reread e w
       = Returned (e', (decode_all w ts).1, None).
Proof.
  intros Hfile Hfit Hts Hbig.
  destruct (apply_seq_returns e (decode_all w ts).1 (decode_all w ts).2)
    as [e' E]; [by apply decode_all_applicable|].
  exists e'. split; [done|]. split; [by apply decode_all_length|].
  unfold replayLog. rewrite Hfile.
  rewrite (decode_loop_apply_seq ts (rec_txn t :: rest)); [by rewrite E|done|].
  cbn [Decode]. apply N.leb_le in Hbig. by rewrite Hbig.
Qed.

Lemma drain_singleton id (p : ptr_Feature) : drain {[id := p]} = [p].
Proof. unfold drain. by rewrite map_to_list_singleton. Qed.

(** The engine a restart builds from a checkpoint file that holds one insert
    record and from an empty log. *)
Lemma NewEngine_one_record w lp cp (f : geojson_Feature) id :
  lp <> cp ->
  files w !! lp = Some [] ->
  files w !! cp
  = Some [rec_txn {| json_action := "insert"; json_name := EmptyString;
                     json_lsn := 0; json_feature := Some f |}] ->
  ID (json_reread f) = any_string id ->
  let p := {| addr := next_addr w; pointee := json_reread f |} in
  let b := BBox_Bound (BBox (json_reread f)) in
  NewEngine w lp cp
  = Returned
      ({| files := files w; next_addr := Pos.succ (next_addr w) |},
       inl {| primary := {[id := p]};
              spatial := [{| item_min := Min b; item_max := Max b;
                             item_data := p |}];
              lsn := 0; logFile := log_handle lp; checkpointPath := cp |}).
Proof.
  intros Hne Hlog Hcp Hid p b.
  unfold NewEngine, os_OpenFile_append. rewrite Hlog.
  unfold loadCheckpoint, os_Open. simpl. rewrite Hcp.
  unfold file_contents. simpl. rewrite Hcp. simpl.
  unfold applyTransaction. simpl. rewrite Hid. simpl.
  unfold replayLog, file_contents. simpl. rewrite Hlog. simpl.
  by rewrite insert_empty.
Qed.

(** [check] on an engine whose primary index holds one feature. *)
Lemma check_one_feature e w lp cp id (p : ptr_Feature) :
  lp <> cp ->
  primary e = {[id := p]} ->
  logFile e = log_handle lp ->
  checkpointPath e = cp ->
  Feature_finite (pointee p) = true ->
  exists w1,
    check e w = (w1, None)
    /\ next_addr w1 = next_addr w
    /\ files w1 !! lp = Some []
    /\ files w1 !! cp
       = Some [rec_txn {| json_action := "insert"; json_name := EmptyString;
                          json_lsn := 0;
                          json_feature := Some (pointee p) |}].
Proof.
  intros Hne Hp Hl Hc Hfin.
  unfold check, os_Create. rewrite Hp, drain_singleton, Hl, Hc. simpl.
  unfold json_Marshal. simpl. rewrite Hfin.
  unfold File_Write, file_contents. simpl. rewrite lookup_insert_eq. simpl.
  eexists. split; [reflexivity|]. simpl.
  split; [done|]. split.
  - apply lookup_insert_eq.
  - rewrite lookup_insert_ne by done. rewrite insert_insert_eq.
    apply lookup_insert_eq.
Qed.

Lemma restart_after_check e1 w1 lp cp (A : ptr_Feature) id :
  lp <> cp ->
  primary e1 = {[id := A]} ->
  logFile e1 = log_handle lp ->
  checkpointPath e1 = cp ->
  Feature_finite (pointee A) = true ->
  ID (json_reread (pointee A)) = any_string id ->
  MarshalJSON [json_reread (pointee A)] = MarshalJSON [pointee A] ->
  restart_selects_only e1 w1 lp cp A id.
Proof.
  intros Hne Hp Hl Hc Hfin Hid Hm.
  destruct (check_one_feature e1 w1 lp cp id A Hne Hp Hl Hc Hfin)
    as (w2 & Hcheck & _ & Hlog & Hcp).
  pose proof (NewEngine_one_record w2 lp cp (pointee A) id Hne Hlog Hcp Hid)
    as Hnew. simpl in Hnew.
  exists w2. do 2 eexists. split; [done|]. split; [exact Hnew|].
  simpl. split; [done|]. split; [|split].
  - unfold primary_ids. simpl. apply dom_singleton_L.
  - unfold spatial_ids, string_ID. simpl. rewrite Hid. simpl.
    apply (right_id_L ∅ (∪)).
  - intros nm n ft. unfold applyTransaction. simpl.
    unfold Collection_MarshalJSON. simpl. by rewrite Hm.
Qed.

(** C2: on an engine with an empty primary index, insert a feature [A]
    (string identifier, writable as JSON), applied by the run loop or saved
    by [saveTransaction]; then [check]; then a new engine on the same
    checkpoint and log files: it holds exactly [A] as read back, and the
    payload of its select is the bytes the marshaler gives for the
    one-feature collection of [A]. *)
Theorem C2_insert_checkpoint_restart
    (e : Engine) (w : World) (A : ptr_Feature) (id lp cp nm : string)
    (n : N) :
  primary e = ∅ ->
  logFile e = log_handle lp ->
  checkpointPath e = cp ->
  lp <> cp ->
  ID (pointee A) = any_string id ->
  Feature_finite (pointee A) = true ->
  ID (json_reread (pointee A)) = any_string id ->
  MarshalJSON [json_reread (pointee A)] = MarshalJSON [pointee A] ->
  let insert :=
    {| Action := "insert"; Name := nm; LSN := n; Feature := Some A |} in
  (exists e1,
     Run_step e w (job insert) = Returned (e1, w)
     /\ restart_selects_only e1 w lp cp A id)
  /\ (exists e1 w1 txn1,
        saveTransaction e w insert = Completes (Returned (e1, w1, txn1, None))
        /\ restart_selects_only e1 w1 lp cp A id).
Proof.
  intros He Hl Hc Hne HidA Hfin Hid Hm insert. split.
  - eexists. split.
    + unfold Run_step, applyTransaction. simpl.
      rewrite HidA. simpl. reflexivity.
    + apply restart_after_check; simpl; try done.
      by rewrite He, insert_empty.
  - do 3 eexists. split.
    + unfold saveTransaction, json_Marshal. simpl.
      rewrite Hfin, Hl. simpl.
      unfold applyTransaction_holding_mu, applyTransaction. simpl.
      rewrite HidA. simpl. reflexivity.
    + apply restart_after_check; simpl; try done.
      by rewrite He, insert_empty.
Qed.

End Properties.

(** * The engine on sample data *)

(** C1: on the empty engine, an insert of p2 followed by a replace of p2
    leaves two items under "p2" in the spatial index for the one entry of
    the primary index; a delete of p2 then empties the primary index and
    leaves the first item in the spatial index, so the two sets of
    identifiers differ. *)
Theorem C1_replace_keeps_old_spatial_item :
  (exists e1,
     apply_seq sample_MarshalJSON empty_engine sample_world
       [txn_of "insert" (Some feature_p2);
        txn_of "replace" (Some feature_p2')]
     = Returned (e1, sample_world)
     /\ rtree_Scan (spatial e1) = [feature_p2; feature_p2']
     /\ spatial_count e1 "p2" = 2
     /\ primary e1 = {[ "p2" := feature_p2' ]})
  /\ (exists e2,
        apply_seq sample_MarshalJSON empty_engine sample_world
          [txn_of "insert" (Some feature_p2);
           txn_of "replace" (Some feature_p2');
           txn_of "delete" (Some feature_p2)]
        = Returned (e2, sample_world)
        /\ primary e2 = ∅
        /\ rtree_Scan (spatial e2) = [feature_p2]
        /\ ("p2" ∈ spatial_ids e2)
        /\ ("p2" ∉ primary_ids e2)
        /\ primary_ids e2 <> spatial_ids e2).
Proof.
  split.
  - eexists. split; [reflexivity|]. repeat split.
  - eexists. split; [reflexivity|].
    repeat split; done.
Qed.

(** C3: on the empty engine with an empty log, [applyTransaction] answers a
    delete of p1, which the primary index does not hold, with the not-found
    error and changes nothing; [saveTransaction], given the same delete,
    moves the sequence number to 1, appends the record of the delete to the
    log and returns no error. *)
Theorem C3_saveTransaction_logs_absent_delete :
  let txn := txn_of "delete" (Some feature_p1) in
  primary empty_engine !! "p1" = None
  /\ file_contents sample_world (logFile empty_engine) = []
  /\ applyTransaction sample_MarshalJSON empty_engine sample_world txn
     = Returned (empty_engine, sample_world, (None, Some (not_found "p1")))
  /\ exists e2 w2 txn2,
       saveTransaction sample_MarshalJSON empty_engine sample_world txn
       = Completes (Returned (e2, w2, txn2, None))
       /\ primary e2 = ∅ /\ spatial e2 = []
       /\ lsn e2 = 1%N
       /\ file_contents w2 (logFile e2)
          = [rec_txn {| json_action := "delete"; json_name := "storage";
                        json_lsn := 1;
                        json_feature := Some (point_feature "p1" 1 2) |}].
Proof.
  intros txn. split; [reflexivity|]. split; [reflexivity|].
  split; [reflexivity|].
  do 3 eexists. split; [reflexivity|]. repeat split.
Qed.

(** C4: the run loop, given an insert of p1 on the empty engine, stores p1
    in both indices and leaves the record log empty; [saveTransaction], on
    the same input, stores p1 and appends the record. *)
Theorem C4_run_insert_appends_nothing :
  (exists e1,
     Run sample_MarshalJSON empty_engine sample_world
       [job (txn_of "insert" (Some feature_p1))]
     = Returned (e1, sample_world)
     /\ primary e1 !! "p1" = Some feature_p1
     /\ rtree_Scan (spatial e1) = [feature_p1]
     /\ file_contents sample_world (logFile e1) = [])
  /\ (exists e2 w2 txn2,
        saveTransaction sample_MarshalJSON empty_engine sample_world
          (txn_of "insert" (Some feature_p1))
        = Completes (Returned (e2, w2, txn2, None))
        /\ primary e2 !! "p1" = Some feature_p1
        /\ file_contents w2 (logFile e2) = [rec_txn (json_record txn2)]).
Proof.
  split.
  - eexists. split; [reflexivity|]. repeat split.
  - do 3 eexists. split; [reflexivity|]. repeat split.
Qed.

(** C5: the run loop, given an insert, a replace and a delete on the empty
    engine, applies the three and the sequence number is still 0;
    [saveTransaction], given a delete of an identifier the primary index
    does not hold, moves the sequence number to 1, appends the record and
    returns no error. *)
Theorem C5_run_leaves_lsn_at_zero :
  (exists e1,
     Run sample_MarshalJSON empty_engine sample_world
       [job (txn_of "insert" (Some feature_p1));
        job (txn_of "replace" (Some feature_p2));
        job (txn_of "delete" (Some feature_p1))]
     = Returned (e1, sample_world)
     /\ primary e1 = {[ "p2" := feature_p2 ]}
     /\ lsn e1 = 0%N)
  /\ (exists e2 w2 txn2,
        saveTransaction sample_MarshalJSON empty_engine sample_world
          (txn_of "delete" (Some feature_p1))
        = Completes (Returned (e2, w2, txn2, None))
        /\ primary e2 = ∅
        /\ lsn e2 = 1%N /\ LSN txn2 = 1%N
        /\ file_contents w2 (logFile e2) = [rec_txn (json_record txn2)]).
Proof.
  split.
  - eexists. split; [reflexivity|]. repeat split.
  - do 3 eexists. split; [reflexivity|]. repeat split.
Qed.

(** C6, as the claim states it, fails: a log whose one record before the
    truncated one is a well-formed transaction record, with a nil feature,
    an identifier that is not a string or an action outside the switch,
    makes the replay, and with it [NewEngine], panic. *)
Lemma C6_replay_panics_on_decodable_record :
  file_contents nil_feature_world (logFile empty_engine)
  = [rec_txn (record_of "insert" None);
     rec_malformed (list_byte_of_string "{action:ins")]
  /\ fits_uint64 (record_of "insert" None)
  /\ replayLog sample_MarshalJSON sample_reread empty_engine
       nil_feature_world
     = Panicked nil_dereference
  /\ replayLog sample_MarshalJSON sample_reread empty_engine
       numeric_id_world
     = Panicked type_assertion
  /\ replayLog sample_MarshalJSON sample_reread empty_engine
       unknown_action_world
     = Panicked (panic_value "unknown action")
  /\ NewEngine sample_MarshalJSON sample_reread nil_feature_world
       "engine.log" "engine.checkpoint"
     = Panicked nil_dereference.
Proof. repeat split. Qed.

(** * Instances *)

Lemma C2_witness :
  primary empty_engine = ∅
  /\ logFile empty_engine = log_handle "engine.log"
  /\ ID (pointee feature_p1) = any_string "p1"
  /\ ((exists e1,
         Run_step sample_MarshalJSON empty_engine sample_world
           (job (txn_of "insert" (Some feature_p1)))
         = Returned (e1, sample_world)
         /\ restart_selects_only sample_MarshalJSON sample_reread e1
              sample_world "engine.log" "engine.checkpoint" feature_p1 "p1")
      /\ (exists e1 w1 txn1,
            saveTransaction sample_MarshalJSON empty_engine sample_world
              (txn_of "insert" (Some feature_p1))
            = Completes (Returned (e1, w1, txn1, None))
            /\ restart_selects_only sample_MarshalJSON sample_reread e1 w1
                 "engine.log" "engine.checkpoint" feature_p1 "p1")).
Proof.
  split; [reflexivity|]. split; [reflexivity|]. split; [reflexivity|].
  apply (C2_insert_checkpoint_restart sample_MarshalJSON sample_reread
           empty_engine sample_world feature_p1 "p1" "engine.log"
           "engine.checkpoint" "storage" 0%N);
    solve [reflexivity | discriminate].
Defined.

Lemma delete_absent_fails_unchanged_witness :
  Action (txn_of "delete" (Some feature_p1)) = "delete"
  /\ primary empty_engine !! "p1" = None
  /\ applyTransaction sample_MarshalJSON empty_engine sample_world
       (txn_of "delete" (Some feature_p1))
     = Returned (empty_engine, sample_world, (None, Some (not_found "p1")))
  /\ Run_step sample_MarshalJSON empty_engine sample_world
       (job (txn_of "delete" (Some feature_p1)))
     = Returned (empty_engine, sample_world).
Proof.
  split; [reflexivity|]. split; [reflexivity|].
  apply (delete_absent_fails_unchanged sample_MarshalJSON empty_engine
           sample_world (txn_of "delete" (Some feature_p1)) feature_p1 "p1");
    reflexivity.
Defined.

Lemma C6_witness :
  let ts := [record_of "insert" (Some (point_feature "p1" 1 2));
             record_of "insert" (Some (point_feature "p2" 3 4))] in
  let w' := (decode_all sample_reread damaged_world ts).1 in
  let txns := (decode_all sample_reread damaged_world ts).2 in
  file_contents damaged_world (logFile empty_engine) = damaged_log
  /\ Forall fits_uint64 ts
  /\ length txns = 2
  /\ replayLog sample_MarshalJSON sample_reread empty_engine damaged_world
     = ('(e', w1) ← apply_seq sample_MarshalJSON empty_engine w' txns;
        Returned (e', w1, None))
  /\ exists e',
       apply_seq sample_MarshalJSON empty_engine w' txns = Returned (e', w')
       /\ replayLog sample_MarshalJSON sample_reread empty_engine
            damaged_world
          = Returned (e', w', None).
Proof.
  intros ts w' txns. split; [reflexivity|].
  assert (Forall fits_uint64 ts) as Hfit
    by (repeat (constructor; [reflexivity|]); constructor).
  split; [exact Hfit|].
  destruct (C6_replay_stops_at_first_malformed sample_MarshalJSON
              sample_reread empty_engine damaged_world ts
              (list_byte_of_string "{action:ins")
              [rec_txn (record_of "delete" (Some (point_feature "p1" 1 2)))]
              eq_refl Hfit) as (Hlen & Hreplay & Hok & _).
  split; [exact Hlen|]. split; [exact Hreplay|].
  apply Hok.
  repeat (constructor; [do 2 eexists; split; reflexivity|]). constructor.
Defined.

Lemma oversized_lsn_ends_replay_witness :
  let ts := [record_of "insert" (Some (point_feature "p1" 1 2))] in
  (2 ^ 64 <= json_lsn oversized_record)%N
  /\ exists e',
       replayLog sample_MarshalJSON sample_reread empty_engine
         oversized_world
       = Returned (e', (decode_all sample_reread oversized_world ts).1, None)
       /\ primary_ids e' = {[ "p1" ]}.
Proof.
  intros ts.
  assert (2 ^ 64 <= json_lsn oversized_record)%N as Hbig by discriminate.
  split; [exact Hbig|].
  destruct (oversized_lsn_ends_replay sample_MarshalJSON sample_reread
              empty_engine oversized_world ts oversized_record
              [rec_txn (record_of "insert" (Some (point_feature "p2" 3 4)))]
              eq_refl)
    as (e' & Happ & _ & Hreplay); [| |exact Hbig|].
  - repeat (constructor; [reflexivity|]). constructor.
  - repeat (constructor; [do 2 eexists; split; reflexivity|]). constructor.
  - exists e'. split; [exact Hreplay|].
    injection Happ as <-. reflexivity.
Defined.

Lemma C10_witness :
  let txns := [txn_of "insert" (Some feature_p1); txn_of "select" None] in
  Forall applicable txns
  /\ exists e',
       Run sample_MarshalJSON empty_engine sample_world (job <$> txns)
       = Returned (e', sample_world)
       /\ lsn e' = lsn empty_engine.
Proof.
  intros txns.
  assert (Forall applicable txns) as Ha.
  { constructor; [do 2 eexists; split; reflexivity|].
    constructor; [exact I|]. constructor. }
  split; [exact Ha|].
  exact (proj2 (proj2 (C10_Run_never_logs sample_MarshalJSON empty_engine
                         sample_world txns)) Ha).
Defined.

(** * Further properties of the engine *)

Section EngineProperties.

Variable MarshalJSON : list geojson_Feature -> bytes + error.
Variable json_reread : geojson_Feature -> geojson_Feature.

Local Abbreviation applyTransaction := (applyTransaction MarshalJSON).
Local Abbreviation Run_step := (Run_step MarshalJSON).
Local Abbreviation Run := (Run MarshalJSON).
Local Abbreviation apply_seq := (apply_seq MarshalJSON).
Local Abbreviation Decode := (Decode json_reread).
Local Abbreviation decode_loop := (decode_loop MarshalJSON json_reread).
Local Abbreviation decode_all := (decode_all json_reread).
Local Abbreviation loadCheckpoint := (loadCheckpoint MarshalJSON json_reread).
Local Abbreviation replayLog := (replayLog MarshalJSON json_reread).
Local Abbreviation NewEngine := (NewEngine MarshalJSON json_reread).
Local Abbreviation saveTransaction := (saveTransaction MarshalJSON).
Local Abbreviation save_seq := (save_seq MarshalJSON).

(** X1: [applyTransaction] panics in three cases and no other, whatever the
    engine and the files are: an action outside the five of the switch; an
    insert, replace or delete with a nil feature; an insert, replace or
    delete whose feature has an identifier that is not a string. *)
Theorem applyTransaction_panics_exactly
    (e : Engine) (w : World) (txn : Transaction) (p : panic) :
  applyTransaction e w txn = Panicked p
  <-> (switch_Action (Action txn) = case_default
       /\ p = panic_value "unknown action")
      \/ ((switch_Action (Action txn) = case_upsert
           \/ switch_Action (Action txn) = case_delete)
          /\ ((Feature txn = None /\ p = nil_dereference)
              \/ (exists f, Feature txn = Some f /\ string_ID f = None
                            /\ p = type_assertion))).
Proof.
  unfold applyTransaction, string_ID.
  destruct (switch_Action (Action txn)) eqn:Es; simpl.
  - destruct (Feature txn) as [f|]; simpl.
    + destruct (ID (pointee f)) eqn:Ei; simpl; split;
        try (intros [= <-]; right; split; [by left|]; right; exists f;
             by rewrite Ei);
        try done;
        intros [[? _]|[_ [[? _]|(f' & [= <-] & Hn & ->)]]]; try done.
      by rewrite Ei in Hn.
    + split.
      * intros [= <-]. right. split; [by left|]. by left.
      * intros [[? _]|[_ [[_ ->]|(f' & ? & _)]]]; done.
  - destruct (Feature txn) as [f|]; simpl.
    + destruct (ID (pointee f)) as [|id| |] eqn:Ei; simpl; split;
        try (intros [= <-]; right; split; [by right|]; right; exists f;
             by rewrite Ei);
        try (destruct (primary e !! id); done);
        intros [[? _]|[_ [[? _]|(f' & [= <-] & Hn & ->)]]]; try done.
      by rewrite Ei in Hn.
    + split.
      * intros [= <-]. right. split; [by right|]. by left.
      * intros [[? _]|[_ [[_ ->]|(f' & ? & _)]]]; done.
  - split; [done|]. intros [[? _]|[[?|?] _]]; done.
  - split.
    + destruct (os_Open w _); [|done]. destruct (MarshalJSON _); [|done].
      by destruct (File_Write _ _ _) as [? []].
    + intros [[? _]|[[?|?] _]]; done.
  - split.
    + intros [= <-]. by left.
    + intros [[_ ->]|[[?|?] _]]; done.
Qed.

(** X2: a transaction with the action "checkpoint" never writes a
    checkpoint: [applyTransaction] returns an error and no payload, and the
    engine and the files are as before (the file is opened read-only, so it
    is missing or the write to it fails). *)
Theorem checkpoint_action_always_fails
    (e : Engine) (w : World) (nm : string) (n : N)
    (ft : option ptr_Feature) :
  exists err,
    applyTransaction e w
      {| Action := "checkpoint"; Name := nm; LSN := n; Feature := ft |}
    = Returned (e, w, (None, Some err)).
Proof.
  unfold applyTransaction, os_Open. simpl.
  destruct (files w !! _); [|eauto].
  destruct (MarshalJSON _); eauto.
Qed.

(** What [applyTransaction] does to the primary index, when it returns. *)
Lemma applyTransaction_primary e w txn e' w' r :
  applyTransaction e w txn = Returned (e', w', r) ->
  primary e' = primary_step (primary e) txn.
Proof.
  unfold applyTransaction, primary_step.
  destruct (switch_Action (Action txn)); simpl.
  - destruct (Feature txn) as [f|]; simpl; [|done].
    destruct (ID (pointee f)); simpl; try done. by intros [= <- _ _].
  - destruct (Feature txn) as [f|]; simpl; [|done].
    destruct (ID (pointee f)) as [|id| |]; simpl; try done.
    destruct (primary e !! id) eqn:El.
    + by intros [= <- _ _].
    + intros [= <- _ _]. by rewrite delete_id.
  - intros [= <- _ _]. by destruct (Feature txn).
  - destruct (os_Open w _).
    + destruct (MarshalJSON _).
      * destruct (File_Write _ _ _) as [? []]; intros [= <- _ _];
          by destruct (Feature txn).
      * intros [= <- _ _]. by destruct (Feature txn).
    + intros [= <- _ _]. by destruct (Feature txn).
  - done.
Qed.

(** [applyTransaction] reads neither the sequence number nor the handle of
    the log, but for the name of the file the checkpoint case tries to
    open. *)
Lemma applyTransaction_set_logFile e w txn f :
  applyTransaction (set_logFile e f) w txn
  = match applyTransaction e w txn with
    | Returned (e', w', r) => Returned (set_logFile e' f, w', r)
    | Panicked p => Panicked p
    end.
Proof.
  unfold applyTransaction.
  destruct (switch_Action (Action txn)); simpl; try done.
  - destruct (Feature txn) as [p|]; simpl; [|done].
    by destruct (ID (pointee p)).
  - destruct (Feature txn) as [p|]; simpl; [|done].
    destruct (ID (pointee p)) as [|id| |]; simpl; try done.
    by destruct (primary e !! id).
  - destruct (os_Open w _); [|done]. destruct (MarshalJSON _); [|done].
    by destruct (File_Write _ _ _) as [? []].
Qed.

Lemma switch_Action_checkpoint a :
  switch_Action a = case_checkpoint <-> a = "checkpoint".
Proof.
  unfold switch_Action. split.
  - destruct (String.eqb a "insert" || String.eqb a "replace"); [done|].
    destruct (String.eqb a "delete"); [done|].
    destruct (String.eqb a "select"); [done|].
    destruct (String.eqb a "checkpoint") eqn:E; [|done].
    intros _. by apply String.eqb_eq.
  - by intros ->.
Qed.

Lemma saveTransaction_unfold (e : Engine) (w : World) (txn : Transaction) :
  let n := uint64_add (lsn e) 1 in
  let txn1 := with_LSN txn n in
  saveTransaction e w txn
  = match json_Marshal txn1 with
    | inr err => Completes (Returned (set_lsn e n, w, txn1, Some err))
    | inl data =>
        match File_Write w (logFile e) [rec_txn data] with
        | (w1, Some err) =>
            Completes (Returned (set_lsn e n, w1, txn1, Some err))
        | (w1, None) =>
            match applyTransaction_holding_mu MarshalJSON
                    (set_lsn e n) w1 txn1 with
            | Deadlock => Deadlock
            | Completes applied =>
                Completes ('(e2, w2, _) ← applied;
                           Returned (e2, w2, txn1, None))
            end
        end
    end.
Proof. reflexivity. Qed.

Lemma saveTransaction_appends_then_applies_aux
    (e : Engine) (w : World) (txn : Transaction) :
  file_closed (logFile e) = false ->
  file_writable (logFile e) = true ->
  marshalable txn ->
  applicable txn ->
  let n := uint64_add (lsn e) 1 in
  let txn1 := with_LSN txn n in
  let w1 :=
    with_files w (<[file_path (logFile e) :=
                      file_contents w (logFile e) ++ [rec_txn (json_record txn1)]]>
                    (files w)) in
  Action txn <> "checkpoint"
  \/ files w1 !! (Name txn +:+ FormatUint n +:+ checkpointPath e) = None ->
  exists e2 r,
    saveTransaction e w txn = Completes (Returned (e2, w1, txn1, None))
    /\ applyTransaction (set_lsn e n) w1 txn1 = Returned (e2, w1, r)
    /\ lsn e2 = n
    /\ primary e2 = primary_step (primary e) txn.
Proof.
  intros Hc Hw Hm Ha n txn1 w1 Hfree.
  assert (applicable txn1) as Ha1 by done.
  destruct (applicable_returns MarshalJSON (set_lsn e n) w1 txn1 Ha1)
    as (e2 & r & E).
  exists e2, r.
  pose proof (applyTransaction_returned_frame _ _ _ _ _ _ _ E)
    as (_ & Hl & _).
  pose proof (applyTransaction_primary _ _ _ _ _ _ E) as Hp.
  repeat split; try done.
  assert (json_Marshal txn1 = inl (json_record txn1)) as Hj.
  { unfold json_Marshal, marshalable in *. simpl.
    destruct (Feature txn); [|done]. by rewrite Hm. }
  assert (File_Write w (logFile e) [rec_txn (json_record txn1)] = (w1, None))
    as Hwr.
  { unfold File_Write. by rewrite Hc, Hw. }
  assert (applyTransaction_holding_mu MarshalJSON (set_lsn e n) w1 txn1
          = Completes (applyTransaction (set_lsn e n) w1 txn1)) as Hmu.
  { unfold applyTransaction_holding_mu.
    destruct (switch_Action (Action txn1)) eqn:Es; try done.
    apply switch_Action_checkpoint in Es.
    destruct Hfree as [Hne|Hnone]; [done|].
    unfold os_Open. cbn [Name txn1 with_LSN lsn set_lsn checkpointPath].
    by rewrite Hnone. }
  rewrite saveTransaction_unfold. fold n txn1.
  by rewrite Hj, Hwr, Hmu, E.
Qed.


(** X4: when the log handle is closed or read-only, or the transaction
    cannot be written as JSON, [saveTransaction] returns an error; the
    transaction is not applied and no file changes, but the sequence number
    has moved one up. *)
Theorem saveTransaction_failure_consumes_lsn
    (e : Engine) (w : World) (txn : Transaction) :
  file_closed (logFile e) = true \/ file_writable (logFile e) = false
  \/ ~ marshalable txn ->
  let n := uint64_add (lsn e) 1 in
  exists err,
    saveTransaction e w txn
    = Completes (Returned (set_lsn e n, w, with_LSN txn n, Some err)).
Proof.
  intros H n. set (txn1 := with_LSN txn n).
  rewrite saveTransaction_unfold. fold n txn1.
  destruct (json_Marshal txn1) as [data|err] eqn:Ej; [|eauto].
  unfold File_Write.
  destruct (file_closed (logFile e)) eqn:Ec; [eauto|].
  destruct (file_writable (logFile e)) eqn:Ew; [|eauto].
  exfalso. destruct H as [?|[?|Hn]]; [congruence|congruence|].
  apply Hn. unfold json_Marshal, marshalable in *. simpl in Ej.
  destruct (Feature txn) as [p|]; [|done].
  by destruct (Feature_finite (pointee p)).
Qed.

Lemma Run_jobs_of (e : Engine) (w : World) (evs : list event) :
  match apply_seq e w (jobs_of evs) with
  | Returned (e1, w1) =>
      exists e2,
        Run e w evs = Returned (e2, w1)
        /\ primary e2 = primary e1 /\ spatial e2 = spatial e1
        /\ lsn e2 = lsn e1
        /\ file_closed (logFile e2)
           = (file_closed (logFile e) || existsb is_Done evs)
  | Panicked p => Run e w evs = Panicked p
  end.
Proof.
  revert e w. induction evs as [|ev rest IH]; intros e w.
  - simpl. exists e. repeat split; try done. by rewrite orb_false_r.
  - destruct ev as [txn|].
    + cbn [jobs_of omap list_omap]. change (omap _ rest) with (jobs_of rest).
      simpl.
      pose proof (applyTransaction_frame MarshalJSON e w txn) as F.
      destruct (applyTransaction e w txn) as [[[e1 w1] r]|p]; simpl; [|done].
      destruct F as (_ & _ & Hf & _).
      specialize (IH e1 w1).
      destruct (apply_seq e1 w1 (jobs_of rest)) as [[e3 w3]|p]; [|done].
      destruct IH as (e2 & -> & ? & ? & ? & Hcl).
      exists e2. repeat split; try done. by rewrite Hcl, Hf.
    + cbn [jobs_of omap list_omap]. change (omap _ rest) with (jobs_of rest).
      simpl. specialize (IH (set_logFile e (File_Close (logFile e))) w).
      assert (forall txns e0 f,
                apply_seq (set_logFile e0 f) w txns
                = match apply_seq e0 w txns with
                  | Returned (e', w') => Returned (set_logFile e' f, w')
                  | Panicked p => Panicked p
                  end) as Hseq.
      { clear. intros txns. revert w.
        induction txns as [|t ts IHt]; intros w e0 f; simpl; [done|].
        rewrite applyTransaction_set_logFile.
        destruct (applyTransaction e0 w t) as [[[e1 w1] r]|p]; simpl; [|done].
        apply IHt. }
      rewrite Hseq in IH.
      destruct (apply_seq e w (jobs_of rest)) as [[e3 w3]|p]; [|done].
      destruct IH as (e2 & -> & ? & ? & ? & Hcl).
      exists e2. repeat split; try done.
      rewrite Hcl. simpl. by rewrite orb_true_r.
Qed.

(** X5: cancelling the context does not stop the loop of [Run]: over any
    sequence of events, the transactions are applied as if no [ctx.Done] had
    been among them (same panic, or same primary index, spatial index,
    sequence number and files); a [ctx.Done] only closes the log handle. *)
Theorem Run_applies_jobs_despite_Done
    (e : Engine) (w : World) (evs : list event) :
  match apply_seq e w (jobs_of evs) with
  | Returned (e1, w1) =>
      exists e2,
        Run e w evs = Returned (e2, w1)
        /\ primary e2 = primary e1 /\ spatial e2 = spatial e1
        /\ lsn e2 = lsn e1
        /\ file_closed (logFile e2)
           = (file_closed (logFile e) || existsb is_Done evs)
  | Panicked p => Run e w evs = Panicked p
  end.
Proof. apply Run_jobs_of. Qed.

Lemma Decode_files w r w1 txn :
  Decode w r = Some (w1, txn) -> files w1 = files w.
Proof.
  destruct r as [t| |]; simpl; [|by intros [= <- _]|done].
  destruct (2 ^ 64 <=? json_lsn t)%N; [done|].
  destruct (json_feature t); by intros [= <- _].
Qed.

Lemma decode_loop_frame e w rs :
  match decode_loop e w rs with
  | Returned (e', w') =>
      files w' = files w /\ lsn e' = lsn e /\ logFile e' = logFile e
      /\ checkpointPath e' = checkpointPath e
  | Panicked _ => True
  end.
Proof.
  revert e w. induction rs as [|r rest IH]; intros e w; simpl; [done|].
  destruct (Decode w r) as [[w1 txn]|] eqn:Ed; [|done].
  apply Decode_files in Ed.
  pose proof (applyTransaction_frame MarshalJSON e w1 txn) as F.
  destruct (applyTransaction e w1 txn) as [[[e1 w1'] r']|p]; simpl; [|done].
  destruct F as (-> & Hl & Hf & Hc). specialize (IH e1 w1).
  destruct (decode_loop e1 w1 rest) as [[e2 w2]|]; [|done].
  destruct IH as (? & ? & ? & ?). repeat split; congruence.
Qed.

(** X6: the engine [NewEngine] returns always has the sequence number 0,
    whatever the checkpoint file and the record log hold: the replay applies
    the records and counts none.  The start-up writes no file but the log
    it creates when there is none. *)
Theorem NewEngine_starts_at_lsn_zero (w : World) (lp cp : string) :
  match NewEngine w lp cp with
  | Returned (w', inl e) =>
      lsn e = 0%N /\ logFile e = log_handle lp /\ checkpointPath e = cp
      /\ files w' = match files w !! lp with
                    | Some _ => files w
                    | None => <[lp := []]> (files w)
                    end
  | Returned (_, inr _) | Panicked _ => True
  end.
Proof.
  unfold NewEngine, os_OpenFile_append.
  set (w0 := match files w !! lp with
             | Some _ => w
             | None => with_files w (<[lp := []]> (files w))
             end).
  assert (files w0 = match files w !! lp with
                     | Some _ => files w
                     | None => <[lp := []]> (files w)
                     end) as Hw0 by (subst w0; by destruct (files w !! lp)).
  set (e0 := {| primary := ∅; spatial := []; lsn := 0;
                logFile := log_handle lp; checkpointPath := cp |}).
  unfold loadCheckpoint, os_Open.
  destruct (files w0 !! checkpointPath e0) as [c|] eqn:Ec; simpl.
  - pose proof (decode_loop_frame e0 w0 (file_contents w0 (log_handle cp)))
      as F.
    unfold file_contents in *. simpl in *. rewrite Ec in *. simpl in *.
    destruct (decode_loop e0 w0 c) as [[e1 w1]|]; simpl; [|done].
    destruct F as (Hf1 & Hl1 & Hlf1 & Hc1).
    unfold replayLog.
    pose proof (decode_loop_frame e1 w1 (file_contents w1 (logFile e1))) as F.
    destruct (decode_loop e1 w1 _) as [[e2 w2]|]; simpl; [|done].
    destruct F as (Hf2 & Hl2 & Hlf2 & Hc2).
    subst e0. simpl in *. repeat split; congruence.
  - unfold replayLog.
    pose proof (decode_loop_frame e0 w0 (file_contents w0 (logFile e0))) as F.
    destruct (decode_loop e0 w0 _) as [[e2 w2]|]; simpl; [|done].
    destruct F as (Hf2 & Hl2 & Hlf2 & Hc2).
    subst e0. simpl in *. repeat split; congruence.
Qed.

Lemma primary_step_keyed m txn :
  primary_keyed m -> primary_keyed (primary_step m txn).
Proof.
  intros Hk. unfold primary_step.
  destruct (switch_Action (Action txn)); try done;
    destruct (Feature txn) as [f|]; try done;
    destruct (ID (pointee f)) as [|id| |] eqn:Ei; try done.
  - intros id' p. destruct (decide (id = id')) as [<-|Hne].
    + rewrite lookup_insert_eq. by intros [= <-].
    + rewrite lookup_insert_ne by done. apply Hk.
  - intros id' p. destruct (decide (id = id')) as [<-|Hne].
    + by rewrite lookup_delete_eq.
    + rewrite lookup_delete_ne by done. apply Hk.
Qed.

Lemma apply_seq_keyed e w txns :
  primary_keyed (primary e) ->
  match apply_seq e w txns with
  | Returned (e', _) => primary_keyed (primary e')
  | Panicked _ => True
  end.
Proof.
  revert e w. induction txns as [|txn rest IH]; intros e w Hk; simpl; [done|].
  destruct (applyTransaction e w txn) as [[[e1 w1] r]|p] eqn:E; simpl; [|done].
  apply IH. rewrite (applyTransaction_primary _ _ _ _ _ _ E).
  by apply primary_step_keyed.
Qed.

Lemma decode_loop_keyed e w rs :
  primary_keyed (primary e) ->
  match decode_loop e w rs with
  | Returned (e', _) => primary_keyed (primary e')
  | Panicked _ => True
  end.
Proof.
  revert e w. induction rs as [|r rest IH]; intros e w Hk; simpl; [done|].
  destruct (Decode w r) as [[w1 txn]|]; [|done].
  destruct (applyTransaction e w1 txn) as [[[e1 w1'] r']|p] eqn:E; simpl;
    [|done].
  apply IH. rewrite (applyTransaction_primary _ _ _ _ _ _ E).
  by apply primary_step_keyed.
Qed.

(** X7: in every engine the start-up builds, and after every sequence of
    events of the run loop on it, each entry of the primary index is stored
    under the identifier of its own feature. *)
Theorem primary_index_keyed_by_own_ID
    (w : World) (lp cp : string) (evs : list event) :
  match NewEngine w lp cp with
  | Returned (w1, inl e) =>
      primary_keyed (primary e)
      /\ match Run e w1 evs with
         | Returned (e', _) => primary_keyed (primary e')
         | Panicked _ => True
         end
  | Returned (_, inr _) | Panicked _ => True
  end.
Proof.
  assert (forall e0 w0, primary_keyed (primary e0) ->
            match Run e0 w0 evs with
            | Returned (e', _) => primary_keyed (primary e')
            | Panicked _ => True
            end) as HRun.
  { intros e0 w0 Hk.
    pose proof (Run_jobs_of e0 w0 evs) as HR.
    pose proof (apply_seq_keyed e0 w0 (jobs_of evs) Hk) as HS.
    destruct (apply_seq e0 w0 (jobs_of evs)) as [[e1 w1]|p].
    - destruct HR as (e2 & -> & -> & _). done.
    - by rewrite HR. }
  unfold NewEngine.
  destruct (os_OpenFile_append w lp) as [w0 lf].
  set (e0 := {| primary := ∅; spatial := []; lsn := 0; logFile := lf;
                checkpointPath := cp |}).
  assert (primary_keyed (primary e0)) as Hk0 by (intros ? ?; done).
  unfold loadCheckpoint.
  destruct (os_Open w0 (checkpointPath e0)) as [file|err]; simpl.
  - pose proof (decode_loop_keyed e0 w0 (file_contents w0 file) Hk0) as H1.
    destruct (decode_loop e0 w0 _) as [[e1 w1]|]; simpl; [|done].
    unfold replayLog.
    pose proof (decode_loop_keyed e1 w1 (file_contents w1 (logFile e1)) H1)
      as H2.
    destruct (decode_loop e1 w1 _) as [[e2 w2]|]; simpl; [|done].
    split; [done|]. by apply HRun.
  - destruct (is_ErrNotExist err); simpl; [|done].
    unfold replayLog.
    pose proof (decode_loop_keyed e0 w0 (file_contents w0 (logFile e0)) Hk0)
      as H2.
    destruct (decode_loop e0 w0 _) as [[e2 w2]|]; simpl; [|done].
    split; [done|]. by apply HRun.
Qed.

Lemma rtree_Scan_Insert tr min max data :
  rtree_Scan (rtree_Insert tr min max data) = rtree_Scan tr ++ [data].
Proof. unfold rtree_Scan, rtree_Insert. by rewrite map_app. Qed.

Lemma rtree_Delete_subset tr min max data q :
  q ∈ rtree_Scan (rtree_Delete tr min max data) -> q ∈ rtree_Scan tr.
Proof.
  induction tr as [|it rest IH]; simpl; [done|].
  destruct (item_matches min max data it); simpl.
  - intros. by apply list_elem_of_further.
  - intros [->|H]%elem_of_cons.
    + apply list_elem_of_here.
    + apply list_elem_of_further. by apply IH.
Qed.

Lemma rtree_Delete_keeps tr min max data q :
  q ∈ rtree_Scan tr ->
  (forall q', q' ∈ rtree_Scan tr -> ptr_eqb q' data = true -> q' <> q) ->
  q ∈ rtree_Scan (rtree_Delete tr min max data).
Proof.
  induction tr as [|it rest IH]; simpl; [done|].
  intros Hin Hother. unfold item_matches.
  destruct (rect_contains _ _ _ _ && ptr_eqb (item_data it) data) eqn:Em;
    simpl.
  - apply andb_true_iff in Em as [_ Em].
    apply elem_of_cons in Hin as [->|Hin]; [|done].
    exfalso.
    apply (Hother (item_data it)); [apply list_elem_of_here|done|done].
  - apply elem_of_cons in Hin as [->|Hin]; [apply list_elem_of_here|].
    apply list_elem_of_further, IH; [done|].
    intros q' Hq'. apply Hother. by apply list_elem_of_further.
Qed.

Lemma applyTransaction_holds P e w txn e' w' r :
  ptr_consistent P ->
  (forall f, Feature txn = Some f -> f ∈ P) ->
  spatial_holds_primary P e ->
  applyTransaction e w txn = Returned (e', w', r) ->
  spatial_holds_primary P e'.
Proof.
  intros HP Hf [Hprim Hsp]. unfold applyTransaction.
  destruct (switch_Action (Action txn)); simpl.
  - destruct (Feature txn) as [f|]; simpl; [|done].
    destruct (ID (pointee f)) as [|id| |] eqn:Ei; simpl; try done.
    intros [= <- _ _]. split; simpl.
    + intros id' p. rewrite rtree_Scan_Insert.
      destruct (decide (id = id')) as [<-|Hne].
      * rewrite lookup_insert_eq. intros [= <-]. split; [done|].
        apply elem_of_app. right. apply list_elem_of_here.
      * rewrite lookup_insert_ne by done. intros Hl.
        destruct (Hprim _ _ Hl). split; [done|].
        apply elem_of_app. by left.
    + intros q. rewrite rtree_Scan_Insert.
      intros [Hq|Hq]%elem_of_app; [by apply Hsp|].
      apply list_elem_of_singleton in Hq as ->. by apply Hf.
  - destruct (Feature txn) as [f|]; simpl; [|done].
    destruct (ID (pointee f)) as [|id| |] eqn:Ei; simpl; try done.
    destruct (primary e !! id) as [feature|] eqn:El.
    + intros [= <- _ _]. split; simpl.
      * intros id' p. destruct (decide (id = id')) as [<-|Hne].
        { by rewrite lookup_delete_eq. }
        rewrite lookup_delete_ne by done. intros Hl.
        destruct (Hprim _ _ Hl) as [Hid Hin]. split; [done|].
        apply rtree_Delete_keeps; [done|].
        intros q' Hq' Heq ->.
        destruct (Hprim _ _ El) as [Hidf Hinf].
        assert (p = feature) as ->.
        { apply HP; [by apply Hsp|by apply Hsp|].
          by apply Pos.eqb_eq. }
        congruence.
      * intros q Hq. apply Hsp. by eapply rtree_Delete_subset.
    + by intros [= <- _ _].
  - by intros [= <- _ _].
  - destruct (os_Open w _); [|by intros [= <- _ _]].
    destruct (MarshalJSON _); [|by intros [= <- _ _]].
    by destruct (File_Write _ _ _) as [? []]; intros [= <- _ _].
  - done.
Qed.

Lemma apply_seq_holds P txns e w e' w' :
  ptr_consistent P ->
  (forall f txn, txn ∈ txns -> Feature txn = Some f -> f ∈ P) ->
  spatial_holds_primary P e ->
  apply_seq e w txns = Returned (e', w') ->
  spatial_holds_primary P e'.
Proof.
  intros HP. revert e w.
  induction txns as [|txn rest IH]; intros e w Hin H0 E; simpl in E.
  - by injection E as <- _.
  - destruct (applyTransaction e w txn) as [[[e1 w1] r]|p] eqn:E1;
      simpl in E; [|done].
    eapply IH; [| |exact E].
    + intros f t Ht. apply Hin. by apply list_elem_of_further.
    + eapply applyTransaction_holds; [done| |done|exact E1].
      intros f Hf. eapply Hin; [apply list_elem_of_here|done].
Qed.

(** X8: one half of the lockstep of the two indices does hold.  From an
    engine with empty indices, after any sequence of transactions that
    [applyTransaction] accepts (pointers with one address being one
    pointer), every feature of the primary index is among the items of the
    spatial index: the identifiers of the primary index are among those a
    scan enumerates. *)
Theorem spatial_index_covers_primary
    (e : Engine) (w : World) (txns : list Transaction) :
  primary e = ∅ ->
  spatial e = [] ->
  Forall applicable txns ->
  ptr_consistent (omap Feature txns) ->
  exists e',
    apply_seq e w txns = Returned (e', w)
    /\ (forall id p, primary e' !! id = Some p ->
                     p ∈ rtree_Scan (spatial e'))
    /\ primary_ids e' ⊆ spatial_ids e'.
Proof.
  intros Hp Hs Ha HP.
  destruct (apply_seq_returns MarshalJSON e w txns Ha) as [e' E].
  exists e'. split; [done|].
  assert (spatial_holds_primary (omap Feature txns) e') as [Hprim _].
  { eapply apply_seq_holds; [exact HP| | |exact E].
    - intros f txn Ht Hf. apply list_elem_of_omap. eauto.
    - split.
      + intros id p. by rewrite Hp, lookup_empty.
      + intros q. rewrite Hs. by intros ?%elem_of_nil. }
  split.
  - intros id p Hl. by destruct (Hprim _ _ Hl).
  - intros id Hid. unfold primary_ids in Hid.
    apply elem_of_dom in Hid as [p Hl].
    destruct (Hprim _ _ Hl) as [Hidp Hin].
    unfold spatial_ids. apply elem_of_list_to_set, list_elem_of_omap.
    exists p. split; [done|]. unfold string_ID. by rewrite Hidp.
Qed.

Lemma with_files_id w : with_files w (files w) = w.
Proof. by destruct w. Qed.

Lemma encode_features_ok w file fs c :
  file_closed file = false ->
  file_writable file = true ->
  files w !! file_path file = Some c ->
  Forall (fun p => Feature_finite (pointee p) = true) fs ->
  encode_features w file fs
  = (with_files w
       (<[file_path file :=
            c ++ ((rec_txn ∘ checkpoint_record ∘ pointee) <$> fs)]>
          (files w)),
     None).
Proof.
  intros Hc Hw. revert w c.
  induction fs as [|p rest IH]; intros w c Hl Hfin.
  - simpl. by rewrite app_nil_r, insert_id, with_files_id.
  - apply Forall_cons in Hfin as [Hp Hrest].
    cbn [encode_features]. unfold json_Marshal. cbn [Feature]. rewrite Hp.
    unfold File_Write, file_contents. rewrite Hc, Hw, Hl.
    cbn [default id].
    rewrite (IH _ (c ++ [rec_txn (checkpoint_record (pointee p))])); try done.
    + simpl. rewrite insert_insert_eq. by rewrite <- app_assoc.
    + simpl. by rewrite lookup_insert_eq.
Qed.

Lemma encode_features_fails w file fs c :
  file_closed file = false ->
  file_writable file = true ->
  files w !! file_path file = Some c ->
  Exists (fun p => Feature_finite (pointee p) = false) fs ->
  exists pre,
    pre `prefix_of` fs /\ length pre < length fs
    /\ encode_features w file fs
       = (with_files w
            (<[file_path file :=
                 c ++ ((rec_txn ∘ checkpoint_record ∘ pointee) <$> pre)]>
               (files w)),
          Some (errorString "json: unsupported value")).
Proof.
  intros Hc Hw. revert w c.
  induction fs as [|p rest IH]; intros w c Hl Hex.
  - by apply Exists_nil in Hex.
  - cbn [encode_features]. unfold json_Marshal. cbn [Feature].
    destruct (Feature_finite (pointee p)) eqn:Hp.
    + apply Exists_cons in Hex as [Hex|Hex]; [congruence|].
      unfold File_Write, file_contents. rewrite Hc, Hw, Hl. cbn [default id].
      destruct (IH (with_files w
                      (<[file_path file :=
                           c ++ [rec_txn (json_record
                                   {| Action := "insert";
                                      Name := EmptyString; LSN := 0;
                                      Feature := Some p |})]]> (files w)))
                   (c ++ [rec_txn (checkpoint_record (pointee p))]))
        as (pre & Hpre & Hlen & ->); [by simpl; rewrite lookup_insert_eq|done|].
      exists (p :: pre). split; [by apply prefix_cons|].
      split; [simpl; lia|]. simpl.
      rewrite insert_insert_eq. by rewrite <- app_assoc.
    + exists []. split; [apply prefix_nil|]. split; [simpl; lia|].
      simpl. by rewrite app_nil_r, insert_id, with_files_id.
Qed.

Lemma check_ok (e : Engine) (w : World) :
  map_Forall (fun _ p => Feature_finite (pointee p) = true) (primary e) ->
  let snapshot :=
    (rec_txn ∘ checkpoint_record ∘ pointee) <$> drain (primary e) in
  length snapshot = size (primary e)
  /\ check e w
     = (with_files w
          (if file_closed (logFile e) || negb (file_writable (logFile e))
           then <[checkpointPath e := snapshot]> (files w)
           else <[file_path (logFile e) := []]>
                  (<[checkpointPath e := snapshot]> (files w))),
        None).
Proof.
  intros Hfin snapshot. split.
  { unfold snapshot, drain. rewrite !length_fmap. apply length_map_to_list. }
  unfold check, os_Create.
  rewrite (encode_features_ok _ _ _ []); try done.
  - simpl. rewrite insert_insert_eq. unfold File_Truncate.
    by destruct (file_closed (logFile e) || negb (file_writable (logFile e))).
  - simpl. by rewrite lookup_insert_eq.
  - unfold drain. apply Forall_fmap, Forall_forall. intros [k p] Hin.
    apply elem_of_map_to_list in Hin. by apply (Hfin k p).
Qed.

(** X9: when every feature of the primary index can be written as JSON,
    [check] returns no error; the checkpoint file then holds exactly one
    insert record per entry of the primary index, and the record log is
    emptied, unless its handle is closed or read-only, in which case the
    failure of the truncation is ignored and the log keeps its records. *)
Theorem check_writes_snapshot_and_truncates (e : Engine) (w : World) :
  map_Forall (fun _ p => Feature_finite (pointee p) = true) (primary e) ->
  let snapshot :=
    (rec_txn ∘ checkpoint_record ∘ pointee) <$> drain (primary e) in
  length snapshot = size (primary e)
  /\ check e w
     = (with_files w
          (if file_closed (logFile e) || negb (file_writable (logFile e))
           then <[checkpointPath e := snapshot]> (files w)
           else <[file_path (logFile e) := []]>
                  (<[checkpointPath e := snapshot]> (files w))),
        None).
Proof. apply check_ok. Qed.

(** X10: when some feature of the primary index cannot be written as JSON,
    [check] returns the error and leaves the record log as it is, but the
    checkpoint file has already been overwritten: it holds the records of
    fewer features than the primary index has, the previous snapshot is
    gone. *)
Theorem check_failure_keeps_log_loses_snapshot (e : Engine) (w : World) :
  (exists id p, primary e !! id = Some p
                /\ Feature_finite (pointee p) = false) ->
  exists pre err,
    check e w
    = (with_files w
         (<[checkpointPath e :=
              (rec_txn ∘ checkpoint_record ∘ pointee) <$> pre]> (files w)),
       Some err)
    /\ pre `prefix_of` drain (primary e)
    /\ length pre < size (primary e).
Proof.
  intros (id & p & Hl & Hp).
  unfold check, os_Create.
  destruct (encode_features_fails
              (with_files w (<[checkpointPath e := []]> (files w)))
              (log_handle (checkpointPath e)) (drain (primary e)) [])
    as (pre & Hpre & Hlen & ->); try done.
  - simpl. by rewrite lookup_insert_eq.
  - unfold drain. apply Exists_fmap, Exists_exists.
    exists (id, p). split; [by apply elem_of_map_to_list|done].
  - exists pre, (errorString "json: unsupported value"). simpl.
    rewrite insert_insert_eq. split; [done|]. split; [done|].
    unfold drain in Hlen. by rewrite length_fmap, length_map_to_list in Hlen.
Qed.

Lemma primary_step_reread m1 m2 txn txn' :
  Action txn' = Action txn ->
  match Feature txn with
  | Some f =>
      exists f', Feature txn' = Some f'
                 /\ pointee f' = json_reread (pointee f)
  | None => Feature txn' = None
  end ->
  keeps_ID json_reread txn ->
  reread_image json_reread m1 m2 ->
  reread_image json_reread (primary_step m1 txn) (primary_step m2 txn').
Proof.
  intros Ha Hf Hk HR. unfold primary_step. rewrite Ha.
  destruct (Feature txn) as [f|] eqn:Ef.
  - destruct Hf as (f' & -> & Hf'). specialize (Hk f Ef).
    rewrite Hf', Hk.
    destruct (switch_Action (Action txn)); try done;
      destruct (ID (pointee f)) as [|id| |]; try done; unfold reread_image in *.
    + rewrite !fmap_insert, HR. simpl. by rewrite Hf'.
    + by rewrite !fmap_delete, HR.
  - rewrite Hf. by destruct (switch_Action (Action txn)).
Qed.

Lemma Decode_matching w txn t :
  fits_uint64 t ->
  record_matches txn t ->
  exists w1 txn',
    Decode w (rec_txn t) = Some (w1, txn')
    /\ files w1 = files w
    /\ Action txn' = Action txn
    /\ match Feature txn with
       | Some f =>
           exists f', Feature txn' = Some f'
                      /\ pointee f' = json_reread (pointee f)
       | None => Feature txn' = None
       end.
Proof.
  intros Hfit [Ha Hf]. rewrite (Decode_fits json_reread w t Hfit), Hf.
  destruct (Feature txn) as [f|]; simpl.
  - do 2 eexists. repeat split; try done. simpl. eauto.
  - do 2 eexists. by repeat split.
Qed.

Lemma applicable_reread txn txn' :
  Action txn' = Action txn ->
  match Feature txn with
  | Some f =>
      exists f', Feature txn' = Some f'
                 /\ pointee f' = json_reread (pointee f)
  | None => Feature txn' = None
  end ->
  keeps_ID json_reread txn ->
  applicable txn -> applicable txn'.
Proof.
  unfold applicable. intros -> Hf Hk Ha.
  destruct (switch_Action (Action txn)); try done;
    destruct Ha as (f & id & Ef & Hid); rewrite Ef in Hf;
    destruct Hf as (f' & -> & Hf'); exists f', id; split; [done| |done|];
    by rewrite Hf', (Hk f Ef).
Qed.

(** The replay of records that hold given transactions does to the primary
    index what the transactions do, on the features as read back. *)
Lemma replay_matching txns ts e0 w m1 :
  Forall2 record_matches txns ts ->
  Forall fits_uint64 ts ->
  Forall applicable txns ->
  Forall (keeps_ID json_reread) txns ->
  reread_image json_reread m1 (primary e0) ->
  exists e2 w2,
    decode_loop e0 w (rec_txn <$> ts) = Returned (e2, w2)
    /\ files w2 = files w
    /\ reread_image json_reread (foldl primary_step m1 txns) (primary e2).
Proof.
  intros HF. revert e0 w m1.
  induction HF as [|txn t txns ts Hm _ IH]; intros e0 w m1 Hfit Ha Hk HR.
  - simpl. eauto.
  - apply Forall_cons in Ha as [Ha Has]. apply Forall_cons in Hk as [Hk Hks].
    apply Forall_cons in Hfit as [Ht Hfit].
    destruct (Decode_matching w txn t Ht Hm)
      as (w1 & txn' & Ed & Hw1 & Hact & Hf).
    cbn [fmap list_fmap decode_loop]. rewrite Ed.
    pose proof (applicable_reread txn txn' Hact Hf Hk Ha) as Ha'.
    destruct (applicable_returns MarshalJSON e0 w1 txn' Ha') as (e1 & r & E).
    rewrite E. simpl.
    destruct (IH e1 w1 (primary_step m1 txn) Hfit Has Hks)
      as (e2 & w2 & -> & ? & ?).
    { rewrite (applyTransaction_primary _ _ _ _ _ _ E).
      by apply primary_step_reread. }
    exists e2, w2. repeat split; [congruence|done].
Qed.

(** The replay of the records of a checkpoint adds one item to the spatial
    index for each record, in the order of the file. *)
Lemma replay_snapshot_spatial fs e0 w :
  Forall (fun f => exists id, ID (json_reread f) = any_string id) fs ->
  match decode_loop e0 w ((rec_txn ∘ checkpoint_record) <$> fs) with
  | Returned (e2, _) =>
      pointee <$> rtree_Scan (spatial e2)
      = (pointee <$> rtree_Scan (spatial e0)) ++ (json_reread <$> fs)
  | Panicked _ => False
  end.
Proof.
  intros HF. revert e0 w.
  induction HF as [|f fs [id Hid] _ IH]; intros e0 w.
  - simpl. by rewrite app_nil_r.
  - cbn [fmap list_fmap decode_loop compose Decode checkpoint_record
         json_feature json_action json_name json_lsn].
    unfold applyTransaction. simpl. rewrite Hid. simpl.
    match goal with
    | |- match decode_loop ?e ?w' _ with _ => _ end =>
        specialize (IH e w'); destruct (decode_loop e w' _) as [[e2 w2]|]
    end; [|done].
    rewrite IH. simpl. rewrite rtree_Scan_Insert, fmap_app. simpl.
    by rewrite <- app_assoc.
Qed.

Lemma foldl_insert_lookup (l : list (string * ptr_Feature))
    (m0 : gmap string ptr_Feature) k :
  NoDup l.*1 ->
  foldl (fun acc kp => <[kp.1 := kp.2]> acc) m0 l !! k
  = match (list_to_map l : gmap string ptr_Feature) !! k with
    | Some v => Some v
    | None => m0 !! k
    end.
Proof.
  revert m0. induction l as [|[k0 v0] l IH]; intros m0 Hnd; simpl.
  - by rewrite lookup_empty.
  - apply NoDup_cons in Hnd as [Hnotin Hnd]. rewrite IH by done.
    destruct (decide (k0 = k)) as [<-|Hne].
    + rewrite !lookup_insert_eq.
      by rewrite (not_elem_of_list_to_map_1 _ k0 Hnotin).
    + rewrite !lookup_insert_ne by done. done.
Qed.

Lemma foldl_checkpoint_txns (l : list (string * ptr_Feature))
    (m0 : gmap string ptr_Feature) :
  (forall k p, (k, p) ∈ l -> ID (pointee p) = any_string k) ->
  foldl primary_step m0 (checkpoint_txn <$> l.*2)
  = foldl (fun acc kp => <[kp.1 := kp.2]> acc) m0 l.
Proof.
  revert m0. induction l as [|[k p] l IH]; intros m0 Hk; simpl; [done|].
  assert (primary_step m0 (checkpoint_txn p) = <[k := p]> m0) as ->.
  { unfold primary_step. simpl.
    by rewrite (Hk k p (list_elem_of_here _ _)). }
  apply IH. intros k' p' Hin. apply Hk. by apply list_elem_of_further.
Qed.

Lemma replay_of_drain (m : gmap string ptr_Feature) :
  primary_keyed m ->
  foldl primary_step ∅ (checkpoint_txn <$> drain m) = m.
Proof.
  intros Hk. unfold drain. rewrite foldl_checkpoint_txns.
  - apply map_eq. intros k.
    rewrite foldl_insert_lookup by apply NoDup_fst_map_to_list.
    rewrite list_to_map_to_list. destruct (m !! k); [done|].
    by rewrite lookup_empty.
  - intros k p Hin. apply elem_of_map_to_list in Hin. by apply Hk.
Qed.

Lemma NewEngine_after_check e w lp cp :
  logFile e = log_handle lp ->
  checkpointPath e = cp ->
  lp <> cp ->
  primary_keyed (primary e) ->
  map_Forall (fun _ p => Feature_finite (pointee p) = true
                         /\ ID (json_reread (pointee p)) = ID (pointee p))
             (primary e) ->
  exists w1 w2 e2,
    check e w = (w1, None)
    /\ NewEngine w1 lp cp = Returned (w2, inl e2)
    /\ reread_image json_reread (primary e) (primary e2)
    /\ pointee <$> rtree_Scan (spatial e2)
       = (json_reread ∘ pointee) <$> drain (primary e).
Proof.
  intros Hl Hc Hne Hk Hall.
  destruct (check_ok e w) as [_ Hcheck].
  { intros k p Hp. by destruct (Hall k p Hp). }
  rewrite Hl, Hc in Hcheck. simpl in Hcheck.
  set (snapshot := (rec_txn ∘ checkpoint_record ∘ pointee) <$> drain (primary e)).
  set (w1 := with_files w (<[lp := []]> (<[cp := snapshot]> (files w)))).
  assert (files w1 !! lp = Some []) as Hlog
    by (simpl; apply lookup_insert_eq).
  assert (files w1 !! cp = Some snapshot) as Hcp.
  { simpl. rewrite lookup_insert_ne by done. apply lookup_insert_eq. }
  set (e0 := {| primary := ∅; spatial := []; lsn := 0;
                logFile := log_handle lp; checkpointPath := cp |}).
  assert (Forall (keeps_ID json_reread) (checkpoint_txn <$> drain (primary e))
          /\ Forall applicable (checkpoint_txn <$> drain (primary e))
          /\ Forall (fun f => exists id, ID (json_reread f) = any_string id)
                    (pointee <$> drain (primary e))) as (HkID & Happ & Hids).
  { unfold drain. rewrite <- !list_fmap_compose.
    repeat split; apply Forall_fmap, Forall_forall; intros [k p] Hin;
      apply elem_of_map_to_list in Hin;
      destruct (Hall k p Hin) as [_ Hid]; pose proof (Hk k p Hin) as Hkp;
      simpl.
    - by intros f [= <-].
    - exists p, k. by split.
    - exists k. by rewrite Hid. }
  destruct (replay_matching (checkpoint_txn <$> drain (primary e))
              ((checkpoint_record ∘ pointee) <$> drain (primary e))
              e0 w1 ∅) as (e1 & w1' & Hloop & Hfiles & HR); try done.
  { apply Forall2_fmap, Forall_Forall2_diag, Forall_forall.
    intros p _. by split. }
  { apply Forall_fmap, Forall_forall. intros p _. reflexivity. }
  rewrite replay_of_drain in HR by done.
  pose proof (replay_snapshot_spatial (pointee <$> drain (primary e)) e0 w1
                Hids) as Hsp.
  rewrite <- list_fmap_compose in Hsp.
  assert (((rec_txn ∘ checkpoint_record) ∘ pointee) <$> drain (primary e)
          = rec_txn <$> ((checkpoint_record ∘ pointee) <$> drain (primary e)))
    as Hsnap by (by rewrite <- list_fmap_compose).
  rewrite Hsnap, Hloop in Hsp. simpl in Hsp.
  pose proof (decode_loop_frame e0 w1
                (rec_txn <$> ((checkpoint_record ∘ pointee)
                                <$> drain (primary e)))) as F.
  rewrite Hloop in F. destruct F as (_ & _ & Hlf & _).
  assert (NewEngine w1 lp cp = Returned (w1', inl e1)) as HNew.
  { unfold NewEngine, os_OpenFile_append. rewrite Hlog.
    unfold loadCheckpoint, os_Open. cbn [checkpointPath]. rewrite Hcp.
    unfold file_contents. cbn [file_path]. rewrite Hcp. cbn [default id].
    fold e0. unfold snapshot. rewrite Hsnap, Hloop. simpl.
    unfold replayLog, file_contents. rewrite Hlf. simpl.
    rewrite Hfiles, Hlog. done. }
  exists w1, w1', e1. split; [exact Hcheck|].
  split; [exact HNew|]. split; [exact HR|].
  rewrite Hsp. by rewrite list_fmap_compose.
Qed.

(** X11: a checkpoint followed by a restart brings the two indices back in
    step.  When the primary index is keyed by the identifiers of its
    features, and each feature can be written as JSON and is read back with
    its identifier, [check] followed by [NewEngine] on the same files gives
    an engine whose primary index holds the same keys with the features as
    read back, and whose spatial index holds exactly one item per entry of
    the primary index: both enumerate the identifiers of the checkpointed
    primary index, whatever the spatial index held before. *)
Theorem checkpoint_restart_realigns_indices
    (e : Engine) (w : World) (lp cp : string) :
  logFile e = log_handle lp ->
  checkpointPath e = cp ->
  lp <> cp ->
  primary_keyed (primary e) ->
  map_Forall (fun _ p => Feature_finite (pointee p) = true
                         /\ ID (json_reread (pointee p)) = ID (pointee p))
             (primary e) ->
  exists w1 w2 e2,
    check e w = (w1, None)
    /\ NewEngine w1 lp cp = Returned (w2, inl e2)
    /\ reread_image json_reread (primary e) (primary e2)
    /\ pointee <$> rtree_Scan (spatial e2)
       = (json_reread ∘ pointee) <$> drain (primary e)
    /\ length (rtree_Scan (spatial e2)) = size (primary e)
    /\ primary_ids e2 = primary_ids e
    /\ spatial_ids e2 = primary_ids e.
Proof.
  intros Hl Hc Hne Hk Hall.
  destruct (NewEngine_after_check e w lp cp Hl Hc Hne Hk Hall)
    as (w1 & w2 & e2 & Hcheck & HNew & HR & Hsp).
  exists w1, w2, e2. repeat split; try done.
  - apply (f_equal length) in Hsp. rewrite !length_fmap in Hsp.
    rewrite Hsp. unfold drain. by rewrite length_fmap, length_map_to_list.
  - unfold primary_ids, reread_image in *.
    rewrite <- (dom_fmap_L pointee (primary e2)), HR. apply dom_fmap_L.
  - unfold spatial_ids, primary_ids. apply set_eq. intros id.
    rewrite elem_of_list_to_set, list_elem_of_omap, elem_of_dom. split.
    + intros (q & Hq & Hidq).
      assert (pointee q ∈ pointee <$> rtree_Scan (spatial e2)) as Hin
        by (by apply list_elem_of_fmap_2).
      rewrite Hsp in Hin. apply list_elem_of_fmap in Hin as (p & Hpq & Hp).
      unfold drain in Hp. apply list_elem_of_fmap in Hp as ([k p'] & -> & Hkp).
      apply elem_of_map_to_list in Hkp. simpl in *.
      destruct (Hall k p' Hkp) as [_ Hid]. pose proof (Hk k p' Hkp) as Hkey.
      unfold string_ID in Hidq. rewrite Hpq, Hid, Hkey in Hidq.
      injection Hidq as <-. eauto.
    + intros [p Hp].
      destruct (Hall id p Hp) as [_ Hid]. pose proof (Hk id p Hp) as Hkey.
      assert (json_reread (pointee p)
              ∈ pointee <$> rtree_Scan (spatial e2)) as Hin.
      { rewrite Hsp. apply (list_elem_of_fmap_2 (json_reread ∘ pointee)).
        unfold drain. apply (list_elem_of_fmap_2 snd _ (id, p)).
        by apply elem_of_map_to_list. }
      apply list_elem_of_fmap in Hin as (q & Hq & Hqin).
      exists q. split; [done|].
      unfold string_ID. by rewrite <- Hq, Hid, Hkey.
Qed.

Lemma uint64_add_shift n k :
  uint64_add (uint64_add n 1) k = uint64_add n (N.succ k).
Proof.
  unfold uint64_add. rewrite N.Div0.add_mod_idemp_l. f_equal. lia.
Qed.

Lemma saved_records_lsn n txns i t :
  saved_records n txns !! i = Some t ->
  json_lsn t = uint64_add n (N.of_nat (S i)).
Proof.
  revert n i. induction txns as [|txn rest IH]; intros n i; [done|].
  destruct i as [|i]; simpl.
  - by intros [= <-].
  - intros Hi. rewrite (IH _ _ Hi), uint64_add_shift. f_equal; lia.
Qed.

Lemma saved_records_matching n txns :
  Forall2 record_matches txns (saved_records n txns).
Proof.
  revert n. induction txns as [|txn rest IH]; intros n; simpl.
  - constructor.
  - constructor; [by split|apply IH].
Qed.

Lemma saved_records_fits n txns : Forall fits_uint64 (saved_records n txns).
Proof.
  revert n. induction txns as [|txn rest IH]; intros n; simpl.
  - constructor.
  - constructor; [|apply IH]. unfold fits_uint64, uint64_add. simpl.
    by apply N.mod_lt.
Qed.

Lemma save_seq_spec txns e w c :
  file_closed (logFile e) = false ->
  file_writable (logFile e) = true ->
  files w !! file_path (logFile e) = Some c ->
  Forall marshalable txns ->
  Forall applicable txns ->
  Forall (fun txn => Action txn <> "checkpoint") txns ->
  exists e1,
    save_seq e w txns
    = Completes
        (Returned
           (e1, with_files w
                  (<[file_path (logFile e) :=
                       c ++ (rec_txn <$> saved_records (lsn e) txns)]>
                     (files w))))
    /\ primary e1 = foldl primary_step (primary e) txns
    /\ lsn e1 = Nat.iter (length txns) (fun n => uint64_add n 1) (lsn e)
    /\ logFile e1 = logFile e
    /\ checkpointPath e1 = checkpointPath e.
Proof.
  intros Hc Hw. revert e w c Hc Hw.
  induction txns as [|txn rest IH]; intros e w c Hc Hw Hl Hm Ha Hn.
  - exists e. simpl. by rewrite app_nil_r, insert_id, with_files_id.
  - apply Forall_cons in Hm as [Hm Hms]. apply Forall_cons in Ha as [Ha Has].
    apply Forall_cons in Hn as [Hn Hns].
    destruct (saveTransaction_appends_then_applies_aux e w txn Hc Hw Hm Ha
                (or_introl Hn))
      as (e2 & r & Hsave & Happ & Hlsn & Hprim).
    pose proof (applyTransaction_returned_frame _ _ _ _ _ _ _ Happ)
      as (_ & _ & Hlf & Hcp). simpl in Hlf, Hcp.
    cbn [save_seq]. rewrite Hsave. simpl.
    unfold file_contents. rewrite Hl. cbn [default id].
    destruct (IH e2
                (with_files w
                   (<[file_path (logFile e) :=
                        c ++ [rec_txn (json_record
                                         (with_LSN txn
                                            (uint64_add (lsn e) 1)))]]>
                      (files w)))
                (c ++ [rec_txn (json_record
                                  (with_LSN txn (uint64_add (lsn e) 1)))]))
      as (e1 & -> & Hp1 & Hl1 & Hlf1 & Hcp1); try congruence.
    { rewrite Hlf. simpl. apply lookup_insert_eq. }
    exists e1. rewrite Hlf, Hlsn. simpl. rewrite insert_insert_eq.
    rewrite <- app_assoc. repeat split; try congruence.
    rewrite Hl1, Hlsn. symmetry.
    apply (Nat.iter_succ_r (length rest) (fun n => uint64_add n 1) (lsn e)).
Qed.

Lemma iter_uint64_add k n :
  (n < 2 ^ 64)%N ->
  Nat.iter k (fun n => uint64_add n 1) n = uint64_add n (N.of_nat k).
Proof.
  intros Hn. induction k as [|k IH].
  - simpl. unfold uint64_add. rewrite N.add_0_r. by rewrite N.mod_small.
  - rewrite Nat.iter_succ, IH. unfold uint64_add.
    rewrite N.Div0.add_mod_idemp_l. f_equal; lia.
Qed.

(** X12: calls of [saveTransaction] one after the other, on an open log and
    on transactions that can be written and applied and of which none is a
    checkpoint (on which the call can wait for ever on the mutex), all
    return; they append to the log one record per transaction, in the order
    of the calls, and change no other file; the record of the call number
    [i] (from 0) carries the sequence number [lsn + i + 1] modulo 2^64, and
    the engine ends at [lsn + length] modulo 2^64. *)
Theorem saves_append_consecutive_records
    (e : Engine) (w : World) (txns : list Transaction) (c : list record) :
  file_closed (logFile e) = false ->
  file_writable (logFile e) = true ->
  files w !! file_path (logFile e) = Some c ->
  (lsn e < 2 ^ 64)%N ->
  Forall marshalable txns ->
  Forall applicable txns ->
  Forall (fun txn => Action txn <> "checkpoint") txns ->
  exists e1 w1,
    save_seq e w txns = Completes (Returned (e1, w1))
    /\ files w1 !! file_path (logFile e)
       = Some (c ++ (rec_txn <$> saved_records (lsn e) txns))
    /\ (forall path, path <> file_path (logFile e) ->
                     files w1 !! path = files w !! path)
    /\ length (saved_records (lsn e) txns) = length txns
    /\ (forall i t, saved_records (lsn e) txns !! i = Some t ->
                    json_lsn t = ((lsn e + N.of_nat (S i)) mod 2 ^ 64)%N)
    /\ lsn e1 = ((lsn e + N.of_nat (length txns)) mod 2 ^ 64)%N.
Proof.
  intros Hc Hw Hl Hn Hm Ha Hnc.
  destruct (save_seq_spec txns e w c Hc Hw Hl Hm Ha Hnc)
    as (e1 & Hsave & _ & Hlsn & _ & _).
  eexists e1, _. split; [exact Hsave|]. simpl. repeat split.
  - apply lookup_insert_eq.
  - intros path Hp. by rewrite lookup_insert_ne.
  - pose proof (saved_records_matching (lsn e) txns) as Hlen.
    by apply Forall2_length in Hlen.
  - intros i t Hi. apply (saved_records_lsn _ _ _ _ Hi).
  - rewrite Hlsn. by apply iter_uint64_add.
Qed.

(** X13: the record log brings the primary index back.  On an engine with
    an empty primary index, an empty log and no checkpoint file, after calls
    of [saveTransaction] on transactions that can be written and applied,
    of which none is a checkpoint, and whose identifiers are read back as
    written, a new engine on the same files holds, under the same keys, the
    features of the primary index as read back from the log; its sequence
    number is 0 again. *)
Theorem log_replay_restores_primary
    (e : Engine) (w : World) (txns : list Transaction) (lp cp : string) :
  logFile e = log_handle lp ->
  checkpointPath e = cp ->
  lp <> cp ->
  files w !! lp = Some [] ->
  files w !! cp = None ->
  primary e = ∅ ->
  Forall marshalable txns ->
  Forall applicable txns ->
  Forall (fun txn => Action txn <> "checkpoint") txns ->
  Forall (keeps_ID json_reread) txns ->
  exists e1 w1 w2 e2,
    save_seq e w txns = Completes (Returned (e1, w1))
    /\ NewEngine w1 lp cp = Returned (w2, inl e2)
    /\ reread_image json_reread (primary e1) (primary e2)
    /\ primary_ids e2 = primary_ids e1
    /\ lsn e2 = 0%N.
Proof.
  intros Hl Hc Hne Hlog Hcp Hp Hm Ha Hnc Hk.
  destruct (save_seq_spec txns e w []) as (e1 & Hsave & Hp1 & _ & _ & _);
    try done; try (by rewrite Hl).
  rewrite Hl in Hsave. simpl in Hsave.
  set (w1 := with_files w
               (<[lp := rec_txn <$> saved_records (lsn e) txns]> (files w)))
    in *.
  assert (files w1 !! lp = Some (rec_txn <$> saved_records (lsn e) txns))
    as Hlog1 by (simpl; apply lookup_insert_eq).
  assert (files w1 !! cp = None) as Hcp1
    by (simpl; by rewrite lookup_insert_ne).
  clearbody w1.
  set (e0 := {| primary := ∅; spatial := []; lsn := 0;
                logFile := log_handle lp; checkpointPath := cp |}).
  destruct (replay_matching txns (saved_records (lsn e) txns) e0 w1 ∅)
    as (e2 & w2 & Hloop & Hfiles & HR); try done.
  { apply saved_records_matching. }
  { apply saved_records_fits. }
  rewrite Hp in Hp1. rewrite <- Hp1 in HR.
  pose proof (decode_loop_frame e0 w1
                (rec_txn <$> saved_records (lsn e) txns)) as F.
  rewrite Hloop in F. destruct F as (_ & Hlsn & _ & _).
  exists e1, w1, w2, e2. split; [exact Hsave|]. split.
  - unfold NewEngine, os_OpenFile_append. rewrite Hlog1.
    unfold loadCheckpoint, os_Open. cbn [checkpointPath]. rewrite Hcp1.
    simpl. unfold replayLog, file_contents. simpl. rewrite Hlog1. simpl.
    fold e0. by rewrite Hloop.
  - split; [exact HR|]. split; [|exact Hlsn].
    unfold primary_ids, reread_image in *.
    rewrite <- (dom_fmap_L pointee (primary e2)), HR. apply dom_fmap_L.
Qed.

(** X14: nothing a handler of the storage submits removes a feature.  When
    [applyTransaction] returns on a transaction that the insert, replace,
    delete, select or checkpoint handler submits, every identifier of the
    primary index is still in it and every item of the spatial index is
    still enumerated: through HTTP the two indices only grow. *)
Theorem handlers_never_remove
    (s : Storage) (txn : Transaction) (e : Engine) (w : World) :
  from_handler s txn ->
  switch_Action (Action txn) <> case_delete
  /\ match applyTransaction e w txn with
     | Returned (e', _, _) =>
         primary_ids e ⊆ primary_ids e'
         /\ (forall q, q ∈ rtree_Scan (spatial e) ->
                       q ∈ rtree_Scan (spatial e'))
         /\ length (rtree_Scan (spatial e))
            <= length (rtree_Scan (spatial e'))
     | Panicked _ => True
     end.
Proof.
  intros Hh.
  assert (switch_Action (Action txn) = case_upsert
          \/ switch_Action (Action txn) = case_select) as Hcase.
  { destruct Hh as [(w0 & body & w1 & H)|[(w0 & body & w1 & H)|
                   [(w0 & body & w1 & H)|[(rect & H)|H]]]].
    - unfold insertHandler in H. destruct body; [|done].
      injection H as _ <-. by left.
    - unfold replaceHandler in H. destruct body; [|done].
      injection H as _ <-. by left.
    - unfold deleteHandler in H. destruct body; [|done].
      injection H as _ <-. by left.
    - unfold selectHandler in H. destruct (_ <? _)%nat; [done|].
      injection H as <-. by right.
    - injection H as <-. by left. }
  split; [by destruct Hcase as [-> | ->]|].
  unfold applyTransaction. destruct Hcase as [-> | ->]; simpl.
  - destruct (Feature txn) as [f|]; simpl; [|done].
    destruct (ID (pointee f)) as [|id| |]; simpl; try done.
    rewrite rtree_Scan_Insert. repeat split.
    + unfold primary_ids. simpl. rewrite dom_insert_L. set_solver.
    + intros q Hq. apply elem_of_app. by left.
    + rewrite length_app. lia.
  - repeat split; done.
Qed.

(** X19: inserts and replaces pile up in the spatial index.  After any
    sequence of insert and replace transactions that [applyTransaction]
    accepts, a scan enumerates, in whatever order, the items it enumerated
    before and the feature of every transaction, one item per transaction
    whether or not its identifier was already there, while the primary
    index has gained only the identifiers. *)
Theorem upserts_pile_up_in_spatial
    (e : Engine) (w : World) (txns : list Transaction) :
  Forall (fun txn => switch_Action (Action txn) = case_upsert
                     /\ applicable txn) txns ->
  exists e',
    apply_seq e w txns = Returned (e', w)
    /\ rtree_Scan (spatial e') ≡ₚ rtree_Scan (spatial e) ++ omap Feature txns
    /\ length (rtree_Scan (spatial e'))
       = length (rtree_Scan (spatial e)) + length txns
    /\ primary_ids e'
       = primary_ids e ∪ list_to_set (omap string_ID (omap Feature txns)).
Proof.
  intros H. revert e. induction H as [|txn rest [Hup Ha] _ IH]; intros e.
  - exists e. simpl. rewrite app_nil_r, Nat.add_0_r.
    repeat split; try done. by rewrite (right_id_L ∅ (∪)).
  - unfold applicable in Ha. rewrite Hup in Ha.
    destruct Ha as (f & id & Hf & Hid).
    assert (applyTransaction e w txn
            = Returned
                (set_spatial (set_primary e (<[id := f]> (primary e)))
                   (rtree_Insert (spatial e)
                      (Min (BBox_Bound (BBox (pointee f))))
                      (Max (BBox_Bound (BBox (pointee f)))) f),
                 w, no_payload)) as E.
    { unfold applyTransaction. rewrite Hup, Hf. simpl. by rewrite Hid. }
    destruct (IH (set_spatial (set_primary e (<[id := f]> (primary e)))
                    (rtree_Insert (spatial e)
                       (Min (BBox_Bound (BBox (pointee f))))
                       (Max (BBox_Bound (BBox (pointee f)))) f)))
      as (e' & Hseq & Hscan & Hlen & Hids).
    exists e'. cbn [apply_seq]. rewrite E. cbn [mbind outcome_bind].
    split; [exact Hseq|].
    assert (omap Feature (txn :: rest) = f :: omap Feature rest) as ->
      by (simpl; by rewrite Hf).
    assert (omap string_ID (f :: omap Feature rest)
            = id :: omap string_ID (omap Feature rest)) as ->
      by (simpl; unfold string_ID at 1; by rewrite Hid).
    cbn [spatial set_spatial] in Hscan, Hlen.
    rewrite rtree_Scan_Insert in Hscan, Hlen.
    split; [by rewrite Hscan, <- app_assoc|].
    split; [rewrite Hlen, length_app; simpl; lia|].
    rewrite Hids. unfold primary_ids. cbn [primary set_spatial set_primary].
    rewrite dom_insert_L. cbn [list_to_set foldr].
    by rewrite (assoc_L (∪)), (comm_L (∪) _ {[id]}).
Qed.

End EngineProperties.

(** * Properties of the database file of the storage *)

Section StorageProperties.

Variable MarshalJSON : list geojson_Feature -> bytes + error.
Variable json_reread : geojson_Feature -> geojson_Feature.
Variable UnmarshalFeatureCollection
  : list record -> list (option geojson_Feature) + error.

Local Abbreviation applyTransaction := (applyTransaction MarshalJSON).
Local Abbreviation loadFromFile :=
  (loadFromFile UnmarshalFeatureCollection).
Local Abbreviation saveToFile := (saveToFile MarshalJSON).

Lemma new_Features_files w fs : files (new_Features w fs).1 = files w.
Proof.
  revert w. induction fs as [|[f|] rest IH]; intros w; simpl; [done| |].
  - specialize
      (IH {| files := files w; next_addr := Pos.succ (next_addr w) |}).
    by destruct (new_Features _ rest).
  - specialize (IH w). by destruct (new_Features w rest).
Qed.

Lemma new_Features_loadable w fs :
  Forall loadable fs ->
  exists ps,
    (new_Features w fs).2 = Some <$> ps
    /\ Forall2 (fun f p => f = Some (pointee p)) fs ps.
Proof.
  intros H. revert w. induction H as [|f rest (g & id & -> & _) _ IH];
    intros w; simpl.
  - exists []. by split.
  - destruct (IH {| files := files w; next_addr := Pos.succ (next_addr w) |})
      as (ps & Hps & HF).
    destruct (new_Features _ rest) as [w2 qs]. simpl in *. subst qs.
    exists ({| addr := next_addr w; pointee := g |} :: ps).
    split; [done|]. by constructor.
Qed.

Lemma fill_primary_fold (m : gmap string ptr_Feature) ps :
  Forall (fun p => exists id, ID (pointee p) = any_string id) ps ->
  fill_primary m (Some <$> ps)
  = Returned (foldl primary_step m (checkpoint_txn <$> ps)).
Proof.
  intros H. revert m. induction H as [|p rest [id Hid] _ IH]; intros m.
  - done.
  - assert (primary_step m (checkpoint_txn p) = <[id := p]> m) as Hstep.
    { unfold primary_step. simpl. by rewrite Hid. }
    cbn [fmap list_fmap foldl fill_primary deref mbind outcome_bind].
    rewrite Hid. cbn [assert_string]. rewrite Hstep. apply IH.
Qed.

Lemma fill_primary_panics (m : gmap string ptr_Feature) features :
  (exists p, fill_primary m features = Panicked p)
  <-> ~ Forall (fun f => loadable (pointee <$> f)) features.
Proof.
  revert m. induction features as [|f rest IH]; intros m; simpl.
  - split; [by intros [p ?]|]. intros H. destruct H. constructor.
  - destruct f as [q|]; simpl.
    + destruct (ID (pointee q)) as [|id| |] eqn:Ei; simpl;
        try (split; [intros _ HF; apply Forall_cons in HF as [(g & i & [= <-] & Hg) _];
                     congruence|eauto]).
      rewrite IH. split.
      * intros Hn HF. apply Hn. by apply Forall_cons in HF as [_ ?].
      * intros Hn HF. apply Hn. constructor; [|done]. exists (pointee q), id.
        by split.
    + split; [|eauto]. intros _ HF.
      by apply Forall_cons in HF as [(g & i & [=] & _) _].
Qed.

Lemma new_Features_pointee w fs :
  (fun f : option ptr_Feature => pointee <$> f) <$> (new_Features w fs).2
  = fs.
Proof.
  revert w. induction fs as [|[f|] rest IH]; intros w; simpl; [done| |].
  - specialize
      (IH {| files := files w; next_addr := Pos.succ (next_addr w) |}).
    destruct (new_Features _ rest) as [w2 ps]. simpl in *. by f_equal.
  - specialize (IH w). destruct (new_Features w rest) as [w2 ps].
    simpl in *. by f_equal.
Qed.


Lemma dom_foldl_checkpoint_txns (m : gmap string ptr_Feature) ps :
  Forall (fun p => exists id, ID (pointee p) = any_string id) ps ->
  dom (foldl primary_step m (checkpoint_txn <$> ps))
  = dom m ∪ list_to_set (omap string_ID ps).
Proof.
  intros H. revert m. induction H as [|p rest [id Hid] _ IH]; intros m; simpl.
  - by rewrite (right_id_L ∅ (∪)).
  - assert (primary_step m (checkpoint_txn p) = <[id := p]> m) as ->.
    { unfold primary_step. simpl. by rewrite Hid. }
    rewrite IH, dom_insert_L. unfold string_ID at 2. rewrite Hid.
    set_solver.
Qed.

(** X15: [loadFromFile] panics in these cases and no other: it has not run
    yet, the database file exists, and the file does not decode (the nil
    collection is then dereferenced) or the decoded collection has a feature
    that is nil or whose identifier is not a string. *)
Theorem loadFromFile_panics_exactly
    (loadOnce : bool) (s : Storage) (w : World) :
  (exists p, loadFromFile loadOnce s w = Panicked p)
  <-> loadOnce = false
      /\ exists data,
           files w !! dbFile s = Some data
           /\ match UnmarshalFeatureCollection data with
              | inr _ => True
              | inl col => ~ Forall loadable col
              end.
Proof.
  unfold loadFromFile. destruct loadOnce.
  { split; [by intros [p ?]|by intros [? _]]. }
  destruct (files w !! dbFile s) as [data|].
  2:{ split; [by intros [p ?]|by intros [_ (? & ? & _)]]. }
  destruct (UnmarshalFeatureCollection data) as [col|err] eqn:Eu.
  - pose proof (new_Features_pointee w col) as Hcol.
    destruct (new_Features w col) as [w1 features]. simpl in Hcol.
    pose proof (fill_primary_panics ∅ features) as Hfill.
    assert (Forall loadable col
            <-> Forall (fun f : option ptr_Feature => loadable (pointee <$> f))
                       features) as Hiff
      by (by rewrite <- Hcol, Forall_fmap).
    split.
    + intros [p Hp]. split; [done|]. exists data. split; [done|].
      rewrite Eu, Hiff. apply Hfill.
      destruct (fill_primary ∅ features); [done|eauto].
    + intros (_ & data' & [= <-] & Hn). rewrite Eu, Hiff in Hn.
      apply Hfill in Hn as [p Hp]. rewrite Hp. eauto.
  - split; [|eauto]. intros _. split; [done|]. exists data. by rewrite Eu.
Qed.


Lemma foldl_checkpoint_reread ps ps' (m1 m2 : gmap string ptr_Feature) :
  Forall2 (fun p p' => pointee p' = json_reread (pointee p)) ps ps' ->
  Forall (fun p => ID (json_reread (pointee p)) = ID (pointee p)) ps ->
  reread_image json_reread m1 m2 ->
  reread_image json_reread
    (foldl primary_step m1 (checkpoint_txn <$> ps))
    (foldl primary_step m2 (checkpoint_txn <$> ps')).
Proof.
  intros HF. revert m1 m2. induction HF as [|p p' ps ps' Hp _ IH];
    intros m1 m2 Hk HR; simpl; [done|].
  apply Forall_cons in Hk as [Hkp Hk]. apply IH; [done|].
  apply primary_step_reread; try done.
  - simpl. eauto.
  - intros f [= <-]. done.
Qed.

Lemma saveToFile_files s w data :
  MarshalJSON (pointee <$> drain (primary (eng s))) = inl data ->
  saveToFile s w
  = with_files w (<[dbFile s := [rec_collection data]]> (files w)).
Proof.
  intros Hm. unfold saveToFile, os_Create. rewrite Hm.
  unfold File_Write, file_contents. simpl. rewrite lookup_insert_eq. simpl.
  by rewrite insert_insert_eq.
Qed.

Lemma load_after_save s s2 w2 data :
  primary_keyed (primary (eng s)) ->
  map_Forall (fun _ p => ID (json_reread (pointee p)) = ID (pointee p))
             (primary (eng s)) ->
  UnmarshalFeatureCollection [rec_collection data]
  = inl ((Some ∘ json_reread ∘ pointee) <$> drain (primary (eng s))) ->
  files w2 !! dbFile s2 = Some [rec_collection data] ->
  exists s3 w3,
    loadFromFile false s2 w2 = Returned (true, s3, w3)
    /\ files w3 = files w2
    /\ reread_image json_reread (primary (eng s)) (primary (eng s3))
    /\ primary_ids (eng s3) = primary_ids (eng s)
    /\ spatial (eng s3) = spatial (eng s2).
Proof.
  intros Hk Hid Hu Hfile. unfold loadFromFile. rewrite Hfile, Hu.
  set (col := (Some ∘ json_reread ∘ pointee) <$> drain (primary (eng s))).
  assert (Forall loadable col) as Hload.
  { unfold col, drain. rewrite <- list_fmap_compose.
    apply Forall_fmap, Forall_forall. intros [k p] Hin.
    apply elem_of_map_to_list in Hin. simpl.
    exists (json_reread (pointee p)), k. split; [done|].
    by rewrite (Hid k p Hin), (Hk k p Hin). }
  pose proof (new_Features_files w2 col) as Hfiles.
  destruct (new_Features_loadable w2 col Hload) as (ps & Hps & HF).
  destruct (new_Features w2 col) as [w3 features]. simpl in *. subst features.
  assert (Forall2 (fun p p' => pointee p' = json_reread (pointee p))
                  (drain (primary (eng s))) ps) as HF2.
  { unfold col in HF. apply Forall2_fmap_l in HF.
    eapply Forall2_impl; [exact HF|]. simpl. by intros p p' [= ->]. }
  assert (Forall (fun p => ID (json_reread (pointee p)) = ID (pointee p))
                 (drain (primary (eng s)))) as HkID.
  { unfold drain. apply Forall_fmap, Forall_forall. intros [k p] Hin.
    apply elem_of_map_to_list in Hin. by apply (Hid k p). }
  assert (Forall (fun p => exists id, ID (pointee p) = any_string id) ps)
    as Hids.
  { clear -HF Hload. induction HF as [|f p fs ps Hfp _ IH]; [constructor|].
    apply Forall_cons in Hload as [(g & id & Hg & Hgid) Hrest].
    constructor; [|by apply IH]. exists id. congruence. }
  rewrite (fill_primary_fold _ _ Hids). simpl.
  pose proof (foldl_checkpoint_reread _ _ ∅ ∅ HF2 HkID) as HR.
  rewrite replay_of_drain in HR by done.
  eexists _, _. split; [reflexivity|]. simpl. repeat split; try done.
  - apply HR. unfold reread_image. by rewrite !fmap_empty.
  - unfold primary_ids, reread_image in *. simpl.
    rewrite <- (dom_fmap_L pointee (foldl _ _ _)), HR.
    + apply dom_fmap_L.
    + by rewrite !fmap_empty.
Qed.

(** X17: the database file brings the primary index back, and only it.
    When the primary index is keyed by the identifiers of its features,
    the collection is written and read back feature by feature, and the
    identifiers are read back as written, [saveToFile] followed by the first
    [loadFromFile] of a storage on the same database file gives that
    storage the keys of the saved primary index with the features as read
    back; its spatial index is not touched. *)
Theorem saveToFile_loadFromFile_round_trip
    (s s2 : Storage) (w : World) (data : bytes) :
  primary_keyed (primary (eng s)) ->
  map_Forall (fun _ p => ID (json_reread (pointee p)) = ID (pointee p))
             (primary (eng s)) ->
  MarshalJSON (pointee <$> drain (primary (eng s))) = inl data ->
  UnmarshalFeatureCollection [rec_collection data]
  = inl ((Some ∘ json_reread ∘ pointee) <$> drain (primary (eng s))) ->
  dbFile s2 = dbFile s ->
  exists s3 w3,
    loadFromFile false s2 (saveToFile s w) = Returned (true, s3, w3)
    /\ files w3 = <[dbFile s := [rec_collection data]]> (files w)
    /\ reread_image json_reread (primary (eng s)) (primary (eng s3))
    /\ primary_ids (eng s3) = primary_ids (eng s)
    /\ spatial (eng s3) = spatial (eng s2).
Proof.
  intros Hk Hid Hm Hu Hdb. rewrite (saveToFile_files s w data Hm).
  destruct (load_after_save s s2
              (with_files w (<[dbFile s := [rec_collection data]]> (files w)))
              data Hk Hid Hu) as (s3 & w3 & Hload & Hfiles & HR & Hids & Hsp).
  { rewrite Hdb. simpl. apply lookup_insert_eq. }
  exists s3, w3. by repeat split.
Qed.

Lemma NewEngine_empty_log w lp cp :
  files w !! lp = Some [] ->
  files w !! cp = None ->
  NewEngine MarshalJSON json_reread w lp cp
  = Returned
      (w, inl {| primary := ∅; spatial := []; lsn := 0;
                 logFile := log_handle lp; checkpointPath := cp |}).
Proof.
  intros Hl Hc. unfold NewEngine, os_OpenFile_append. rewrite Hl.
  unfold loadCheckpoint, os_Open. simpl. rewrite Hc. simpl.
  unfold replayLog, file_contents. simpl. by rewrite Hl.
Qed.

(** X18: a stop and a restart of a storage used through its run loop only.
    On a first start (no log, no checkpoint, no database file) the run loop
    applies transactions; [Stop] writes the database file; the next start
    finds an empty log and no checkpoint, and the first [loadFromFile]
    brings back the keys of the primary index with the features as read
    back.  The spatial index of the restarted engine is empty, so a select
    returns the serialization of the empty collection, whatever the primary
    index holds. *)
Theorem restart_restores_primary_not_select
    (w0 : World) (nm db : string) (txns : list Transaction) (e2 : Engine)
    (data : bytes) :
  let w1 := with_files w0 (<["engine.log" := []]> (files w0)) in
  let e0 := {| primary := ∅; spatial := []; lsn := 0;
               logFile := log_handle "engine.log";
               checkpointPath := "engine.checkpoint" |} in
  files w0 !! "engine.log" = None ->
  files w0 !! "engine.checkpoint" = None ->
  files w0 !! db = None ->
  db <> "engine.log" ->
  db <> "engine.checkpoint" ->
  apply_seq MarshalJSON e0 w1 txns = Returned (e2, w1) ->
  map_Forall (fun _ p => ID (json_reread (pointee p)) = ID (pointee p))
             (primary e2) ->
  MarshalJSON (pointee <$> drain (primary e2)) = inl data ->
  UnmarshalFeatureCollection [rec_collection data]
  = inl ((Some ∘ json_reread ∘ pointee) <$> drain (primary e2)) ->
  exists s1 s2 w3 s4 s5 w5,
    NewStorage MarshalJSON json_reread w0 nm db = Returned (w1, s1)
    /\ Storage_Run MarshalJSON UnmarshalFeatureCollection false s1 w1
         (job <$> txns)
       = Returned (true, s2, w1)
    /\ eng s2 = e2
    /\ Storage_Stop MarshalJSON s2 w1 = w3
    /\ NewStorage MarshalJSON json_reread w3 nm db = Returned (w3, s4)
    /\ loadFromFile false s4 w3 = Returned (true, s5, w5)
    /\ reread_image json_reread (primary e2) (primary (eng s5))
    /\ primary_ids (eng s5) = primary_ids e2
    /\ spatial (eng s5) = []
    /\ forall nm' n ft,
         applyTransaction (eng s5) w5
           {| Action := "select"; Name := nm'; LSN := n; Feature := ft |}
         = Returned (eng s5, w5, Collection_MarshalJSON MarshalJSON []).
Proof.
  intros w1 e0 Hlog Hcp Hdb Hne1 Hne2 Happ Hid Hm Hu.
  set (s1 := {| name := nm; dbFile := db; eng := e0 |}).
  set (s2 := {| name := nm; dbFile := db; eng := e2 |}).
  set (w3 := with_files w1 (<[db := [rec_collection data]]> (files w1))).
  assert (primary_keyed (primary e2)) as Hk.
  { pose proof (apply_seq_keyed MarshalJSON e0 w1 txns) as H.
    rewrite Happ in H. apply H. intros id p. unfold e0. simpl.
    by rewrite lookup_empty. }
  assert (files w3 !! db = Some [rec_collection data]) as Hdb3
    by (simpl; apply lookup_insert_eq).
  assert (files w3 !! "engine.log" = Some []) as Hlog3.
  { simpl. rewrite lookup_insert_ne by done. apply lookup_insert_eq. }
  assert (files w3 !! "engine.checkpoint" = None) as Hcp3.
  { simpl. by rewrite !lookup_insert_ne. }
  assert (files w1 !! db = None) as Hdb1.
  { simpl. by rewrite lookup_insert_ne. }
  destruct (load_after_save s2 s1 w3 data Hk Hid Hu Hdb3)
    as (s5 & w5 & Hload & Hfiles & HR & Hids & Hsp).
  assert (NewStorage MarshalJSON json_reread w0 nm db = Returned (w1, s1))
    as H1.
  { unfold NewStorage.
    by rewrite (NewEngine_first_start MarshalJSON json_reread w0
                  "engine.log" "engine.checkpoint"). }
  assert (Storage_Run MarshalJSON UnmarshalFeatureCollection false s1 w1
            (job <$> txns) = Returned (true, s2, w1)) as H2.
  { unfold Storage_Run, loadFromFile. change (dbFile s1) with db.
    rewrite Hdb1. cbn [mbind outcome_bind]. change (eng s1) with e0.
    by rewrite (Run_jobs MarshalJSON), Happ. }
  assert (Storage_Stop MarshalJSON s2 w1 = w3) as H4.
  { unfold Storage_Stop. by rewrite (saveToFile_files s2 w1 data Hm). }
  assert (NewStorage MarshalJSON json_reread w3 nm db = Returned (w3, s1))
    as H5.
  { unfold NewStorage.
    by rewrite (NewEngine_empty_log w3 "engine.log" "engine.checkpoint"). }
  exists s1, s2, w3, s1, s5, w5.
  repeat split; try done.
  intros nm' n ft. unfold applyTransaction. simpl. by rewrite Hsp.
Qed.

End StorageProperties.

(** * Instances of the further properties *)

Lemma sample_txns_applicable : Forall applicable sample_txns.
Proof.
  repeat (constructor; [do 2 eexists; split; reflexivity|]). constructor.
Qed.

Lemma sample_txns_marshalable : Forall marshalable sample_txns.
Proof. repeat (constructor; [reflexivity|]). constructor. Qed.

Lemma sample_txns_consistent : ptr_consistent (omap Feature sample_txns).
Proof.
  intros p q Hp Hq Ha. simpl in Hp, Hq.
  repeat (apply elem_of_cons in Hp as [->|Hp]);
    repeat (apply elem_of_cons in Hq as [->|Hq]);
    try done; try (by apply elem_of_nil in Hp); by apply elem_of_nil in Hq.
Qed.


Lemma saveTransaction_failure_consumes_lsn_witness :
  let e := set_logFile empty_engine (File_Close (logFile empty_engine)) in
  let txn := txn_of "insert" (Some feature_p1) in
  file_closed (logFile e) = true
  /\ exists err,
       saveTransaction sample_MarshalJSON e sample_world txn
       = Completes
           (Returned (set_lsn e 1, sample_world, with_LSN txn 1, Some err)).
Proof.
  intros e txn. split; [reflexivity|].
  apply (saveTransaction_failure_consumes_lsn sample_MarshalJSON e
           sample_world txn).
  left. reflexivity.
Defined.

Lemma spatial_index_covers_primary_witness :
  Forall applicable sample_txns
  /\ ptr_consistent (omap Feature sample_txns)
  /\ exists e',
       apply_seq sample_MarshalJSON empty_engine sample_world sample_txns
       = Returned (e', sample_world)
       /\ primary_ids e' ⊆ spatial_ids e'.
Proof.
  split; [exact sample_txns_applicable|].
  split; [exact sample_txns_consistent|].
  destruct (spatial_index_covers_primary sample_MarshalJSON empty_engine
              sample_world sample_txns eq_refl eq_refl
              sample_txns_applicable sample_txns_consistent)
    as (e' & Hs & _ & Hsub).
  exists e'. split; [exact Hs|exact Hsub].
Defined.

Lemma engine_with_p1_finite :
  map_Forall (fun _ p => Feature_finite (pointee p) = true)
             (primary (engine_with feature_p1 "p1")).
Proof.
  intros k p H. simpl in H. apply lookup_singleton_Some in H as [<- <-].
  reflexivity.
Qed.

Lemma check_writes_snapshot_and_truncates_witness :
  let e := engine_with feature_p1 "p1" in
  map_Forall (fun _ p => Feature_finite (pointee p) = true) (primary e)
  /\ check e sample_world
     = (with_files sample_world
          (<["engine.log" := []]>
             (<["engine.checkpoint" :=
                  (rec_txn ∘ checkpoint_record ∘ pointee)
                    <$> drain (primary e)]> (files sample_world))),
        None).
Proof.
  intros e. split; [exact engine_with_p1_finite|].
  apply (check_writes_snapshot_and_truncates e sample_world
           engine_with_p1_finite).
Defined.

Lemma check_failure_keeps_log_loses_snapshot_witness :
  let e := engine_with feature_bad "bad" in
  (primary e !! "bad" = Some feature_bad
   /\ Feature_finite (pointee feature_bad) = false)
  /\ exists pre err,
       check e sample_world
       = (with_files sample_world
            (<["engine.checkpoint" :=
                 (rec_txn ∘ checkpoint_record ∘ pointee) <$> pre]>
               (files sample_world)),
          Some err)
       /\ length pre < size (primary e).
Proof.
  intros e.
  assert (primary e !! "bad" = Some feature_bad
          /\ Feature_finite (pointee feature_bad) = false) as H
    by (split; reflexivity).
  split; [exact H|].
  destruct (check_failure_keeps_log_loses_snapshot e sample_world)
    as (pre & err & Hc & _ & Hlen).
  { exists "bad", feature_bad. exact H. }
  exists pre, err. split; [exact Hc|exact Hlen].
Defined.

Lemma engine_with_p1_keyed :
  primary_keyed (primary (engine_with feature_p1 "p1")).
Proof.
  intros k p H. simpl in H. apply lookup_singleton_Some in H as [<- <-].
  reflexivity.
Qed.

Lemma engine_with_p1_reread :
  map_Forall (fun _ p => Feature_finite (pointee p) = true
                         /\ ID (sample_reread (pointee p)) = ID (pointee p))
             (primary (engine_with feature_p1 "p1")).
Proof.
  intros k p H. simpl in H. apply lookup_singleton_Some in H as [<- <-].
  split; reflexivity.
Qed.

Lemma checkpoint_restart_realigns_indices_witness :
  let e := engine_with feature_p1 "p1" in
  primary_keyed (primary e)
  /\ "engine.log" <> "engine.checkpoint"
  /\ exists w1 w2 e2,
       check e sample_world = (w1, None)
       /\ NewEngine sample_MarshalJSON sample_reread w1
            "engine.log" "engine.checkpoint"
          = Returned (w2, inl e2)
       /\ primary_ids e2 = primary_ids e
       /\ spatial_ids e2 = primary_ids e.
Proof.
  intros e. split; [exact engine_with_p1_keyed|].
  assert ("engine.log" <> "engine.checkpoint") as Hne by discriminate.
  split; [exact Hne|].
  destruct (checkpoint_restart_realigns_indices sample_MarshalJSON
              sample_reread e sample_world "engine.log" "engine.checkpoint"
              eq_refl eq_refl Hne engine_with_p1_keyed engine_with_p1_reread)
    as (w1 & w2 & e2 & Hc & Hn & _ & _ & _ & Hp & Hs).
  exists w1, w2, e2. repeat split; assumption.
Defined.

Lemma sample_txns_no_checkpoint :
  Forall (fun txn => Action txn <> "checkpoint") sample_txns.
Proof. repeat (constructor; [discriminate|]). constructor. Qed.

Lemma saves_append_consecutive_records_witness :
  Forall marshalable sample_txns /\ Forall applicable sample_txns
  /\ Forall (fun txn => Action txn <> "checkpoint") sample_txns
  /\ (lsn empty_engine < 2 ^ 64)%N
  /\ exists e1 w1,
       save_seq sample_MarshalJSON empty_engine sample_world sample_txns
       = Completes (Returned (e1, w1))
       /\ files w1 !! "engine.log"
          = Some (rec_txn <$> saved_records 0 sample_txns)
       /\ lsn e1 = 3%N.
Proof.
  split; [exact sample_txns_marshalable|].
  split; [exact sample_txns_applicable|].
  split; [exact sample_txns_no_checkpoint|].
  assert (lsn empty_engine < 2 ^ 64)%N as Hn by reflexivity.
  split; [exact Hn|].
  destruct (saves_append_consecutive_records sample_MarshalJSON empty_engine
              sample_world sample_txns [] eq_refl eq_refl eq_refl Hn
              sample_txns_marshalable sample_txns_applicable
              sample_txns_no_checkpoint)
    as (e1 & w1 & Hs & Hf & _ & _ & _ & Hl).
  exists e1, w1. split; [exact Hs|]. split; [exact Hf|exact Hl].
Defined.

Lemma sample_txns_keep_ID : Forall (keeps_ID sample_reread) sample_txns.
Proof. repeat (constructor; [by intros f _|]). constructor. Qed.

Lemma log_replay_restores_primary_witness :
  Forall (keeps_ID sample_reread) sample_txns
  /\ files sample_world !! "engine.checkpoint" = None
  /\ exists e1 w1 w2 e2,
       save_seq sample_MarshalJSON empty_engine sample_world sample_txns
       = Completes (Returned (e1, w1))
       /\ NewEngine sample_MarshalJSON sample_reread w1
            "engine.log" "engine.checkpoint"
          = Returned (w2, inl e2)
       /\ primary_ids e2 = primary_ids e1
       /\ lsn e2 = 0%N.
Proof.
  split; [exact sample_txns_keep_ID|]. split; [reflexivity|].
  assert ("engine.log" <> "engine.checkpoint") as Hne by discriminate.
  destruct (log_replay_restores_primary sample_MarshalJSON sample_reread
              empty_engine sample_world sample_txns
              "engine.log" "engine.checkpoint"
              eq_refl eq_refl Hne eq_refl eq_refl eq_refl
              sample_txns_marshalable sample_txns_applicable
              sample_txns_no_checkpoint sample_txns_keep_ID)
    as (e1 & w1 & w2 & e2 & Hs & Hn & _ & Hp & Hl).
  exists e1, w1, w2, e2. repeat split; assumption.
Defined.

Lemma handlers_never_remove_witness :
  let s := sample_storage (engine_with feature_p1 "p1") in
  let txn :=
    {| Action := "replace"; Name := "storage"; LSN := 0;
       Feature := Some {| addr := 1;
                          pointee := with_ID zero_Feature
                                       (any_string "p1") |} |} in
  from_handler s txn
  /\ switch_Action (Action txn) <> case_delete
  /\ match applyTransaction sample_MarshalJSON (eng s) sample_world txn with
     | Returned (e', _, _) =>
         primary_ids (eng s) ⊆ primary_ids e'
         /\ (forall q, q ∈ rtree_Scan (spatial (eng s)) ->
                       q ∈ rtree_Scan (spatial e'))
         /\ length (rtree_Scan (spatial (eng s)))
            <= length (rtree_Scan (spatial e'))
     | Panicked _ => True
     end.
Proof.
  intros s txn.
  assert (from_handler s txn) as Hh.
  { right. right. left. exists sample_world, (Some "p1"). eexists.
    reflexivity. }
  split; [exact Hh|].
  exact (handlers_never_remove sample_MarshalJSON s txn (eng s) sample_world
           Hh).
Defined.

Lemma upserts_pile_up_in_spatial_witness :
  Forall (fun txn => switch_Action (Action txn) = case_upsert
                     /\ applicable txn) sample_upserts
  /\ exists e',
       apply_seq sample_MarshalJSON empty_engine sample_world sample_upserts
       = Returned (e', sample_world)
       /\ rtree_Scan (spatial e') ≡ₚ [feature_p2; feature_p2']
       /\ length (rtree_Scan (spatial e')) = 2
       /\ primary_ids e' = primary_ids empty_engine ∪ {[ "p2"; "p2" ]}.
Proof.
  assert (Forall (fun txn => switch_Action (Action txn) = case_upsert
                             /\ applicable txn) sample_upserts) as H.
  { repeat (constructor;
            [split; [reflexivity|do 2 eexists; split; reflexivity]|]).
    constructor. }
  split; [exact H|].
  destruct (upserts_pile_up_in_spatial sample_MarshalJSON empty_engine
              sample_world sample_upserts H)
    as (e' & Hs & Hscan & Hlen & Hids).
  exists e'. split; [exact Hs|]. split; [exact Hscan|].
  split; [exact Hlen|].
  rewrite Hids. simpl. by rewrite (right_id_L ∅ (∪)).
Defined.


Lemma engine_with_p1_keeps_ID :
  map_Forall (fun _ p => ID (sample_reread (pointee p)) = ID (pointee p))
             (primary (engine_with feature_p1 "p1")).
Proof.
  intros k p H. simpl in H. apply lookup_singleton_Some in H as [<- <-].
  reflexivity.
Qed.

Lemma saveToFile_loadFromFile_round_trip_witness :
  let s := sample_storage (engine_with feature_p1 "p1") in
  let s2 := sample_storage empty_engine in
  let data := list_byte_of_string "p1" in
  sample_MarshalJSON (pointee <$> drain (primary (eng s))) = inl data
  /\ sample_Unmarshal [rec_collection data]
     = inl ((Some ∘ sample_reread ∘ pointee) <$> drain (primary (eng s)))
  /\ exists s3 w3,
       loadFromFile sample_Unmarshal false s2
         (saveToFile sample_MarshalJSON s sample_world)
       = Returned (true, s3, w3)
       /\ primary_ids (eng s3) = primary_ids (eng s)
       /\ spatial (eng s3) = spatial (eng s2).
Proof.
  intros s s2 data.
  assert (sample_MarshalJSON (pointee <$> drain (primary (eng s)))
          = inl data) as Hm by reflexivity.
  assert (sample_Unmarshal [rec_collection data]
          = inl ((Some ∘ sample_reread ∘ pointee)
                   <$> drain (primary (eng s)))) as Hu by reflexivity.
  split; [exact Hm|]. split; [exact Hu|].
  destruct (saveToFile_loadFromFile_round_trip sample_MarshalJSON
              sample_reread sample_Unmarshal s s2 sample_world data
              engine_with_p1_keyed engine_with_p1_keeps_ID Hm Hu eq_refl)
    as (s3 & w3 & Hload & _ & _ & Hids & Hsp).
  exists s3, w3. repeat split; assumption.
Defined.

Lemma restart_restores_primary_not_select_witness :
  let e2 := engine_with feature_p1 "p1" in
  let w1 := with_files fresh_world (<["engine.log" := []]> (files fresh_world)) in
  let txns := [txn_of "insert" (Some feature_p1)] in
  apply_seq sample_MarshalJSON empty_engine w1 txns = Returned (e2, w1)
  /\ exists s5 w5,
       primary_ids (eng s5) = primary_ids e2
       /\ spatial (eng s5) = []
       /\ forall nm' n ft,
            applyTransaction sample_MarshalJSON (eng s5) w5
              {| Action := "select"; Name := nm'; LSN := n; Feature := ft |}
            = Returned (eng s5, w5,
                        Collection_MarshalJSON sample_MarshalJSON []).
Proof.
  intros e2 w1 txns.
  assert (apply_seq sample_MarshalJSON empty_engine w1 txns
          = Returned (e2, w1)) as Happ by reflexivity.
  split; [exact Happ|].
  assert ("geo.db.json" <> "engine.log") as Hne1 by discriminate.
  assert ("geo.db.json" <> "engine.checkpoint") as Hne2 by discriminate.
  destruct (restart_restores_primary_not_select sample_MarshalJSON
              sample_reread sample_Unmarshal fresh_world "storage"
              "geo.db.json" txns e2 (list_byte_of_string "p1")
              eq_refl eq_refl eq_refl Hne1 Hne2 Happ
              engine_with_p1_keeps_ID eq_refl eq_refl)
    as (s1 & s2 & w3 & s4 & s5 & w5 & _ & _ & _ & _ & _ & _ & _ & Hids
        & Hsp & Hsel).
  exists s5, w5. split; [exact Hids|]. split; [exact Hsp|exact Hsel].
Defined.

(** * The handlers and the engine together *)

Section HandlerProperties.

Variable MarshalJSON : list geojson_Feature -> bytes + error.

(** X20: the insert and replace handlers submit whatever feature the body
    decodes to; when its identifier is not a string (a number, or none),
    [applyTransaction] panics on the submitted transaction with a failed
    type assertion, on every engine, and the loop of [Run] that takes it
    from [jobs] panics with it. *)
Theorem handlers_submit_unchecked_ID
    (s : Storage) (w : World) (f : geojson_Feature) (e : Engine)
    (w' : World) (evs : list event) :
  (forall id, ID f <> any_string id) ->
  exists w1 txn1 txn2,
    insertHandler s w (Some f) = (w1, submitted txn1)
    /\ replaceHandler s w (Some f) = (w1, submitted txn2)
    /\ applyTransaction MarshalJSON e w' txn1 = Panicked type_assertion
    /\ applyTransaction MarshalJSON e w' txn2 = Panicked type_assertion
    /\ Run MarshalJSON e w' (job txn1 :: evs) = Panicked type_assertion
    /\ Run MarshalJSON e w' (job txn2 :: evs) = Panicked type_assertion.
Proof.
  intros Hid.
  assert (forall action nm n p,
            switch_Action action = case_upsert ->
            applyTransaction MarshalJSON e w'
              {| Action := action; Name := nm; LSN := n;
                 Feature := Some {| addr := p; pointee := f |} |}
            = Panicked type_assertion) as Hpanic.
  { intros action nm n p Ha. unfold applyTransaction. simpl. rewrite Ha.
    simpl. destruct (ID f) as [|id| |] eqn:Ei; try done.
    by destruct (Hid id). }
  do 3 eexists. split; [reflexivity|]. split; [reflexivity|].
  repeat split; simpl; by rewrite ?Hpanic.
Qed.

End HandlerProperties.

Lemma handlers_submit_unchecked_ID_witness :
  let f := with_ID (point_feature "p1" 1 2) (any_float64 5) in
  (forall id, ID f <> any_string id)
  /\ exists w1 txn1 txn2,
       insertHandler (sample_storage empty_engine) sample_world (Some f)
       = (w1, submitted txn1)
       /\ replaceHandler (sample_storage empty_engine) sample_world (Some f)
          = (w1, submitted txn2)
       /\ applyTransaction sample_MarshalJSON empty_engine sample_world txn1
          = Panicked type_assertion
       /\ applyTransaction sample_MarshalJSON empty_engine sample_world txn2
          = Panicked type_assertion
       /\ Run sample_MarshalJSON empty_engine sample_world [job txn1]
          = Panicked type_assertion
       /\ Run sample_MarshalJSON empty_engine sample_world [job txn2]
          = Panicked type_assertion.
Proof.
  intros f.
  assert (forall id, ID f <> any_string id) as H by (intros id; discriminate).
  split; [exact H|].
  exact (handlers_submit_unchecked_ID sample_MarshalJSON
           (sample_storage empty_engine) sample_world f empty_engine
           sample_world [] H).
Defined.

(** * Properties of the storage with a cache and a collection *)

Lemma IndexFunc_Some l f i :
  Practice1.IndexFunc l f = Some i ->
  exists x, l !! i = Some x /\ f x = true.
Proof.
  revert i. induction l as [|y rest IH]; intros i; simpl; [done|].
  destruct (f y) eqn:Ef.
  - intros [= <-]. eauto.
  - destruct (Practice1.IndexFunc rest f) as [j|]; simpl; [|done].
    intros [= <-]. by apply IH.
Qed.

Lemma IndexFunc_None l f :
  Practice1.IndexFunc l f = None <-> forall x, x ∈ l -> f x = false.
Proof.
  induction l as [|y rest IH]; simpl.
  - split; [by intros _ x ?%elem_of_nil|done].
  - destruct (f y) eqn:Ef.
    + split; [done|]. intros H. specialize (H y (list_elem_of_here _ _)).
      congruence.
    + destruct (Practice1.IndexFunc rest f) as [j|]; simpl.
      * split; [done|]. intros H.
        assert (Some j = @None nat) as Habs; [|done].
        apply IH. intros x Hx. apply H. by apply list_elem_of_further.
      * split; [|done]. intros _ x [->|Hx]%elem_of_cons; [done|].
        by apply IH.
Qed.

Lemma swap_remove_perm (l : list ptr_Feature) i x :
  l !! i = Some x -> x :: Practice1.swap_remove l i ≡ₚ l.
Proof.
  intros Hi. unfold Practice1.swap_remove.
  destruct (last l) as [z|] eqn:Hlast.
  2:{ apply last_None in Hlast. by subst. }
  apply last_Some in Hlast as [l' ->].
  rewrite length_app. simpl.
  replace (length l' + 1 - 1) with (length l') by lia.
  destruct (decide (i = length l')) as [->|Hne].
  - rewrite list_lookup_middle in Hi by done. injection Hi as <-.
    rewrite (insert_app_r_alt l' [z] (length l')) by lia.
    rewrite Nat.sub_diag. simpl. rewrite take_app_length.
    apply Permutation_cons_append.
  - assert (i < length l') as Hlt.
    { apply lookup_lt_Some in Hi. rewrite length_app in Hi. simpl in Hi. lia. }
    rewrite lookup_app_l in Hi by done.
    rewrite insert_app_l by done.
    rewrite take_app_length' by (by rewrite length_insert).
    rewrite <- (take_drop_middle l' i x Hi) at 2.
    rewrite (insert_take_drop l' i z Hlt).
    etransitivity; [apply perm_skip; symmetry; apply Permutation_middle|].
    etransitivity; [apply perm_swap|].
    etransitivity; [apply perm_skip, Permutation_middle|].
    apply Permutation_cons_append.
Qed.

Lemma swap_remove_NoDup (l : list ptr_Feature) i x :
  l !! i = Some x -> NoDup l ->
  NoDup (Practice1.swap_remove l i) /\ (x ∉ Practice1.swap_remove l i)
  /\ (forall y, y ∈ l <-> y = x \/ y ∈ Practice1.swap_remove l i)
  /\ S (length (Practice1.swap_remove l i)) = length l.
Proof.
  intros Hi Hnd. pose proof (swap_remove_perm l i x Hi) as Hp.
  set (l2 := Practice1.swap_remove l i) in *. clearbody l2.
  assert (NoDup (x :: l2)) as Hnd2 by (by rewrite Hp).
  apply NoDup_cons in Hnd2 as [Hnotin Hnd2].
  repeat split; try done.
  - intros Hy. apply elem_of_cons. by rewrite Hp.
  - intros Hy. rewrite <- Hp. by apply elem_of_cons.
  - apply Permutation_length in Hp. by simpl in Hp.
Qed.

Lemma ID_is_true id p :
  Practice1.ID_is id p = true <-> ID (pointee p) = any_string id.
Proof.
  unfold Practice1.ID_is. destruct (ID (pointee p)) as [|s| |]; try done.
  rewrite String.eqb_eq. split; [by intros ->|by intros [= ->]].
Qed.

Lemma in_step_index s id p :
  Practice1.in_step s ->
  Practice1.geoCache s !! id = Some p ->
  exists i,
    Practice1.IndexFunc (Practice1.geoDB s) (Practice1.ID_is id) = Some i
    /\ Practice1.geoDB s !! i = Some p.
Proof.
  intros (Hdb & Hcache & _) Hp.
  destruct (Hcache id p Hp) as [Hin Hid].
  destruct (Practice1.IndexFunc (Practice1.geoDB s) (Practice1.ID_is id))
    as [i|] eqn:Ei.
  - exists i. split; [done|].
    destruct (IndexFunc_Some _ _ _ Ei) as (x & Hx & Hfx).
    apply ID_is_true in Hfx.
    destruct (Hdb x) as (id' & Hid' & Hc'); [by eapply list_elem_of_lookup_2|].
    assert (id' = id) as -> by congruence. congruence.
  - exfalso. pose proof (proj1 (IndexFunc_None _ _) Ei p Hin) as Hf.
    apply ID_is_true in Hid. congruence.
Qed.

Lemma in_step_absent s id :
  Practice1.in_step s ->
  Practice1.geoCache s !! id = None ->
  Practice1.IndexFunc (Practice1.geoDB s) (Practice1.ID_is id) = None.
Proof.
  intros (Hdb & _ & _) Hn. apply IndexFunc_None. intros x Hx.
  destruct (Practice1.ID_is id x) eqn:Ef; [|done].
  apply ID_is_true in Ef. destruct (Hdb x Hx) as (id' & Hid' & Hc').
  assert (id' = id) as -> by congruence. congruence.
Qed.

Lemma in_step_insert s id p :
  Practice1.in_step s ->
  ID (pointee p) = any_string id ->
  Practice1.geoCache s !! id = None ->
  Practice1.in_step
    (Practice1.with_index s (<[id := p]> (Practice1.geoCache s))
       (Practice1.geoDB s ++ [p])).
Proof.
  intros (Hdb & Hcache & Hnd) Hid Hn.
  assert (p ∉ Practice1.geoDB s) as Hnotin.
  { intros Hin. destruct (Hdb p Hin) as (id' & Hid' & Hc').
    assert (id' = id) as -> by congruence. congruence. }
  split; [|split]; simpl.
  - intros q [Hq|Hq]%elem_of_app.
    + destruct (Hdb q Hq) as (id' & Hid' & Hc'). exists id'. split; [done|].
      rewrite lookup_insert_ne; [done|]. intros <-. congruence.
    + apply list_elem_of_singleton in Hq as ->. exists id.
      by rewrite lookup_insert_eq.
  - intros id' q. destruct (decide (id = id')) as [<-|Hne].
    + rewrite lookup_insert_eq. intros [= <-]. split; [|done].
      apply elem_of_app. right. apply list_elem_of_here.
    + rewrite lookup_insert_ne by done. intros Hq.
      destruct (Hcache id' q Hq). split; [|done]. apply elem_of_app. by left.
  - apply NoDup_app. split; [done|]. split; [|apply NoDup_singleton].
    intros x Hx ->%list_elem_of_singleton. done.
Qed.

Lemma in_step_replace s id p p_old i :
  Practice1.in_step s ->
  ID (pointee p) = any_string id ->
  Practice1.geoCache s !! id = Some p_old ->
  Practice1.geoDB s !! i = Some p_old ->
  Practice1.in_step
    (Practice1.with_index s (<[id := p]> (Practice1.geoCache s))
       (Practice1.swap_remove (Practice1.geoDB s) i ++ [p])).
Proof.
  intros (Hdb & Hcache & Hnd) Hid Hold Hi.
  destruct (swap_remove_NoDup _ _ _ Hi Hnd) as (Hnd2 & Hnotin & Hmem & _).
  destruct (Hcache id p_old Hold) as [_ Hidold].
  assert (forall q, q ∈ Practice1.swap_remove (Practice1.geoDB s) i ->
            exists id', id' <> id /\ ID (pointee q) = any_string id'
                        /\ Practice1.geoCache s !! id' = Some q) as Hsr.
  { intros q Hq. destruct (Hdb q) as (id' & Hid' & Hc').
    { apply Hmem. by right. }
    exists id'. split; [|done]. intros ->.
    assert (q = p_old) as -> by congruence. done. }
  split; [|split]; simpl.
  - intros q [Hq|Hq]%elem_of_app.
    + destruct (Hsr q Hq) as (id' & Hne & Hid' & Hc'). exists id'.
      split; [done|]. by rewrite lookup_insert_ne.
    + apply list_elem_of_singleton in Hq as ->. exists id.
      by rewrite lookup_insert_eq.
  - intros id' q. destruct (decide (id = id')) as [<-|Hne].
    + rewrite lookup_insert_eq. intros [= <-]. split; [|done].
      apply elem_of_app. right. apply list_elem_of_here.
    + rewrite lookup_insert_ne by done. intros Hq.
      destruct (Hcache id' q Hq) as [Hin Hidq]. split; [|done].
      apply elem_of_app. left.
      apply Hmem in Hin as [->|Hin]; [congruence|done].
  - apply NoDup_app. split; [done|]. split; [|apply NoDup_singleton].
    intros x Hx ->%list_elem_of_singleton.
    destruct (Hsr p Hx) as (id' & Hne & Hid' & _). congruence.
Qed.

Lemma in_step_delete s id p_old i :
  Practice1.in_step s ->
  Practice1.geoCache s !! id = Some p_old ->
  Practice1.geoDB s !! i = Some p_old ->
  Practice1.in_step
    (Practice1.with_index s (delete id (Practice1.geoCache s))
       (Practice1.swap_remove (Practice1.geoDB s) i)).
Proof.
  intros (Hdb & Hcache & Hnd) Hold Hi.
  destruct (swap_remove_NoDup _ _ _ Hi Hnd) as (Hnd2 & Hnotin & Hmem & _).
  destruct (Hcache id p_old Hold) as [_ Hidold].
  split; [|split]; simpl; [| |done].
  - intros q Hq. destruct (Hdb q) as (id' & Hid' & Hc').
    { apply Hmem. by right. }
    exists id'. split; [done|]. rewrite lookup_delete_ne; [done|].
    intros ->. assert (q = p_old) as -> by congruence. done.
  - intros id' q. destruct (decide (id = id')) as [<-|Hne].
    + by rewrite lookup_delete_eq.
    + rewrite lookup_delete_ne by done. intros Hq.
      destruct (Hcache id' q Hq) as [Hin Hidq]. split; [|done].
      apply Hmem in Hin as [->|Hin]; [congruence|done].
Qed.

Lemma in_step_served_ids s :
  Practice1.in_step s ->
  Practice1.served_ids s = dom (Practice1.geoCache s).
Proof.
  intros (Hdb & Hcache & _). unfold Practice1.served_ids.
  apply set_eq. intros id.
  rewrite elem_of_list_to_set, list_elem_of_omap, elem_of_dom. split.
  - intros (q & Hq & Hs). destruct (Hdb q Hq) as (id' & Hid' & Hc').
    unfold string_ID in Hs. rewrite Hid' in Hs. injection Hs as <-. eauto.
  - intros [p Hp]. destruct (Hcache id p Hp) as [Hin Hid].
    exists p. split; [done|]. unfold string_ID. by rewrite Hid.
Qed.

Lemma in_step_NewStorage nm db : Practice1.in_step (Practice1.NewStorage nm db).
Proof.
  split; [|split]; simpl.
  - intros p Hp. by apply elem_of_nil in Hp.
  - intros id p Hp. by rewrite lookup_empty in Hp.
  - apply NoDup_nil_2.
Qed.

Lemma new_Feature_ID w f :
  ID (pointee (new_Feature w f).2) = ID f.
Proof. done. Qed.

Lemma in_step_insertHandler s w body :
  Practice1.in_step s ->
  Practice1.in_step (Practice1.insertHandler s w body).1.1.
Proof.
  intros Hs. unfold Practice1.insertHandler.
  destruct body as [f|]; [|done]. cbn [new_Feature].
  unfold Practice1.hasID. cbn [pointee].
  destruct (ID f) as [|id| |] eqn:Ef; try done.
  destruct (Practice1.geoCache s !! id) eqn:Ec; [done|].
  cbn [fst]. by apply in_step_insert.
Qed.

Lemma in_step_replaceHandler s w body :
  Practice1.in_step s ->
  exists r, Practice1.replaceHandler s w body = Returned r
            /\ Practice1.in_step r.1.1.
Proof.
  intros Hs. unfold Practice1.replaceHandler.
  destruct body as [f|]; [|by eexists (_, _, _)]. cbn [new_Feature].
  unfold Practice1.hasID. cbn [pointee].
  destruct (ID f) as [|id| |] eqn:Ef; try by eexists (_, _, _).
  destruct (Practice1.geoCache s !! id) as [p_old|] eqn:Ec;
    [|by eexists (_, _, _)].
  destruct (in_step_index s id p_old Hs Ec) as (i & -> & Hi).
  eexists (_, _, _). split; [done|]. cbn [fst]. by eapply in_step_replace.
Qed.

Lemma in_step_deleteHandler s body r :
  Practice1.in_step s ->
  Practice1.deleteHandler s body = Returned r ->
  Practice1.in_step r.1.
Proof.
  intros Hs. unfold Practice1.deleteHandler.
  destruct body as [id|]; [|by intros [= <-]].
  destruct (Practice1.geoCache s !! id) as [p_old|] eqn:Ec.
  - destruct (in_step_index s id p_old Hs Ec) as (i & -> & Hi).
    intros [= <-]. cbn [fst]. by eapply in_step_delete.
  - by rewrite (in_step_absent s id Hs Ec).
Qed.

Lemma in_step_serve_seq rs : forall s w s' w',
  Practice1.in_step s ->
  Practice1.serve_seq s w rs = Returned (s', w') ->
  Practice1.in_step s'.
Proof.
  induction rs as [|r rs IH]; intros s w s' w' Hs; simpl.
  - by intros [= <- <-].
  - destruct (Practice1.serve s w r) as [[[s1 w1] resp]|] eqn:Er; [|done].
    intros Hrest. apply (IH s1 w1 s' w'); [|done].
    destruct r as [body|body|body]; simpl in Er.
    + injection Er as Er. pose proof (in_step_insertHandler s w body Hs) as H.
      by rewrite Er in H.
    + destruct (in_step_replaceHandler s w body Hs) as (r & Hr & Hin).
      rewrite Hr in Er. injection Er as ->. done.
    + destruct (Practice1.deleteHandler s body) as [[s2 resp2]|] eqn:Ed;
        [|done].
      injection Er as <- <- <-.
      by apply (in_step_deleteHandler s body _ Hs Ed).
Qed.

Lemma in_step_values_perm s :
  Practice1.in_step s ->
  Practice1.geoDB s ≡ₚ (map_to_list (Practice1.geoCache s)).*2.
Proof.
  intros (Hdb & Hcache & Hnd). apply NoDup_Permutation; [done| |].
  - apply NoDup_fmap_2_strong; [|apply NoDup_map_to_list].
    intros [id1 p1] [id2 p2] H1%elem_of_map_to_list H2%elem_of_map_to_list.
    simpl. intros <-.
    destruct (Hcache _ _ H1) as [_ E1]. destruct (Hcache _ _ H2) as [_ E2].
    congruence.
  - intros x. rewrite list_elem_of_fmap. split.
    + intros Hx. destruct (Hdb x Hx) as (id & _ & Hc).
      exists (id, x). split; [done|]. by apply elem_of_map_to_list.
    + intros ([id p] & -> & Hp%elem_of_map_to_list).
      by destruct (Hcache _ _ Hp).
Qed.

(** X21: whatever insert, replace and delete requests a new storage has
    served without a panic, the collection that select serves holds exactly
    the cached features, each once, and its identifiers are the keys of the
    cache. *)
Theorem served_collection_matches_cache nm db w rs s' w' :
  Practice1.serve_seq (Practice1.NewStorage nm db) w rs = Returned (s', w') ->
  Practice1.in_step s'
  /\ Practice1.geoDB s' ≡ₚ (map_to_list (Practice1.geoCache s')).*2
  /\ Practice1.served_ids s' = dom (Practice1.geoCache s').
Proof.
  intros Hrun.
  assert (Practice1.in_step s') as Hs.
  { eapply in_step_serve_seq; [apply in_step_NewStorage|done]. }
  split; [done|]. split; [by apply in_step_values_perm|].
  by apply in_step_served_ids.
Qed.

(** X22: in a storage whose cache and collection are in step, a delete
    request for an identifier that is not stored panics on the index -1; for
    a stored identifier it answers 200 and removes that feature, and only
    it, from the cache and from the collection. *)
Theorem delete_removes_or_panics s id :
  Practice1.in_step s ->
  match Practice1.geoCache s !! id with
  | None =>
      Practice1.deleteHandler s (Some id)
      = Panicked Practice1.index_out_of_range
  | Some p =>
      exists s',
        Practice1.deleteHandler s (Some id)
        = Returned (s', Practice1.empty_OK)
        /\ Practice1.geoCache s' = delete id (Practice1.geoCache s)
        /\ p :: Practice1.geoDB s' ≡ₚ Practice1.geoDB s
        /\ Practice1.served_ids s' = Practice1.served_ids s ∖ {[id]}
  end.
Proof.
  intros Hs. destruct (Practice1.geoCache s !! id) as [p|] eqn:Ec.
  - destruct (in_step_index s id p Hs Ec) as (i & Ei & Hi).
    unfold Practice1.deleteHandler. rewrite Ei. eexists. split; [done|].
    cbn [Practice1.geoCache Practice1.geoDB Practice1.with_index].
    split; [done|]. split; [by apply swap_remove_perm|].
    pose proof (in_step_delete s id p i Hs Ec Hi) as Hs'.
    rewrite (in_step_served_ids _ Hs'), (in_step_served_ids _ Hs).
    cbn [Practice1.geoCache Practice1.with_index]. by rewrite dom_delete_L.
  - unfold Practice1.deleteHandler. by rewrite (in_step_absent s id Hs Ec).
Qed.

(** X23: in a storage whose cache and collection are in step, a replace
    request never panics: for an identifier that is not stored it answers
    404 and changes nothing; for a stored one it answers 200, the new
    feature takes the place of the old one in the cache and in the
    collection, and the stored identifiers are the same. *)
Theorem replace_swaps_or_404 s w f id :
  Practice1.in_step s ->
  ID f = any_string id ->
  match Practice1.geoCache s !! id with
  | None =>
      Practice1.replaceHandler s w (Some f)
      = Returned (s, (new_Feature w f).1,
                  Practice1.http_Error "feature not found"
                    Practice1.StatusNotFound)
  | Some p =>
      exists s',
        Practice1.replaceHandler s w (Some f)
        = Returned (s', (new_Feature w f).1, Practice1.empty_OK)
        /\ Practice1.geoCache s'
           = <[id := (new_Feature w f).2]> (Practice1.geoCache s)
        /\ p :: Practice1.geoDB s'
           ≡ₚ (new_Feature w f).2 :: Practice1.geoDB s
        /\ Practice1.served_ids s' = Practice1.served_ids s
  end.
Proof.
  intros Hs Hid. unfold Practice1.replaceHandler. cbn [new_Feature fst snd].
  unfold Practice1.hasID. cbn [pointee]. rewrite Hid.
  destruct (Practice1.geoCache s !! id) as [p|] eqn:Ec; [|done].
  destruct (in_step_index s id p Hs Ec) as (i & -> & Hi).
  eexists. split; [done|].
  cbn [Practice1.geoCache Practice1.geoDB Practice1.with_index].
  split; [done|]. split.
  - pose proof (swap_remove_perm _ _ _ Hi) as Hp.
    set (l2 := Practice1.swap_remove (Practice1.geoDB s) i) in *.
    clearbody l2.
    etransitivity; [|apply perm_skip, Hp].
    change (p :: l2 ++ [{| addr := next_addr w; pointee := f |}])
      with ((p :: l2) ++ [{| addr := next_addr w; pointee := f |}]).
    symmetry. apply Permutation_cons_append.
  - pose proof (in_step_replace s id {| addr := next_addr w; pointee := f |}
                  p i Hs Hid Ec Hi) as Hs'.
    rewrite (in_step_served_ids _ Hs'), (in_step_served_ids _ Hs).
    cbn [Practice1.geoCache Practice1.with_index].
    rewrite dom_insert_L. apply elem_of_dom_2 in Ec. set_solver.
Qed.

(** X24: the first insert of an identifier wins: after an insert request
    with a string identifier, a further insert request with the same
    identifier answers 200 with an empty body and leaves the cache and the
    collection as they are, whatever feature it carries. *)
Theorem insert_existing_is_ignored s w w' f f' id :
  ID f = any_string id ->
  ID f' = any_string id ->
  let s1 := (Practice1.insertHandler s w (Some f)).1.1 in
  is_Some (Practice1.geoCache s1 !! id)
  /\ Practice1.insertHandler s1 w' (Some f')
     = (s1, (new_Feature w' f').1, Practice1.empty_OK).
Proof.
  intros Hid Hid' s1.
  assert (is_Some (Practice1.geoCache s1 !! id)) as Hsome.
  { subst s1. unfold Practice1.insertHandler. cbn [new_Feature].
    unfold Practice1.hasID. cbn [pointee]. rewrite Hid.
    destruct (Practice1.geoCache s !! id) eqn:Ec; cbn [fst].
    - by rewrite Ec.
    - cbn [Practice1.geoCache Practice1.with_index].
      by rewrite lookup_insert_eq. }
  split; [done|]. clearbody s1.
  unfold Practice1.insertHandler. cbn [new_Feature fst].
  unfold Practice1.hasID. cbn [pointee]. rewrite Hid'.
  by destruct Hsome as [p ->].
Qed.

(** ** Instances on a storage that holds two features *)

Lemma cached_storage_in_step : Practice1.in_step cached_storage.
Proof.
  eapply (in_step_serve_seq cached_requests
            (Practice1.NewStorage "storage" "geo.db.json") fresh_world
            cached_storage); [apply in_step_NewStorage|reflexivity].
Qed.

Lemma served_collection_matches_cache_witness :
  Practice1.serve_seq (Practice1.NewStorage "storage" "geo.db.json")
    fresh_world cached_requests
  = Returned (cached_storage, {| files := ∅; next_addr := 3 |})
  /\ Practice1.served_ids cached_storage
     = dom (Practice1.geoCache cached_storage).
Proof.
  split; [reflexivity|].
  apply (served_collection_matches_cache "storage" "geo.db.json" fresh_world
           cached_requests cached_storage {| files := ∅; next_addr := 3 |}
           eq_refl).
Defined.

Lemma delete_removes_or_panics_witness :
  Practice1.in_step cached_storage
  /\ Practice1.deleteHandler cached_storage (Some "p3")
     = Panicked Practice1.index_out_of_range
  /\ exists s',
       Practice1.deleteHandler cached_storage (Some "p1")
       = Returned (s', Practice1.empty_OK)
       /\ Practice1.served_ids s'
          = Practice1.served_ids cached_storage ∖ {["p1"]}.
Proof.
  split; [exact cached_storage_in_step|]. split.
  - exact (delete_removes_or_panics cached_storage "p3"
             cached_storage_in_step).
  - destruct (delete_removes_or_panics cached_storage "p1"
                cached_storage_in_step) as (s' & Hd & _ & _ & Hids).
    exists s'. split; assumption.
Defined.

Lemma replace_swaps_or_404_witness :
  Practice1.in_step cached_storage
  /\ Practice1.replaceHandler cached_storage fresh_world
       (Some (point_feature "p3" 5 6))
     = Returned (cached_storage, {| files := ∅; next_addr := 2 |},
                 Practice1.http_Error "feature not found"
                   Practice1.StatusNotFound)
  /\ exists s',
       Practice1.replaceHandler cached_storage fresh_world
         (Some (point_feature "p1" 5 6))
       = Returned (s', {| files := ∅; next_addr := 2 |}, Practice1.empty_OK)
       /\ Practice1.served_ids s' = Practice1.served_ids cached_storage.
Proof.
  split; [exact cached_storage_in_step|]. split.
  - exact (replace_swaps_or_404 cached_storage fresh_world
             (point_feature "p3" 5 6) "p3" cached_storage_in_step eq_refl).
  - destruct (replace_swaps_or_404 cached_storage fresh_world
                (point_feature "p1" 5 6) "p1" cached_storage_in_step eq_refl)
      as (s' & Hr & _ & _ & Hids).
    exists s'. split; assumption.
Defined.

Lemma insert_existing_is_ignored_witness :
  let s1 :=
    (Practice1.insertHandler (Practice1.NewStorage "storage" "geo.db.json")
       fresh_world (Some (point_feature "p1" 1 2))).1.1 in
  Practice1.insertHandler s1 fresh_world (Some (point_feature "p1" 5 6))
  = (s1, {| files := ∅; next_addr := 2 |}, Practice1.empty_OK).
Proof.
  intros s1.
  exact (proj2 (insert_existing_is_ignored
                  (Practice1.NewStorage "storage" "geo.db.json")
                  fresh_world fresh_world (point_feature "p1" 1 2)
                  (point_feature "p1" 5 6) "p1" eq_refl eq_refl)).
Defined.

(** ** The database file of the storage with a cache and a collection *)

Lemma new_Features_addr w fs p :
  Some p ∈ (new_Features w fs).2 -> (next_addr w <= addr p)%positive.
Proof.
  revert w. induction fs as [|[f|] rest IH]; intros w; simpl.
  - intros H. by apply elem_of_nil in H.
  - specialize
      (IH {| files := files w; next_addr := Pos.succ (next_addr w) |}).
    destruct (new_Features _ rest) as [w2 qs]. simpl in *.
    intros [[= ->]|Hin]%elem_of_cons; simpl; [lia|].
    specialize (IH Hin). lia.
  - specialize (IH w). destruct (new_Features w rest) as [w2 qs]. simpl in *.
    intros [[=]|Hin]%elem_of_cons. by apply IH.
Qed.

Lemma new_Features_NoDup fs : forall w ps,
  (new_Features w fs).2 = Some <$> ps -> NoDup ps.
Proof.
  induction fs as [|[f|] rest IH]; intros w ps; simpl.
  - destruct ps; [constructor|done].
  - pose proof (new_Features_addr
                  {| files := files w; next_addr := Pos.succ (next_addr w) |}
                  rest) as Haddr.
    specialize
      (IH {| files := files w; next_addr := Pos.succ (next_addr w) |}).
    destruct (new_Features _ rest) as [w2 qs]. simpl in *.
    destruct ps as [|p ps]; [done|]. intros [= <- ->].
    apply NoDup_cons. split; [|by apply IH].
    intros Hin. specialize (Haddr _ (list_elem_of_fmap_2 Some _ _ Hin)).
    simpl in Haddr. lia.
  - destruct (new_Features w rest) as [w2 qs]. simpl.
    by destruct ps.
Qed.

Lemma file_ids_pointers col ps :
  Forall2 (fun f p => f = Some (pointee p)) col ps ->
  Practice1.file_ids col = omap string_ID ps.
Proof.
  induction 1 as [|f p col ps -> _ IH]; [done|].
  unfold Practice1.file_ids in *. cbn [omap list_omap fmap option_fmap option_map].
  rewrite IH. unfold string_ID. by destruct (ID (pointee p)).
Qed.

Lemma NoDup_omap_string_ID (ps : list ptr_Feature) :
  NoDup ps ->
  (forall p q id, p ∈ ps -> q ∈ ps ->
                  string_ID p = Some id -> string_ID q = Some id -> p = q) ->
  NoDup (omap string_ID ps).
Proof.
  induction 1 as [|p ps Hnotin Hnd IH]; intros Hinj; [constructor|].
  cbn [omap list_omap].
  assert (NoDup (omap string_ID ps)) as Hrest.
  { apply IH. intros q1 q2 id H1 H2. apply Hinj; by apply list_elem_of_further. }
  destruct (string_ID p) as [id|] eqn:Ep; [|done].
  apply NoDup_cons. split; [|done].
  intros (q & Hq & Eq)%list_elem_of_omap.
  assert (p = q) as ->; [|done].
  apply (Hinj p q id); [apply list_elem_of_here|by apply list_elem_of_further|
                        done|done].
Qed.

Lemma in_step_NoDup_ids s :
  Practice1.in_step s -> NoDup (omap string_ID (Practice1.geoDB s)).
Proof.
  intros (Hdb & _ & Hnd). apply NoDup_omap_string_ID; [done|].
  intros p q id Hp Hq Ep Eq.
  destruct (Hdb p Hp) as (ip & Hip & Hcp).
  destruct (Hdb q Hq) as (iq & Hiq & Hcq).
  unfold string_ID in Ep, Eq. rewrite Hip in Ep. rewrite Hiq in Eq.
  congruence.
Qed.

Lemma fill_cache_in_step s (ps : list ptr_Feature) :
  Forall (fun p => exists id, ID (pointee p) = any_string id) ps ->
  NoDup ps ->
  NoDup (omap string_ID ps) ->
  Practice1.in_step
    (Practice1.with_index s
       (foldl primary_step ∅ (checkpoint_txn <$> ps)) ps).
Proof.
  intros Hids Hnd Hndid.
  set (l := (fun p => (default EmptyString (string_ID p), p)) <$> ps).
  assert (l.*2 = ps) as Hl2.
  { unfold l. rewrite <- list_fmap_compose. apply list_fmap_id. }
  assert (forall k p, (k, p) ∈ l <-> p ∈ ps /\ ID (pointee p) = any_string k)
    as Hl.
  { intros k p. unfold l. rewrite list_elem_of_fmap. split.
    - intros (q & [= -> ->] & Hq). split; [done|].
      rewrite Forall_forall in Hids. destruct (Hids q Hq) as [id Hid].
      unfold string_ID. by rewrite Hid.
    - intros [Hp Hid]. exists p. split; [|done].
      unfold string_ID. by rewrite Hid. }
  assert (l.*1 = omap string_ID ps) as Hl1.
  { unfold l. rewrite <- list_fmap_compose. clear -Hids.
    induction Hids as [|p ps [id Hid] _ IH]; [done|].
    cbn [fmap list_fmap omap list_omap compose]. rewrite IH.
    unfold string_ID at 1 3. rewrite Hid. done. }
  assert (forall k,
            foldl primary_step ∅ (checkpoint_txn <$> ps) !! k
            = (list_to_map l : gmap string ptr_Feature) !! k) as Hlook.
  { intros k. rewrite <- Hl2.
    rewrite (foldl_checkpoint_txns l ∅) by (intros k' p' Hin; by apply Hl).
    rewrite foldl_insert_lookup by (by rewrite Hl1).
    destruct (list_to_map l !! k); [done|apply lookup_empty]. }
  split; [|split]; simpl; [| |done].
  - intros p Hp. rewrite Forall_forall in Hids.
    destruct (Hids p Hp) as [id Hid]. exists id. split; [done|].
    rewrite Hlook. apply elem_of_list_to_map_1; [by rewrite Hl1|].
    by apply Hl.
  - intros id p. rewrite Hlook. intros Hin%elem_of_list_to_map_2.
    by apply Hl.
Qed.

Section CollectionFileProperties.

Variable MarshalJSON : list geojson_Feature -> bytes + error.
Variable json_reread : geojson_Feature -> geojson_Feature.
Variable UnmarshalFeatureCollection
  : list record -> list (option geojson_Feature) + error.

Local Abbreviation P1_loadFromFile :=
  (Practice1.loadFromFile UnmarshalFeatureCollection).
Local Abbreviation P1_saveToFile := (Practice1.saveToFile MarshalJSON).

Lemma P1_load_spec s w data col :
  files w !! Practice1.dbFile s = Some data ->
  UnmarshalFeatureCollection data = inl col ->
  Forall loadable col ->
  exists s' w',
    P1_loadFromFile s w = Returned (s', w')
    /\ files w' = files w
    /\ (Some ∘ pointee) <$> Practice1.geoDB s' = col
    /\ dom (Practice1.geoCache s') = list_to_set (Practice1.file_ids col)
    /\ (Practice1.in_step s' <-> NoDup (Practice1.file_ids col)).
Proof.
  intros Hfile Hu Hload. unfold Practice1.loadFromFile. rewrite Hfile, Hu.
  pose proof (new_Features_files w col) as Hfiles.
  pose proof (new_Features_pointee w col) as Hpointee.
  pose proof (new_Features_NoDup col w) as Hnd.
  destruct (new_Features_loadable w col Hload) as (ps & Hps & HF).
  destruct (new_Features w col) as [w1 features]. simpl in *. subst features.
  specialize (Hnd ps eq_refl).
  assert (Forall (fun p => exists id, ID (pointee p) = any_string id) ps)
    as Hids.
  { clear -HF Hload. induction HF as [|f p fs ps Hfp _ IH]; [constructor|].
    apply Forall_cons in Hload as [(g & id & Hg & Hgid) Hrest].
    constructor; [|by apply IH]. exists id. congruence. }
  rewrite (fill_primary_fold _ _ Hids).
  assert (omap id (Some <$> ps) = ps) as Hom.
  { clear. induction ps as [|p ps IH]; [done|]. simpl. by f_equal. }
  cbn [mbind outcome_bind]. rewrite Hom.
  eexists _, _. split; [reflexivity|].
  cbn [Practice1.geoCache Practice1.geoDB Practice1.with_index].
  split; [done|]. split.
  { rewrite <- Hpointee, <- list_fmap_compose. done. }
  rewrite (file_ids_pointers col ps HF). split.
  { rewrite (dom_foldl_checkpoint_txns ∅ ps Hids), dom_empty_L.
    by rewrite (left_id_L ∅ (∪)). }
  split.
  - intros Hs. by apply in_step_NoDup_ids in Hs.
  - intros Hndid. by apply fill_cache_in_step.
Qed.

(** X25: loading a database file whose features all have string
    identifiers gives the storage the features of the file, in the order of
    the file, as its collection and their identifiers as the keys of its
    cache; the cache and the collection are then in step exactly when no
    identifier occurs twice in the file. *)
Theorem loadFromFile_in_step_iff_distinct_ids s w data col :
  files w !! Practice1.dbFile s = Some data ->
  UnmarshalFeatureCollection data = inl col ->
  Forall loadable col ->
  exists s' w',
    P1_loadFromFile s w = Returned (s', w')
    /\ (Some ∘ pointee) <$> Practice1.geoDB s' = col
    /\ dom (Practice1.geoCache s') = list_to_set (Practice1.file_ids col)
    /\ (Practice1.in_step s' <-> NoDup (Practice1.file_ids col)).
Proof.
  intros Hfile Hu Hload.
  destruct (P1_load_spec s w data col Hfile Hu Hload)
    as (s' & w' & Hl & _ & Hcol & Hdom & Hstep).
  by exists s', w'.
Qed.

(** X26: when the collection is written and read back feature by feature
    and the identifiers are read back as written, [saveToFile] of a storage
    whose cache and collection are in step, followed by [loadFromFile] of a
    storage on the same database file, gives that storage the saved
    features as read back, in the same order, with the same identifiers,
    and its cache and collection are in step. *)
Theorem P1_saveToFile_loadFromFile_round_trip
    (s s2 : Practice1.Storage) (w : World) (data : bytes) :
  Practice1.in_step s ->
  Forall (fun p => ID (json_reread (pointee p)) = ID (pointee p))
         (Practice1.geoDB s) ->
  MarshalJSON (pointee <$> Practice1.geoDB s) = inl data ->
  UnmarshalFeatureCollection [rec_collection data]
  = inl ((Some ∘ json_reread ∘ pointee) <$> Practice1.geoDB s) ->
  Practice1.dbFile s2 = Practice1.dbFile s ->
  exists s3 w3,
    P1_loadFromFile s2 (P1_saveToFile s w) = Returned (s3, w3)
    /\ files w3 = <[Practice1.dbFile s := [rec_collection data]]> (files w)
    /\ pointee <$> Practice1.geoDB s3
       = (json_reread ∘ pointee) <$> Practice1.geoDB s
    /\ Practice1.served_ids s3 = Practice1.served_ids s
    /\ Practice1.in_step s3.
Proof.
  intros Hs Hid Hm Hu Hdb.
  assert (P1_saveToFile s w
          = with_files w
              (<[Practice1.dbFile s := [rec_collection data]]> (files w)))
    as ->.
  { unfold Practice1.saveToFile, os_Create. rewrite Hm.
    unfold File_Write, file_contents. simpl. rewrite lookup_insert_eq. simpl.
    by rewrite insert_insert_eq. }
  set (col := (Some ∘ json_reread ∘ pointee) <$> Practice1.geoDB s) in *.
  assert (Practice1.file_ids col = omap string_ID (Practice1.geoDB s))
    as Hcolids.
  { unfold col, Practice1.file_ids. clear -Hid.
    induction Hid as [|p ps Hp _ IH]; [done|].
    cbn [fmap list_fmap omap list_omap compose option_fmap option_map].
    rewrite IH, Hp. unfold string_ID. by destruct (ID (pointee p)). }
  assert (Forall loadable col) as Hload.
  { unfold col. apply Forall_fmap, Forall_forall. intros p Hp. simpl.
    destruct Hs as (Hdbs & _ & _). destruct (Hdbs p Hp) as (id & Hpid & _).
    rewrite Forall_forall in Hid.
    exists (json_reread (pointee p)), id. split; [done|].
    by rewrite (Hid p Hp). }
  destruct (P1_load_spec s2
              (with_files w
                 (<[Practice1.dbFile s := [rec_collection data]]> (files w)))
              [rec_collection data] col)
    as (s3 & w3 & Hl & Hfiles & Hcol & Hdom & Hstep); [| done | done |].
  { rewrite Hdb. simpl. apply lookup_insert_eq. }
  exists s3, w3. split; [done|]. split; [done|].
  assert (Practice1.in_step s3) as Hs3.
  { apply Hstep. rewrite Hcolids. by apply in_step_NoDup_ids. }
  split; [|split; [|done]].
  - unfold col in Hcol.
    rewrite (list_fmap_compose pointee Some) in Hcol.
    rewrite (list_fmap_compose (json_reread ∘ pointee) Some) in Hcol.
    by apply (inj (fmap Some)) in Hcol.
  - rewrite (in_step_served_ids _ Hs3), Hdom, Hcolids. done.
Qed.

End CollectionFileProperties.

(** ** Instances on the database file that holds p1 *)

Lemma cached_p1_storage_in_step : Practice1.in_step cached_p1_storage.
Proof. apply in_step_insertHandler, in_step_NewStorage. Qed.

Lemma loadFromFile_in_step_iff_distinct_ids_witness :
  let s := Practice1.NewStorage "storage" "geo.db.json" in
  let col := [Some (point_feature "p1" 1 2)] in
  Forall loadable col
  /\ exists s' w',
       Practice1.loadFromFile sample_Unmarshal s db_world
       = Returned (s', w')
       /\ dom (Practice1.geoCache s') = {["p1"]}
       /\ Practice1.in_step s'.
Proof.
  intros s col.
  assert (Forall loadable col) as Hl.
  { constructor; [|constructor]. do 2 eexists. split; reflexivity. }
  split; [exact Hl|].
  destruct (loadFromFile_in_step_iff_distinct_ids sample_Unmarshal s db_world
              [rec_collection (list_byte_of_string "p1")] col
              eq_refl eq_refl Hl)
    as (s' & w' & Hload & _ & Hdom & Hstep).
  exists s', w'. split; [exact Hload|]. split.
  - rewrite Hdom. simpl. apply (right_id_L ∅ (∪)).
  - apply Hstep. simpl. apply NoDup_singleton.
Defined.

Lemma P1_saveToFile_loadFromFile_round_trip_witness :
  let s := cached_p1_storage in
  let s2 := Practice1.NewStorage "storage" "geo.db.json" in
  let data := list_byte_of_string "p1" in
  Practice1.in_step s
  /\ sample_MarshalJSON (pointee <$> Practice1.geoDB s) = inl data
  /\ sample_Unmarshal [rec_collection data]
     = inl ((Some ∘ sample_reread ∘ pointee) <$> Practice1.geoDB s)
  /\ exists s3 w3,
       Practice1.loadFromFile sample_Unmarshal s2
         (Practice1.saveToFile sample_MarshalJSON s fresh_world)
       = Returned (s3, w3)
       /\ Practice1.served_ids s3 = Practice1.served_ids s
       /\ Practice1.in_step s3.
Proof.
  intros s s2 data.
  assert (sample_MarshalJSON (pointee <$> Practice1.geoDB s) = inl data)
    as Hm by reflexivity.
  assert (sample_Unmarshal [rec_collection data]
          = inl ((Some ∘ sample_reread ∘ pointee) <$> Practice1.geoDB s))
    as Hu by reflexivity.
  split; [exact cached_p1_storage_in_step|].
  split; [exact Hm|]. split; [exact Hu|].
  destruct (P1_saveToFile_loadFromFile_round_trip sample_MarshalJSON
              sample_reread sample_Unmarshal s s2 fresh_world data
              cached_p1_storage_in_step
              (Forall_cons_2 _ _ _ eq_refl (Forall_nil_2 _)) Hm Hu eq_refl)
    as (s3 & w3 & Hload & _ & _ & Hids & Hstep).
  exists s3, w3. split; [exact Hload|]. split; [exact Hids|exact Hstep].
Defined.

(** * Properties of the router *)

Lemma handle_rows_concat nodes : forall mux,
  Router.handle_rows mux nodes = Router.handle_row mux (concat nodes).
Proof.
  induction nodes as [|row rest IH]; intros mux; [done|]. simpl.
  revert mux. induction row as [|node row IHrow]; intros mux; simpl.
  - apply IH.
  - destruct (Router.handle_node mux node) as [mux1|p]; simpl; [|done].
    apply IHrow.
Qed.

Lemma handle_node_fresh (mux : Router.ServeMux) node :
  (forall route, route ∈ Router.routes -> mux !! route = None) ->
  exists mux1,
    Router.handle_node mux node = inl mux1
    /\ (forall route, route ∈ Router.routes ->
          mux1 !! route
          = Some (Router.RedirectHandler ("/" +:+ node +:+ route)
                    Router.StatusTemporaryRedirect))
    /\ (forall p, p ∉ Router.routes -> mux1 !! p = mux !! p).
Proof.
  intros Hfree.
  assert (mux !! "/insert" = None) as H1 by (apply Hfree; set_solver).
  assert (mux !! "/replace" = None) as H2 by (apply Hfree; set_solver).
  assert (mux !! "/delete" = None) as H3 by (apply Hfree; set_solver).
  assert (mux !! "/select" = None) as H4 by (apply Hfree; set_solver).
  assert (mux !! "/checkpoint" = None) as H5 by (apply Hfree; set_solver).
  eexists. split; [|split].
  - unfold Router.handle_node, Router.redirect, Router.Handle,
      Router.and_then.
    rewrite H1. rewrite lookup_insert_ne, H2 by done.
    rewrite !lookup_insert_ne, H3 by done.
    rewrite !lookup_insert_ne, H4 by done.
    rewrite !lookup_insert_ne, H5 by done.
    reflexivity.
  - intros route Hr. unfold Router.routes.
    repeat (apply elem_of_cons in Hr as [->|Hr];
            [by repeat (rewrite lookup_insert_eq
                        || rewrite lookup_insert_ne by done)|]).
    by apply elem_of_nil in Hr.
  - intros p Hp. unfold Router.routes.
    rewrite !lookup_insert_ne; [done|..]; intros <-; apply Hp; set_solver.
Qed.

Lemma handle_node_taken (mux : Router.ServeMux) node h :
  mux !! "/insert" = Some h -> Router.handle_node mux node = inr "/insert".
Proof.
  intros H. unfold Router.handle_node, Router.redirect, Router.Handle.
  by rewrite H.
Qed.

(** X27: on a mux that has none of its patterns, [NewRouter] can be built
    for one node at most.  Without a node it registers the file server
    alone; for one node it registers the file server and the five
    redirects to the routes of that node and leaves the other patterns of
    the mux as they are; for two nodes or more, in one row or in several,
    it panics on the second registration of the insert pattern. *)
Theorem NewRouter_takes_one_node_at_most (mux : Router.ServeMux) nodes :
  (forall p, p ∈ "/" :: Router.routes -> mux !! p = None) ->
  match concat nodes with
  | [] =>
      Router.NewRouter mux nodes
      = inl {| Router.mux :=
                 <["/" := Router.FileServer "../front/dist"]> mux;
               Router.nodes := nodes |}
  | [node] =>
      exists r,
        Router.NewRouter mux nodes = inl r
        /\ Router.nodes r = nodes
        /\ Router.mux r !! "/" = Some (Router.FileServer "../front/dist")
        /\ (forall route, route ∈ Router.routes ->
              Router.mux r !! route
              = Some (Router.RedirectHandler ("/" +:+ node +:+ route)
                        Router.StatusTemporaryRedirect))
        /\ (forall p, p ∉ "/" :: Router.routes ->
              Router.mux r !! p = mux !! p)
  | _ :: _ :: _ => Router.NewRouter mux nodes = inr "/insert"
  end.
Proof.
  intros Hfree. unfold Router.NewRouter, Router.Handle.
  rewrite (Hfree "/") by set_solver. cbn [Router.and_then].
  rewrite handle_rows_concat.
  set (mux0 := <["/" := Router.FileServer "../front/dist"]> mux).
  assert (forall route, route ∈ Router.routes -> mux0 !! route = None)
    as Hfree0.
  { intros route Hr. unfold mux0. rewrite lookup_insert_ne.
    - apply Hfree. by apply list_elem_of_further.
    - intros <-. unfold Router.routes in Hr. set_solver. }
  destruct (concat nodes) as [|node [|node2 rest]]; [done| |].
  - destruct (handle_node_fresh mux0 node Hfree0) as (mux1 & H1 & Hr & Ho).
    cbn [Router.handle_row]. rewrite H1. cbn [Router.and_then].
    eexists. split; [done|]. cbn [Router.mux Router.nodes].
    split; [done|]. split; [|split; [done|]].
    + rewrite Ho by (unfold Router.routes; set_solver).
      unfold mux0. apply lookup_insert_eq.
    + intros p Hp. rewrite Ho by set_solver. unfold mux0.
      rewrite lookup_insert_ne; [done|]. intros <-. set_solver.
  - destruct (handle_node_fresh mux0 node Hfree0) as (mux1 & H1 & Hr & _).
    cbn [Router.handle_row]. rewrite H1. cbn [Router.and_then].
    rewrite (handle_node_taken mux1 node2 _ (Hr "/insert" ltac:(set_solver))).
    done.
Qed.

Lemma NewRouter_takes_one_node_at_most_witness :
  (exists r, Router.NewRouter ∅ [["storage"]] = inl r
             /\ Router.mux r !! "/select"
                = Some (Router.RedirectHandler "/storage/select" 307))
  /\ Router.NewRouter ∅ [["storage"]; ["replica"]] = inr "/insert".
Proof.
  split.
  - destruct (NewRouter_takes_one_node_at_most ∅ [["storage"]]
                (fun p _ => lookup_empty p))
      as (r & Hr & _ & _ & Hroutes & _).
    exists r. split; [exact Hr|].
    apply (Hroutes "/select"). unfold Router.routes.
    do 3 apply list_elem_of_further. apply list_elem_of_here.
  - exact (NewRouter_takes_one_node_at_most ∅ [["storage"]; ["replica"]]
             (fun p _ => lookup_empty p)).
Defined.

(** * Properties of the filler *)

Lemma filler_lookup Intn2 b ifzero ifnot i :
  i < length b ->
  Filler.filler Intn2 b ifzero ifnot !! i
  = Some (if Nat.eqb (Intn2 i) 0 then ifzero else ifnot).
Proof.
  intros Hi. unfold Filler.filler, bytes. rewrite list_lookup_imap.
  destruct (lookup_lt_is_Some_2 b i Hi) as [x ->]. done.
Qed.

(** X28: [filler] keeps the length of the slice and overwrites every byte
    of it, whatever it held, with one of the two given bytes; when these
    differ, both occur in the result exactly when the draws for the slice
    are neither all zero nor all non-zero. *)
Theorem filler_both_bytes_iff_mixed_draws Intn2 b ifzero ifnot :
  ifzero <> ifnot ->
  length (Filler.filler Intn2 b ifzero ifnot) = length b
  /\ Forall (fun x => x = ifzero \/ x = ifnot)
            (Filler.filler Intn2 b ifzero ifnot)
  /\ (ifzero ∈ Filler.filler Intn2 b ifzero ifnot
      /\ ifnot ∈ Filler.filler Intn2 b ifzero ifnot
      <-> exists i j, i < length b /\ j < length b
                      /\ Intn2 i = 0 /\ Intn2 j <> 0).
Proof.
  intros Hne.
  assert (length (Filler.filler Intn2 b ifzero ifnot) = length b) as Hlen.
  { unfold Filler.filler. apply length_imap. }
  split; [done|]. split.
  - apply Forall_lookup. intros i x Hx.
    assert (i < length b) as Hi.
    { rewrite <- Hlen. by eapply lookup_lt_Some. }
    rewrite (filler_lookup _ _ _ _ _ Hi) in Hx. injection Hx as <-.
    destruct (Nat.eqb (Intn2 i) 0); [by left|by right].
  - split.
    + intros [(i & Hi)%list_elem_of_lookup_1 (j & Hj)%list_elem_of_lookup_1].
      assert (i < length b) as Hil.
      { rewrite <- Hlen. by eapply lookup_lt_Some. }
      assert (j < length b) as Hjl.
      { rewrite <- Hlen. by eapply lookup_lt_Some. }
      rewrite (filler_lookup _ _ _ _ _ Hil) in Hi.
      rewrite (filler_lookup _ _ _ _ _ Hjl) in Hj.
      exists i, j. split; [done|]. split; [done|].
      destruct (Nat.eqb (Intn2 i) 0) eqn:Ei; [|congruence].
      destruct (Nat.eqb (Intn2 j) 0) eqn:Ej; [congruence|].
      apply Nat.eqb_eq in Ei. apply Nat.eqb_neq in Ej. done.
    + intros (i & j & Hi & Hj & Ei & Ej). split.
      * apply (list_elem_of_lookup_2 _ i).
        rewrite (filler_lookup _ _ _ _ _ Hi), Ei. done.
      * apply (list_elem_of_lookup_2 _ j).
        rewrite (filler_lookup _ _ _ _ _ Hj).
        apply Nat.eqb_neq in Ej. by rewrite Ej.
Qed.

Lemma filler_both_bytes_iff_mixed_draws_witness :
  Forall (fun x => x = Byte.x30 \/ x = Byte.x31)
         (Filler.filler (fun _ => 0) (repeat Byte.x00 100) Byte.x30 Byte.x31)
  /\ ~ (Byte.x31
        ∈ Filler.filler (fun _ => 0) (repeat Byte.x00 100) Byte.x30 Byte.x31).
Proof.
  destruct (filler_both_bytes_iff_mixed_draws (fun _ => 0)
              (repeat Byte.x00 100) Byte.x30 Byte.x31 ltac:(discriminate))
    as (_ & Hall & Hboth).
  split; [exact Hall|].
  intros Hin.
  assert (Byte.x30
          ∈ Filler.filler (fun _ => 0) (repeat Byte.x00 100)
              Byte.x30 Byte.x31) as Hin0.
  { apply (list_elem_of_lookup_2 _ 0). reflexivity. }
  destruct (proj1 Hboth (conj Hin0 Hin)) as (i & j & _ & _ & _ & Hj).
  by apply Hj.
Defined.
